(** * Email archiver: the incremental synchronisation engine

    A shallow embedding of the TypeScript sources of the archiver
    (jobs/syncGmail.ts, jobs/processEmail.ts, services/gmailService.ts,
    services/driveService.ts, models/emailModel.ts, utils/emailParser.ts,
    utils/encryption.ts, auth/googleAuth.ts) and the properties of the
    synchronisation cycle proved about it.

    Conventions.
    - A JavaScript string is a [string]; a value of type
      [string | null | undefined] is an [option string].  Conditions written
      [if (x)] on such values are JavaScript truthiness tests: [truthy_opt].
    - Asynchronous functions that read or write the database, call a remote
      service, log or throw are computations in the monad [M]: they take the
      database and return an outcome (value or exception), the database
      after the call and the trace of what they did (remote calls and console
      lines, in order).
    - Everything outside the process (Gmail, Drive, faults of the database
      server, the html-entities and Buffer libraries) is a field of [World]. *)

From Stdlib Require Import String Ascii List Bool Arith ZArith Lia.
Import ListNotations.
Open Scope string_scope.
Open Scope list_scope.

Set Implicit Arguments.

(** ** JavaScript values *)

Module Js.

(** [if (s)] on a string: the empty string is falsy. *)
Definition truthy (s : string) : bool := negb (String.eqb s "").

(** [if (x)] on [string | null | undefined]. *)
Definition truthy_opt (o : option string) : bool :=
  match o with
  | Some s => truthy s
  | None => false
  end.

(** [x || undefined]. *)
Definition or_undefined (o : option string) : option string :=
  if truthy_opt o then o else None.

(** [a !== b] on [string | null | undefined] (null and undefined are not told
    apart by this model; the callers below compare a truthy string). *)
Definition strict_neq (a b : option string) : bool :=
  match a, b with
  | Some x, Some y => negb (String.eqb x y)
  | None, None => false
  | _, _ => true
  end.

End Js.
Import Js.

(** ** Exceptions *)

(** What a [catch] clause can observe of a thrown value in these sources:
    Google API errors carry a numeric [code] ([error.code === 404]); Prisma's
    known request errors carry a string code ([error.code === "P2002"]);
    everything else ([new Error(..)], a [TypeError], a validation error) is
    an [OtherError]. *)
Inductive Exn : Type :=
| GoogleApiError (code : nat) (message : string)
| PrismaClientKnownRequestError (code : string)
| OtherError (message : string).

Definition is_not_found (e : Exn) : bool :=
  match e with
  | GoogleApiError code _ => Nat.eqb code 404
  | _ => false
  end.

Definition is_unique_violation (e : Exn) : bool :=
  match e with
  | PrismaClientKnownRequestError code => String.eqb code "P2002"
  | _ => false
  end.

(** ** The data model (prisma/schema.prisma) *)

Record OAuthToken : Type := mkOAuthToken {
  access : string;
  refresh : string;
  expiry : Z;
  lastHistoryId : option string
}.

(** [Prisma.EmailCreateInput], as built by [parseEmailContent]. *)
Record EmailCreateInput : Type := mkEmailInput {
  in_gmailId : string;
  in_threadId : option string;
  in_subject : option string;
  in_from : option string;
  in_to : option string;
  in_cc : option string;
  in_bcc : option string;
  in_messageId : option string;
  in_inReplyTo : option string;
  in_references : option string;
  in_internalDate : option Z;
  in_body : string
}.

Record Email : Type := mkEmail {
  email_id : nat;
  email_data : EmailCreateInput
}.

Definition gmailId (e : Email) : string := in_gmailId (email_data e).
Definition messageId (e : Email) : option string := in_messageId (email_data e).

Record Attachment : Type := mkAttachment {
  att_id : nat;
  att_filename : string;
  att_mimeType : string;
  att_driveId : string;
  att_driveUrl : string;
  att_emailId : nat
}.

(** The database: the single token row (id 1) and the two tables. *)
Record DB : Type := mkDB {
  oAuthToken : option OAuthToken;
  emails : list Email;
  attachments : list Attachment
}.

(** The persisted cursor. *)
Definition cursor (db : DB) : option string :=
  match oAuthToken db with
  | Some t => lastHistoryId t
  | None => None
  end.

(** ** Gmail and Drive payloads (gmail_v1 / drive_v3 schema types) *)

Record MessagePartHeader : Type := mkHeader {
  h_name : string;
  h_value : option string
}.

Record MessagePartBody : Type := mkBody {
  attachmentId : option string;
  body_data : option string
}.

#[warnings="-register-all"]
Inductive MessagePart : Type :=
| Part (filename : option string)
       (mimeType : option string)
       (headers : option (list MessagePartHeader))
       (body : option MessagePartBody)
       (parts : option (list MessagePart)).

Definition part_filename (p : MessagePart) : option string :=
  match p with Part f _ _ _ _ => f end.
Definition part_mimeType (p : MessagePart) : option string :=
  match p with Part _ m _ _ _ => m end.
Definition part_headers (p : MessagePart) : option (list MessagePartHeader) :=
  match p with Part _ _ h _ _ => h end.
Definition part_body (p : MessagePart) : option MessagePartBody :=
  match p with Part _ _ _ b _ => b end.
Definition part_parts (p : MessagePart) : option (list MessagePart) :=
  match p with Part _ _ _ _ ps => ps end.

(** [part.body?.attachmentId] *)
Definition part_attachmentId (p : MessagePart) : option string :=
  match part_body p with
  | Some b => attachmentId b
  | None => None
  end.

Record Message : Type := mkMessage {
  msg_id : option string;
  msg_threadId : option string;
  msg_internalDate : option Z;
  msg_payload : option MessagePart
}.

Record HistoryMessageAdded : Type := mkAdded { added_message : option Message }.
Record History : Type := mkHistory { messagesAdded : option (list HistoryMessageAdded) }.

Record ListHistoryResponse : Type := mkHistoryResp {
  hr_history : option (list History);
  hr_historyId : option string
}.

Record ListMessagesResponse : Type := mkMessagesResp {
  mr_messages : option (list Message);
  mr_nextPageToken : option string
}.

Record DriveFile : Type := mkDriveFile {
  file_id : option string;
  webViewLink : option string
}.

(** A remote call either resolves with data or rejects with an exception. *)
Inductive Response (A : Type) : Type :=
| Resolved (data : A)
| Rejected (e : Exn).
Arguments Resolved {A} data.
Arguments Rejected {A} e.

(** ** The world outside the process *)

Inductive StoreOp : Type :=
| OpFindTokenSync                      (* findUnique in runEmailSync *)
| OpFindTokenAuth                      (* findUnique in getAuthenticatedClient *)
| OpUpdateCursor (c : string)          (* oAuthToken.update({lastHistoryId}) *)
| OpCreateEmail (d : EmailCreateInput) (* email.create *)
| OpCreateAttachment (emailId : nat) (filename : string). (* attachment.create *)

Record World : Type := mkWorld {
  (** a fault of the database server on an operation: the exception it throws *)
  store_fault : StoreOp -> option Exn;
  (** utils/encryption [decrypt] on the stored refresh secret (modelled in
      full in module [Encryption] below) *)
  cipher_decrypt : string -> option string;
  (** gmail.users.history.list({startHistoryId, historyTypes: ["messageAdded"]}) *)
  gmail_history_list : string -> Response ListHistoryResponse;
  (** gmail.users.messages.list: the n-th call of the cycle, with its page token *)
  gmail_messages_list : nat -> option string -> Response ListMessagesResponse;
  (** gmail.users.messages.get({id, format: "full"}) *)
  gmail_messages_get : string -> Response Message;
  (** gmail.users.messages.attachments.get({messageId, id}): [res.data.data] *)
  gmail_attachments_get : string -> string -> Response (option string);
  (** drive.files.create: [res.data] *)
  drive_files_create : string -> string -> string -> Response (option DriveFile);
  (** [decode(Buffer.from(body, "base64").toString("utf-8"))] *)
  decode_body : string -> string
}.

(** ** Traces *)

Inductive Call : Type :=
| HistoryList (startHistoryId : string)
| MessagesList (pageToken : option string)
| MessagesGet (id : string)
| AttachmentsGet (messageId attachmentId : string)
| DriveFilesCreate (filename mimeType : string).

Inductive Level : Type := LLog | LWarn | LError.

(** One constructor per console line of the sources that is traced.  The
    secondary detail lines (the API error payload, the stack excerpt) are not
    traced. *)
Inductive Msg : Type :=
(* jobs/syncGmail.ts *)
| SyncStarting
| SyncTokenReadFailed
| SyncNoToken
| SyncNoRefreshToken
| SyncCurrentHistoryId (c : option string)
| SyncNoNewMessages
| SyncHistoryAdvanced (c : string)
| SyncCompleted
| SyncFound (n : nat)
| SyncInvalidHeader
| SyncProcessing (id : string)
| SyncFetchReturnedNothing (id : string)
| SyncPipelineError (id : string) (e : Exn)
| SyncSummary (succeeded failed : nat)
| SyncCursorUpdated (c : string)
| SyncInitialSyncNote
| SyncFatal (e : Exn)
(* services/gmailService.ts *)
| ListAuthFailed
| ListFetchingHistory (c : string)
| ListFoundViaHistory (n : nat)
| ListFallback
| ListFallbackPage (page : nat) (token : option string)
| ListReachedMaxPages
| ListFallbackFetched (n : nat)
| ListError (e : Exn)
| GetNoMessageId
| GetAuthFailed (id : string)
| GetFetching (id : string)
| GetError (id : string) (e : Exn)
| GetNotFound (id : string)
| DlMissingArgs
| DlAuthFailed
| DlDownloading (attachmentId : string)
| DlError (attachmentId : string) (e : Exn)
| DlNotFound (attachmentId : string)
(* services/driveService.ts *)
| UpAuthFailed
| UpMissingDetails
| UpError (filename : string) (e : Exn)
(* auth/googleAuth.ts *)
| AuthDecryptFailed
(* models/emailModel.ts *)
| SaveDuplicate (gmailId : string)
| SaveFailed (gmailId : string) (e : Exn)
(* jobs/processEmail.ts *)
| ProcInvalidRaw
| ProcParseError (e : Exn)
| ProcSaveCritical (e : Exn)
| ProcNotSaved (gmailId : string)
| ProcSaved (emailId : nat)
| ProcNoPayload
| ProcFoundAttachments (n : nat)
| ProcMalformedPart (p : MessagePart)
| ProcDownloading (filename : string)
| ProcDownloadEmpty (filename : string)
| ProcUploading (filename : string)
| ProcUploadIncomplete (filename : string)
| ProcAttachmentDone (filename : string)
| ProcAttachmentError (filename : string) (e : Exn)
| ProcNoAttachments.

Inductive Event : Type :=
| Remote (c : Call)
| Console (l : Level) (m : Msg).

(** ** The monad of the asynchronous functions *)

Definition M (A : Type) : Type := DB -> (Exn + A) * DB * list Event.

Definition outcome {A} (r : (Exn + A) * DB * list Event) : Exn + A := fst (fst r).
Definition final {A} (r : (Exn + A) * DB * list Event) : DB := snd (fst r).
Definition trace {A} (r : (Exn + A) * DB * list Event) : list Event := snd r.

Definition ret {A} (a : A) : M A := fun db => (inr a, db, []).

Definition throw {A} (e : Exn) : M A := fun db => (inl e, db, []).

Definition bind {A B} (m : M A) (f : A -> M B) : M B :=
  fun db =>
    match m db with
    | (inr a, db1, t1) =>
        match f a db1 with
        | (r, db2, t2) => (r, db2, t1 ++ t2)
        end
    | (inl e, db1, t1) => (inl e, db1, t1)
    end.

(** [try { m } catch (e) { h e }]: the handler runs in the state the body
    left (nothing is rolled back). *)
Definition try_catch {A} (m : M A) (h : Exn -> M A) : M A :=
  fun db =>
    match m db with
    | (inl e, db1, t1) =>
        match h e db1 with
        | (r, db2, t2) => (r, db2, t1 ++ t2)
        end
    | ok => ok
    end.

Definition emit (ev : Event) : M unit := fun db => (inr tt, db, [ev]).
Definition console (l : Level) (m : Msg) : M unit := emit (Console l m).

(** [await remote(..)]: the call is traced, a rejection is thrown. *)
Definition await {A} (c : Call) (r : Response A) : M A :=
  fun db =>
    match r with
    | Resolved a => (inr a, db, [Remote c])
    | Rejected e => (inl e, db, [Remote c])
    end.

Definition get_db : M DB := fun db => (inr db, db, []).
Definition put_db (db' : DB) : M unit := fun _ => (inr tt, db', []).

Declare Scope M_scope.
Delimit Scope M_scope with M.
Notation "x <- m ;; k" := (bind m (fun x => k))
  (at level 61, m at next level, right associativity) : M_scope.
Notation "m ;; k" := (bind m (fun _ => k))
  (at level 61, right associativity) : M_scope.
Open Scope M_scope.

(** ** The store (Prisma client over PostgreSQL)

    Each operation first consults the world for a fault of the database
    server; otherwise it behaves as the schema says.  [Email] has unique
    indexes on [gmailId] and on [messageId]; the latter is nullable, and
    NULLs never collide. *)

Module Prisma.

Definition faulty {A} (w : World) (op : StoreOp) (k : M A) : M A :=
  match store_fault w op with
  | Some e => throw e
  | None => k
  end.

(** [prisma.oAuthToken.findUnique({ where: { id: 1 } })] *)
Definition oAuthToken_findUnique (w : World) (op : StoreOp) : M (option OAuthToken) :=
  faulty w op (db <- get_db ;; ret (oAuthToken db)).

Definition set_lastHistoryId (c : string) (t : OAuthToken) : OAuthToken :=
  mkOAuthToken (access t) (refresh t) (expiry t) (Some c).

(** [prisma.oAuthToken.update({ where: { id: 1 }, data: { lastHistoryId } })];
    P2025 is "record to update not found". *)
Definition oAuthToken_update_lastHistoryId (w : World) (c : string) : M unit :=
  faulty w (OpUpdateCursor c)
    (db <- get_db ;;
     match oAuthToken db with
     | None => throw (PrismaClientKnownRequestError "P2025")
     | Some t => put_db (mkDB (Some (set_lastHistoryId c t)) (emails db) (attachments db))
     end).

(** Two rows collide on a unique index. *)
Definition collides (d : EmailCreateInput) (e : Email) : bool :=
  String.eqb (in_gmailId d) (gmailId e)
  || match in_messageId d, messageId e with
     | Some m, Some m' => String.eqb m m'
     | _, _ => false
     end.

(** The serial primary key: no row is ever deleted, so the next key is one
    more than the number of rows. *)
Definition next_id {A} (rows : list A) : nat := S (length rows).

(** [prisma.email.create({ data })] *)
Definition email_create (w : World) (d : EmailCreateInput) : M Email :=
  faulty w (OpCreateEmail d)
    (db <- get_db ;;
     if existsb (collides d) (emails db)
     then throw (PrismaClientKnownRequestError "P2002")
     else
       let e := mkEmail (next_id (emails db)) d in
       put_db (mkDB (oAuthToken db) (emails db ++ [e]) (attachments db)) ;;
       ret e).

(** [prisma.attachment.create({ data })] *)
Definition attachment_create (w : World)
    (emailId : nat) (filename mimeType driveId driveUrl : string) : M Attachment :=
  faulty w (OpCreateAttachment emailId filename)
    (db <- get_db ;;
     let a := mkAttachment (next_id (attachments db)) filename mimeType driveId driveUrl emailId in
     put_db (mkDB (oAuthToken db) (emails db) (attachments db ++ [a])) ;;
     ret a).

End Prisma.

(** ** auth/googleAuth.ts *)

(** [getAuthenticatedClient]: reads the token row and decrypts the refresh
    secret; the client handle it returns is opaque.  (The client's "tokens"
    listener, which persists rotated access and refresh credentials, never
    writes [lastHistoryId] and is not part of a cycle's control flow.) *)
Definition getAuthenticatedClient (w : World) : M unit :=
  dbToken <- Prisma.oAuthToken_findUnique w OpFindTokenAuth ;;
  match dbToken with
  | None => throw (OtherError "OAuth token not found in database.")
  | Some t =>
      if negb (truthy (refresh t))
      then throw (OtherError "Refresh token is missing from the database.")
      else
        match cipher_decrypt w (refresh t) with
        | None =>
            console LError AuthDecryptFailed ;;
            throw (OtherError "Failed to decrypt refresh token.")
        | Some _ => ret tt
        end
  end.

(** ** services/gmailService.ts *)

Record ListNewEmailMessagesResult : Type := mkListResult {
  messages : list Message;
  historyId : option string
}.

Definition MAX_INITIAL_FETCH_PAGES : nat := 5.

(** The two nested [for] loops over [res.data.history]. *)
Definition collect_added (added : list HistoryMessageAdded) (collected : list Message)
  : list Message :=
  fold_left
    (fun acc messageAdded =>
       match added_message messageAdded with
       | Some m => acc ++ [m]
       | None => acc
       end)
    added collected.

Definition collect_history (history : list History) (collected : list Message)
  : list Message :=
  fold_left
    (fun acc historyRecord =>
       match messagesAdded historyRecord with
       | Some added => collect_added added acc
       | None => acc
       end)
    history collected.

(** The [do { .. } while (nextPageToken && currentPage < MAX_INITIAL_FETCH_PAGES)]
    loop of the fallback.  [budget] bounds the unfolding for the termination
    checker only: the loop condition is tested as the source writes it, and
    [fallback_pages_budget] below shows that a budget covering the pages left
    under the cap can be raised without changing the run. *)
Fixpoint fallback_pages (w : World) (budget : nat)
    (currentPage : nat) (nextPageToken : option string) (msgs : list Message)
  : M (list Message * option string * nat) :=
  let currentPage := S currentPage in
  console LLog (ListFallbackPage currentPage nextPageToken) ;;
  res <- await (MessagesList (or_undefined nextPageToken))
               (gmail_messages_list w currentPage (or_undefined nextPageToken)) ;;
  let msgs :=
    match mr_messages res with
    | Some ms => msgs ++ ms
    | None => msgs
    end in
  let nextPageToken := mr_nextPageToken res in
  if truthy_opt nextPageToken && (currentPage <? MAX_INITIAL_FETCH_PAGES)%nat
  then
    match budget with
    | S budget' => fallback_pages w budget' currentPage nextPageToken msgs
    | O => ret (msgs, nextPageToken, currentPage)
    end
  else ret (msgs, nextPageToken, currentPage).

Definition listNewEmailMessages (w : World) (startHistoryId : option string)
  : M ListNewEmailMessagesResult :=
  try_catch (getAuthenticatedClient w)
    (fun authError => console LError ListAuthFailed ;; throw authError) ;;
  try_catch
    (if truthy_opt startHistoryId
     then
       let start := match startHistoryId with Some s => s | None => "" end in
       console LLog (ListFetchingHistory start) ;;
       res <- await (HistoryList start) (gmail_history_list w start) ;;
       let collectedMessages :=
         match hr_history res with
         | Some history => collect_history history []
         | None => []
         end in
       (if (0 <? length collectedMessages)%nat
        then console LLog (ListFoundViaHistory (length collectedMessages))
        else ret tt) ;;
       ret (mkListResult collectedMessages (hr_historyId res))
     else
       console LWarn ListFallback ;;
       r <- fallback_pages w MAX_INITIAL_FETCH_PAGES 0 None [] ;;
       let '(msgs, nextPageToken, currentPage) := r in
       (if (MAX_INITIAL_FETCH_PAGES <=? currentPage)%nat && truthy_opt nextPageToken
        then console LWarn ListReachedMaxPages
        else ret tt) ;;
       console LLog (ListFallbackFetched (length msgs)) ;;
       ret (mkListResult msgs None))
    (fun error => console LError (ListError error) ;; throw error).

Definition getEmailContent (w : World) (messageId : string) : M (option Message) :=
  if negb (truthy messageId)
  then console LWarn GetNoMessageId ;; ret None
  else
    try_catch (getAuthenticatedClient w)
      (fun authError => console LError (GetAuthFailed messageId) ;; throw authError) ;;
    try_catch
      (console LLog (GetFetching messageId) ;;
       res <- await (MessagesGet messageId) (gmail_messages_get w messageId) ;;
       ret (Some res))
      (fun error =>
         console LError (GetError messageId error) ;;
         if is_not_found error
         then console LWarn (GetNotFound messageId) ;; ret None
         else throw error).

Definition downloadAttachment (w : World) (messageId attachmentId : string)
  : M (option string) :=
  if negb (truthy messageId) || negb (truthy attachmentId)
  then console LWarn DlMissingArgs ;; ret None
  else
    try_catch (getAuthenticatedClient w)
      (fun authError => console LError DlAuthFailed ;; throw authError) ;;
    try_catch
      (console LLog (DlDownloading attachmentId) ;;
       res <- await (AttachmentsGet messageId attachmentId)
                    (gmail_attachments_get w messageId attachmentId) ;;
       ret (or_undefined res))
      (fun error =>
         console LError (DlError attachmentId error) ;;
         if is_not_found error
         then console LWarn (DlNotFound attachmentId) ;; ret None
         else throw error).

(** ** services/driveService.ts *)

Definition uploadToDrive (w : World) (filename mimeType base64data : string)
  : M DriveFile :=
  if negb (truthy filename) || negb (truthy mimeType) || negb (truthy base64data)
  then throw (OtherError "uploadToDrive: Missing filename, mimeType, or base64data.")
  else
    try_catch (getAuthenticatedClient w)
      (fun authError => console LError UpAuthFailed ;; throw authError) ;;
    try_catch
      (res <- await (DriveFilesCreate filename mimeType)
                    (drive_files_create w filename mimeType base64data) ;;
       match res with
       | Some f =>
           if truthy_opt (file_id f) && truthy_opt (webViewLink f)
           then ret f
           else
             console LError UpMissingDetails ;;
             throw (OtherError "Google Drive API did not return expected file details (id, webViewLink).")
       | None =>
           console LError UpMissingDetails ;;
           throw (OtherError "Google Drive API did not return expected file details (id, webViewLink).")
       end)
      (fun error => console LError (UpError filename error) ;; throw error).

(** ** utils/emailParser.ts *)

(** [String.prototype.toLowerCase], on the ASCII letters header names are
    made of. *)
Definition lower_ascii (c : ascii) : ascii :=
  let n := nat_of_ascii c in
  if (65 <=? n)%nat && (n <=? 90)%nat then ascii_of_nat (n + 32) else c.

Fixpoint toLowerCase (s : string) : string :=
  match s with
  | EmptyString => EmptyString
  | String c rest => String (lower_ascii c) (toLowerCase rest)
  end.

(** [headers.find(h => h.name.toLowerCase() === name.toLowerCase())?.value] *)
Definition getHeader (headers : list MessagePartHeader) (name : string) : option string :=
  match find (fun header => String.eqb (toLowerCase (h_name header)) (toLowerCase name)) headers with
  | Some header => h_value header
  | None => None
  end.

Definition is_text_part (part : MessagePart) : bool :=
  match part_mimeType part with
  | Some m => String.eqb m "text/html" || String.eqb m "text/plain"
  | None => false
  end.

(** The non-null assertion [x!] (and the uses of a value already tested
    truthy). *)
Definition the (o : option string) : string :=
  match o with
  | Some s => s
  | None => ""
  end.

(** [parseEmailContent]: throws a [TypeError] when the payload or its headers
    are missing. *)
Definition parseEmailContent (w : World) (rawPayload : Message) : M EmailCreateInput :=
  match msg_payload rawPayload with
  | None => throw (OtherError "TypeError: Cannot read properties of undefined (reading 'headers')")
  | Some payload =>
      match part_headers payload with
      | None => throw (OtherError "TypeError: Cannot read properties of undefined (reading 'find')")
      | Some headers =>
          let parts := match part_parts payload with Some ps => ps | None => [] end in
          let bodyPart := find is_text_part parts in
          let body :=
            match bodyPart with
            | Some p =>
                match part_body p with
                | Some b => the (or_undefined (body_data b))
                | None => ""
                end
            | None => ""
            end in
          let body := if truthy body then decode_body w body else body in
          ret (mkEmailInput
                 (the (msg_id rawPayload))
                 (msg_threadId rawPayload)
                 (getHeader headers "Subject")
                 (getHeader headers "From")
                 (getHeader headers "To")
                 (getHeader headers "Cc")
                 (getHeader headers "Bcc")
                 (getHeader headers "Message-ID")
                 (getHeader headers "In-Reply-To")
                 (getHeader headers "References")
                 (msg_internalDate rawPayload)
                 body)
      end
  end.

(** ** models/emailModel.ts *)

Definition saveEmail (w : World) (parsedEmailData : EmailCreateInput) : M (option Email) :=
  try_catch
    (email <- Prisma.email_create w parsedEmailData ;;
     ret (Some email))
    (fun error =>
       if is_unique_violation error
       then
         console LLog (SaveDuplicate (in_gmailId parsedEmailData)) ;;
         ret None
       else
         console LError (SaveFailed (in_gmailId parsedEmailData) error) ;;
         ret None).

(** ** jobs/processEmail.ts *)

(** [part.filename && part.filename.length > 0 && part.body?.attachmentId] *)
Definition qualifies (part : MessagePart) : bool :=
  truthy_opt (part_filename part)
  && (0 <? String.length (the (part_filename part)))%nat
  && truthy_opt (part_attachmentId part).

(** [findAttachments(parts, collected)]: [collected] is the array the source
    pushes to and hands down to the recursive calls. *)
Fixpoint findAttachments_part (part : MessagePart) (collected : list MessagePart)
  {struct part} : list MessagePart :=
  let collected := if qualifies part then collected ++ [part] else collected in
  match part with
  | Part _ _ _ _ (Some nested) =>
      (fix walk (ps : list MessagePart) (collected : list MessagePart) : list MessagePart :=
         match ps with
         | [] => collected
         | p :: rest => walk rest (findAttachments_part p collected)
         end) nested collected
  | Part _ _ _ _ None => collected
  end.

Fixpoint findAttachments (parts : list MessagePart) (collected : list MessagePart)
  : list MessagePart :=
  match parts with
  | [] => collected
  | part :: rest => findAttachments rest (findAttachments_part part collected)
  end.

(** The body of the [for (const part of attachmentsToProcess)] loop. *)
Definition processAttachment (w : World) (rawId : string) (savedEmail : Email)
    (part : MessagePart) : M unit :=
  if negb (truthy_opt (part_attachmentId part))
     || negb (truthy_opt (part_filename part))
     || negb (truthy_opt (part_mimeType part))
  then console LWarn (ProcMalformedPart part)
  else
    let attachmentFilename := the (part_filename part) in
    try_catch
      (console LLog (ProcDownloading attachmentFilename) ;;
       base64data <- downloadAttachment w rawId (the (part_attachmentId part)) ;;
       if negb (truthy_opt base64data)
       then console LError (ProcDownloadEmpty attachmentFilename)
       else
         console LLog (ProcUploading attachmentFilename) ;;
         uploadedFile <- uploadToDrive w attachmentFilename
                                       (the (part_mimeType part)) (the base64data) ;;
         if negb (truthy_opt (file_id uploadedFile))
            || negb (truthy_opt (webViewLink uploadedFile))
         then console LError (ProcUploadIncomplete attachmentFilename)
         else
           Prisma.attachment_create w (email_id savedEmail) attachmentFilename
             (the (part_mimeType part))
             (the (file_id uploadedFile)) (the (webViewLink uploadedFile)) ;;
           console LLog (ProcAttachmentDone attachmentFilename))
      (fun attachmentError =>
         console LError (ProcAttachmentError attachmentFilename attachmentError)).

Fixpoint processAttachments (w : World) (rawId : string) (savedEmail : Email)
    (attachmentsToProcess : list MessagePart) : M unit :=
  match attachmentsToProcess with
  | [] => ret tt
  | part :: rest =>
      processAttachment w rawId savedEmail part ;;
      processAttachments w rawId savedEmail rest
  end.

(** [processAndSaveEmail] from the point where the item is stored: the
    attachment pipeline. *)
Definition processStoredEmail (w : World) (rawEmail : Message) (savedEmail : Email)
  : M unit :=
  console LLog (ProcSaved (email_id savedEmail)) ;;
  match msg_payload rawEmail with
  | None => console LWarn ProcNoPayload
  | Some payload =>
      let attachmentsToProcess :=
        findAttachments
          (match part_parts payload with Some ps => ps | None => [] end) [] in
      if (0 <? length attachmentsToProcess)%nat
      then
        console LLog (ProcFoundAttachments (length attachmentsToProcess)) ;;
        processAttachments w (the (msg_id rawEmail)) savedEmail attachmentsToProcess
      else console LLog ProcNoAttachments
  end.

Definition processAndSaveEmail (w : World) (rawEmail : Message) : M unit :=
  if negb (truthy_opt (msg_id rawEmail))
  then console LWarn ProcInvalidRaw
  else
    parsed <- try_catch
                (d <- parseEmailContent w rawEmail ;; ret (Some d))
                (fun error => console LError (ProcParseError error) ;; ret None) ;;
    match parsed with
    | None => ret tt
    | Some parsedEmailData =>
        saved <- try_catch
                   (saveEmail w parsedEmailData)
                   (fun error => console LError (ProcSaveCritical error) ;; ret None) ;;
        match saved with
        | None => console LLog (ProcNotSaved (in_gmailId parsedEmailData))
        | Some savedEmail => processStoredEmail w rawEmail savedEmail
        end
    end.

(** ** jobs/syncGmail.ts *)

(** The [for (const messageHeader of messageHeaders)] loop with its two
    counters; what the loop body yields is which counter it incremented. *)
Definition processHeader (w : World) (messageHeader : Message) : M bool :=
  if negb (truthy_opt (msg_id messageHeader))
  then console LWarn SyncInvalidHeader ;; ret false
  else
    let gmailMessageId := the (msg_id messageHeader) in
    try_catch
      (console LLog (SyncProcessing gmailMessageId) ;;
       fullEmail <- getEmailContent w gmailMessageId ;;
       match fullEmail with
       | None =>
           console LError (SyncFetchReturnedNothing gmailMessageId) ;;
           ret false
       | Some fullEmail =>
           processAndSaveEmail w fullEmail ;;
           ret true
       end)
      (fun emailProcessingError =>
         console LError (SyncPipelineError gmailMessageId emailProcessingError) ;;
         ret false).

Fixpoint processBatch (w : World) (messageHeaders : list Message)
    (successfullyProcessedCount failedProcessingCount : nat) : M (nat * nat) :=
  match messageHeaders with
  | [] => ret (successfullyProcessedCount, failedProcessingCount)
  | messageHeader :: rest =>
      ok <- processHeader w messageHeader ;;
      if ok
      then processBatch w rest (S successfullyProcessedCount) failedProcessingCount
      else processBatch w rest successfullyProcessedCount (S failedProcessingCount)
  end.

Definition runEmailSync (w : World) : M unit :=
  console LLog SyncStarting ;;
  read <- try_catch
            (t <- Prisma.oAuthToken_findUnique w OpFindTokenSync ;; ret (Some t))
            (fun dbError => console LError SyncTokenReadFailed ;; ret None) ;;
  match read with
  | None => ret tt
  | Some None => console LError SyncNoToken
  | Some (Some tokenRecord) =>
      if negb (truthy (refresh tokenRecord))
      then console LError SyncNoRefreshToken
      else
        let currentHistoryId := lastHistoryId tokenRecord in
        console LLog (SyncCurrentHistoryId currentHistoryId) ;;
        try_catch
          (res <- listNewEmailMessages w (or_undefined currentHistoryId) ;;
           let messageHeaders := messages res in
           let newHistoryId := historyId res in
           if (length messageHeaders =? 0)%nat
           then
             console LLog SyncNoNewMessages ;;
             (if truthy_opt newHistoryId && strict_neq newHistoryId currentHistoryId
              then
                Prisma.oAuthToken_update_lastHistoryId w (the newHistoryId) ;;
                console LLog (SyncHistoryAdvanced (the newHistoryId))
              else ret tt) ;;
             console LLog SyncCompleted
           else
             console LLog (SyncFound (length messageHeaders)) ;;
             counts <- processBatch w messageHeaders 0 0 ;;
             console LLog (SyncSummary (fst counts) (snd counts)) ;;
             (if truthy_opt newHistoryId
              then
                Prisma.oAuthToken_update_lastHistoryId w (the newHistoryId) ;;
                console LLog (SyncCursorUpdated (the newHistoryId))
              else
                if (0 <? length messageHeaders)%nat && negb (truthy_opt currentHistoryId)
                then console LWarn SyncInitialSyncNote
                else ret tt) ;;
             console LLog SyncCompleted)
          (fun fatalSyncError => console LError (SyncFatal fatalSyncError))
  end.


(** ** utils/encryption.ts

    The secret cipher: AES-256 in CBC mode with the key and the IV read from
    the environment when the module is loaded.  Buffers are lists of bytes
    ([ascii]); a JavaScript string stands for its UTF-8 bytes, so the "utf8"
    input and output encodings are the passage between [string] and
    [list ascii].  The block cipher itself (OpenSSL's AES) is a parameter:
    what the module adds to it is the mode, the padding and the encodings.
    The console line of [decrypt]'s handler is not traced. *)

Module Encryption.

Definition bytes : Type := list ascii.

Definition BLOCK : nat := 16.
Definition KEY_LENGTH : nat := 32.

(** *** Buffer encodings *)

Definition hex_char (d : nat) : ascii :=
  if (d <? 10)%nat then ascii_of_nat (48 + d) else ascii_of_nat (87 + d).

Definition hex_digit (c : ascii) : option nat :=
  let n := nat_of_ascii c in
  if (48 <=? n)%nat && (n <=? 57)%nat then Some (n - 48)
  else if (97 <=? n)%nat && (n <=? 102)%nat then Some (n - 87)
  else if (65 <=? n)%nat && (n <=? 70)%nat then Some (n - 55)
  else None.

(** [buffer.toString("hex")] *)
Fixpoint hex_of_bytes (bs : bytes) : string :=
  match bs with
  | [] => EmptyString
  | b :: rest =>
      String (hex_char (nat_of_ascii b / 16))
        (String (hex_char (nat_of_ascii b mod 16)) (hex_of_bytes rest))
  end.

(** [Buffer.from(s, "hex")]: decodes pairs of hex digits and stops at the
    first pair that is not one. *)
Fixpoint bytes_of_hex (s : string) : bytes :=
  match s with
  | String a (String b rest) =>
      match hex_digit a, hex_digit b with
      | Some x, Some y => ascii_of_nat (16 * x + y) :: bytes_of_hex rest
      | _, _ => []
      end
  | _ => []
  end.

Definition utf8_encode (s : string) : bytes := list_ascii_of_string s.
Definition utf8_decode (bs : bytes) : string := string_of_list_ascii bs.

(** *** CBC mode with PKCS#7 padding *)

Definition xor_ascii (a b : ascii) : ascii :=
  match a, b with
  | Ascii a0 a1 a2 a3 a4 a5 a6 a7, Ascii b0 b1 b2 b3 b4 b5 b6 b7 =>
      Ascii (xorb a0 b0) (xorb a1 b1) (xorb a2 b2) (xorb a3 b3)
            (xorb a4 b4) (xorb a5 b5) (xorb a6 b6) (xorb a7 b7)
  end.

Fixpoint xor_bytes (x y : bytes) : bytes :=
  match x, y with
  | a :: x', b :: y' => xor_ascii a b :: xor_bytes x' y'
  | _, _ => []
  end.

(** The padding always adds between 1 and 16 bytes, each equal to their
    number. *)
Definition pkcs7_pad (bs : bytes) : bytes :=
  let n := BLOCK - length bs mod BLOCK in
  bs ++ repeat (ascii_of_nat n) n.

Fixpoint last_byte (bs : bytes) : option ascii :=
  match bs with
  | [] => None
  | [b] => Some b
  | _ :: rest => last_byte rest
  end.

(** Fails ("bad decrypt") unless the last byte is some n from 1 to 16 and
    the last n bytes all equal it. *)
Definition pkcs7_unpad (bs : bytes) : option bytes :=
  match last_byte bs with
  | None => None
  | Some c =>
      let n := nat_of_ascii c in
      if (1 <=? n)%nat && (n <=? BLOCK)%nat && (n <=? length bs)%nat
         && forallb (Ascii.eqb c) (skipn (length bs - n) bs)
      then Some (firstn (length bs - n) bs)
      else None
  end.

Section Cipher.

(** AES on one block: [aes_encrypt_block key block]. *)
Variables aes_encrypt_block aes_decrypt_block : bytes -> bytes -> bytes.

(** [n] blocks of [pt], each xored with the cipher block before it (the IV
    for the first) and encrypted. *)
Fixpoint cbc_encrypt (key : bytes) (n : nat) (prev pt : bytes) : bytes :=
  match n with
  | O => []
  | S n' =>
      let c := aes_encrypt_block key (xor_bytes (firstn BLOCK pt) prev) in
      c ++ cbc_encrypt key n' c (skipn BLOCK pt)
  end.

Fixpoint cbc_decrypt (key : bytes) (n : nat) (prev ct : bytes) : bytes :=
  match n with
  | O => []
  | S n' =>
      let c := firstn BLOCK ct in
      xor_bytes (aes_decrypt_block key c) prev ++ cbc_decrypt key n' c (skipn BLOCK ct)
  end.

(** *** The module *)

Record Env : Type := mkEnv {
  ENCRYPTION_KEY : option string;
  ENCRYPTION_IV : option string
}.

(** The module-level constants [key] and [iv]. *)
Record Keys : Type := mkKeys {
  key : bytes;
  iv : bytes
}.

(** Loading the module: the two checks on the environment, then the two
    [Buffer.from(.., "hex")]. *)
Definition load (env : Env) : Exn + Keys :=
  match ENCRYPTION_KEY env with
  | Some k =>
      if truthy k && (String.length k =? 64)%nat
      then
        match ENCRYPTION_IV env with
        | Some i =>
            if truthy i && (String.length i =? 32)%nat
            then inr (mkKeys (bytes_of_hex k) (bytes_of_hex i))
            else inl (OtherError "ENCRYPTION_IV is missing or not 16 bytes (32 hex characters).")
        | None => inl (OtherError "ENCRYPTION_IV is missing or not 16 bytes (32 hex characters).")
        end
      else inl (OtherError "ENCRYPTION_KEY is missing or not 32 bytes (64 hex characters).")
  | None => inl (OtherError "ENCRYPTION_KEY is missing or not 32 bytes (64 hex characters).")
  end.

(** [crypto.createCipheriv("aes-256-cbc", key, iv)] and [createDecipheriv]
    check the sizes of the two buffers. *)
Definition createCipheriv (m : Keys) : Exn + unit :=
  if negb (length (key m) =? KEY_LENGTH)%nat then inl (OtherError "Invalid key length")
  else if negb (length (iv m) =? BLOCK)%nat then inl (OtherError "Invalid initialization vector")
  else inr tt.

Definition encrypt (m : Keys) (text : string) : Exn + string :=
  match createCipheriv m with
  | inl e => inl e
  | inr _ =>
      let padded := pkcs7_pad (utf8_encode text) in
      inr (hex_of_bytes (cbc_encrypt (key m) (length padded / BLOCK) (iv m) padded))
  end.

Definition decrypt_failed : Exn :=
  OtherError "Failed to decrypt token. Re-authentication may be required.".

Definition decrypt (m : Keys) (encryptedText : string) : Exn + string :=
  match createCipheriv m with
  | inl _ => inl decrypt_failed
  | inr _ =>
      let ct := bytes_of_hex encryptedText in
      if (length ct =? 0)%nat || negb (length ct mod BLOCK =? 0)%nat
      then inl decrypt_failed
      else
        match pkcs7_unpad (cbc_decrypt (key m) (length ct / BLOCK) (iv m) ct) with
        | Some bs => inr (utf8_decode bs)
        | None => inl decrypt_failed
        end
  end.

End Cipher.

(** Every character is a hexadecimal digit. *)
Fixpoint all_hex (s : string) : bool :=
  match s with
  | EmptyString => true
  | String c rest =>
      match hex_digit c with
      | Some _ => all_hex rest
      | None => false
      end
  end.

End Encryption.

(** * Notions used in the statements *)

(** [m] leaves the component [f] of the database as it found it. *)
Definition preserves {S A} (f : DB -> S) (m : M A) : Prop :=
  forall db, f (final (m db)) = f db.

(** The whole database: [preserves whole m] says [m] only reads. *)
Definition whole (db : DB) : DB := db.

(** [m] never throws. *)
Definition no_throw {A} (m : M A) : Prop :=
  forall db, exists a, outcome (m db) = inr a.

(** What the listing call of a cycle started in [db] returns. *)
Definition listing (w : World) (db : DB) : Exn + ListNewEmailMessagesResult :=
  outcome (listNewEmailMessages w (or_undefined (cursor db)) db).

(** A sequence of cycles, each against its own world, one after the other
    (cycles do not overlap). *)
Fixpoint run_cycles (ws : list World) (db : DB) : DB :=
  match ws with
  | [] => db
  | w :: rest => run_cycles rest (final (runEmailSync w db))
  end.

(** The statement of cursor monotonicity for one cycle. *)
Definition cursor_step (w : World) (db db' : DB) : Prop :=
  (cursor db' = cursor db \/
   exists res c, listing w db = inr res /\ historyId res = Some c /\ cursor db' = Some c)
  /\ (forall e, listing w db = inl e -> oAuthToken db' = oAuthToken db).

(** The unique indexes of the [Email] table hold of a list of rows: no
    [gmailId] and no non-null [messageId] occurs twice. *)
Definition present_messageIds (rows : list Email) : list string :=
  flat_map (fun e => match messageId e with Some m => [m] | None => [] end) rows.

Definition unique_rows (rows : list Email) : Prop :=
  NoDup (map gmailId rows) /\ NoDup (present_messageIds rows).

(** Two inputs are the same item for the store: same [gmailId], or same
    non-null [messageId]. *)
Definition same_item (d1 d2 : EmailCreateInput) : Prop :=
  in_gmailId d1 = in_gmailId d2 \/
  exists m, in_messageId d1 = Some m /\ in_messageId d2 = Some m.

(** The console line [saveEmail] prints when [email.create] throws [e]. *)
Definition save_error_line (d : EmailCreateInput) (e : Exn) : Event :=
  if is_unique_violation e
  then Console LLog (SaveDuplicate (in_gmailId d))
  else Console LError (SaveFailed (in_gmailId d) e).

(** Every part of a part tree, in document order: a part, then the parts
    nested in it. *)
Fixpoint flatten (part : MessagePart) : list MessagePart :=
  part ::
  match part with
  | Part _ _ _ _ (Some nested) =>
      (fix go (ps : list MessagePart) : list MessagePart :=
         match ps with
         | [] => []
         | p :: rest => flatten p ++ go rest
         end) nested
  | Part _ _ _ _ None => []
  end.

Definition all_parts (parts : list MessagePart) : list MessagePart :=
  flat_map flatten parts.

(** Header [h] goes through the pipeline up to the insert without a failure:
    it has an id, Gmail returns the message, the message parses into [d], and
    the database server accepts to insert [d]. *)
Definition fetches (w : World) (h : Message) (d : EmailCreateInput) : Prop :=
  exists id raw,
    msg_id h = Some id /\ id <> "" /\
    gmail_messages_get w id = Resolved raw /\
    truthy_opt (msg_id raw) = true /\
    (forall db, outcome (parseEmailContent w raw db) = inr d) /\
    store_fault w (OpCreateEmail d) = None.

(** The rows that inserting [ds] one after the other creates, the first
    with key [n]. *)
Fixpoint rows_from (n : nat) (ds : list EmailCreateInput) : list Email :=
  match ds with
  | [] => []
  | d :: rest => mkEmail n d :: rows_from (S n) rest
  end.

(** The number of [messages.list] calls in a trace. *)
Definition is_messages_list (ev : Event) : bool :=
  match ev with
  | Remote (MessagesList _) => true
  | _ => false
  end.

Definition pages_fetched (tr : list Event) : nat := length (filter is_messages_list tr).

(** The [nextPageToken] that page [n] of the fallback listing reports, when
    pages 1 to [n] are asked in turn, each with the token of the one before
    (nothing for the first). *)
Fixpoint page_token (w : World) (n : nat) : option string :=
  match n with
  | O => None
  | S k =>
      match gmail_messages_list w (S k) (or_undefined (page_token w k)) with
      | Resolved res => mr_nextPageToken res
      | Rejected _ => None
      end
  end.

(** Each of the pages 1 to [n] reports that more pages remain. *)
Definition more_pages_remain (w : World) (n : nat) : bool :=
  forallb (fun k => truthy_opt (page_token w k)) (seq 1 n).

(** Induction on part trees. *)
Section PartInduction.

Variable P : MessagePart -> Prop.
Hypothesis Hleaf : forall f m h b, P (Part f m h b None).
Hypothesis Hnode : forall f m h b ps, Forall P ps -> P (Part f m h b (Some ps)).

Fixpoint MessagePart_tree_ind (p : MessagePart) : P p :=
  match p with
  | Part f m h b None => @Hleaf f m h b
  | Part f m h b (Some ps) =>
      @Hnode f m h b ps
        ((fix go (l : list MessagePart) : Forall P l :=
            match l with
            | [] => Forall_nil P
            | q :: r => Forall_cons q (MessagePart_tree_ind q) (go r)
            end) ps)
  end.

End PartInduction.

(** * Sample worlds and databases *)

Module Sample.

Definition stub (id : string) : Message := mkMessage (Some id) (Some "thread") None None.

(** A message with a [Message-ID] header and the given parts. *)
Definition full (id : string) (mid : string) (ps : list MessagePart) : Message :=
  mkMessage (Some id) (Some "thread") (Some 1700000000000%Z)
    (Some (Part None (Some "multipart/mixed")
                (Some [mkHeader "Subject" (Some "hello"); mkHeader "Message-Id" (Some mid)])
                None (Some ps))).

Definition token (c : option string) : OAuthToken :=
  mkOAuthToken "access" "0a1b2c" 1700000000000%Z c.

Definition db (c : option string) : DB := mkDB (Some (token c)) [] [].

Definition backend_down : Exn := GoogleApiError 500 "Backend Error".
Definition gone : Exn := GoogleApiError 404 "Requested entity was not found.".

(** The history since the stored cursor adds the given ids; the new cursor
    is [next]. *)
Definition history (ids : list string) (next : string) : Response ListHistoryResponse :=
  Resolved (mkHistoryResp
              (Some [mkHistory (Some (map (fun i => mkAdded (Some (stub i))) ids))])
              (Some next)).

(** A world where Gmail lists [ids] with cursor [next] and answers each
    [messages.get] as [get] says; the store has no faults. *)
Definition world (ids : list string) (next : string)
    (get : string -> Response Message) : World :=
  mkWorld
    (fun _ => None)
    (fun s => Some s)
    (fun _ => history ids next)
    (fun _ _ => Resolved (mkMessagesResp None None))
    get
    (fun _ _ => Rejected gone)
    (fun _ _ _ => Rejected backend_down)
    (fun s => s).

(** Every fetch fails. *)
Definition all_fail : World := world ["m1"; "m2"] "H101" (fun _ => Rejected backend_down).

(** The scenario of the specification: fetch of m1 succeeds, fetch of m2
    throws. *)
Definition m1_ok_m2_throws : World :=
  world ["m1"; "m2"] "H101"
    (fun id => if String.eqb id "m1" then Resolved (full "m1" "<1@x>" [])
               else Rejected backend_down).

(** The database server is unreachable when the item is inserted. *)
Definition server_down : Exn := OtherError "Can't reach database server".

Definition insert_fails : World :=
  mkWorld
    (fun op => match op with OpCreateEmail _ => Some server_down | _ => None end)
    (fun s => Some s)
    (fun _ => history ["m1"] "H101")
    (fun _ _ => Resolved (mkMessagesResp None None))
    (fun _ => Resolved (full "m1" "<1@x>" []))
    (fun _ _ => Rejected gone)
    (fun _ _ _ => Rejected backend_down)
    (fun s => s).

(** What [parseEmailContent] makes of [full id mid ps] when no part is text. *)
Definition parsed (id mid : string) : EmailCreateInput :=
  mkEmailInput id (Some "thread") (Some "hello") None None None None (Some mid)
               None None (Some 1700000000000%Z) "".

(** A part that is an attachment to fetch, and one whose content is inlined. *)
Definition file_part (name mime ref : string) : MessagePart :=
  Part (Some name) (Some mime) None (Some (mkBody (Some ref) None)) None.

Definition inline_part (name : string) : MessagePart :=
  Part (Some name) (Some "text/plain") None (Some (mkBody None (Some "aGVsbG8="))) None.

(** m1 carries two attachments, one of them nested; Gmail serves both, Drive
    refuses the upload of "b.png" and accepts the other. *)
Definition m1_two_files : Message :=
  full "m1" "<1@x>"
    [inline_part "note.txt";
     file_part "b.png" "image/png" "att-b";
     Part None (Some "multipart/mixed") None None
          (Some [file_part "a.pdf" "application/pdf" "att-a"])].

Definition upload_of_b_fails : World :=
  mkWorld
    (fun _ => None)
    (fun s => Some s)
    (fun _ => history ["m1"] "H101")
    (fun _ _ => Resolved (mkMessagesResp None None))
    (fun _ => Resolved m1_two_files)
    (fun _ _ => Resolved (Some "QUJD"))
    (fun name _ _ =>
       if String.eqb name "b.png" then Rejected backend_down
       else Resolved (Some (mkDriveFile (Some "F1") (Some "https://drive.example/F1"))))
    (fun s => s).

(** No cursor yet: the recent messages come in two pages, m1 and m2, then m3. *)
Definition two_pages : World :=
  mkWorld
    (fun _ => None)
    (fun s => Some s)
    (fun _ => Rejected backend_down)
    (fun _ token =>
       match token with
       | None => Resolved (mkMessagesResp (Some [stub "m1"; stub "m2"]) (Some "p2"))
       | Some _ => Resolved (mkMessagesResp (Some [stub "m3"]) None)
       end)
    (fun _ => Rejected backend_down)
    (fun _ _ => Rejected gone)
    (fun _ _ _ => Rejected backend_down)
    (fun s => s).

(** Every page of the listing reports a further page. *)
Definition endless : World :=
  mkWorld
    (fun _ => None)
    (fun s => Some s)
    (fun _ => Rejected backend_down)
    (fun _ _ => Resolved (mkMessagesResp (Some [stub "m"]) (Some "more")))
    (fun _ => Rejected backend_down)
    (fun _ _ => Rejected gone)
    (fun _ _ _ => Rejected backend_down)
    (fun s => s).

(** The listed message has vanished by the time it is fetched. *)
Definition vanished : World := world ["m1"] "H101" (fun _ => Rejected gone).

(** The cipher module's environment: an all-zero key and IV, and a stand-in
    for AES that reverses the block (its own inverse). *)
Definition key_hex : string :=
  "0000000000000000000000000000000000000000000000000000000000000000".
Definition iv_hex : string := "00000000000000000000000000000000".

Definition env : Encryption.Env := Encryption.mkEnv (Some key_hex) (Some iv_hex).

Definition keys : Encryption.Keys :=
  Encryption.mkKeys (repeat zero 32) (repeat zero 16).

Definition toy_block (key block : Encryption.bytes) : Encryption.bytes := rev block.

End Sample.

(** * The authorization handshake and credential rotation

    controllers/oauthController.ts [handleOAuthCallback] and the "tokens"
    listener that auth/googleAuth.ts [createOAuth2Client] attaches to every
    client.  Both write the token row.  Their console lines are not traced;
    the HTTP response of the handler is its result.  The listener is an
    asynchronous function that nothing awaits: it is a step of its own
    ([Rotation] below), whatever call of the Google client made the event
    fire. *)

Module OAuth.

(** [expiry_date?: number | null] *)
Inductive Millis : Type :=
| Number (n : Z)
| Null
| Undefined.

(** [Auth.Credentials] *)
Record Credentials : Type := mkCredentials {
  access_token : option string;
  refresh_token : option string;
  expiry_date : Millis
}.

(** [if (tokens.expiry_date)]: 0, null and undefined are falsy. *)
Definition truthy_num (x : Millis) : bool :=
  match x with
  | Number n => negb (Z.eqb n 0)
  | Null => false
  | Undefined => false
  end.

(** [new Date(x)]: the time value, or [None] for an Invalid Date
    ([new Date(undefined)], or a number out of the range of dates). *)
Definition new_Date (x : Millis) : option Z :=
  match x with
  | Number n => if (Z.abs n <=? 8640000000000000)%Z then Some n else None
  | Null => Some 0%Z
  | Undefined => None
  end.

Inductive TokenOp : Type :=
| OpFind        (* findUnique in handleOAuthCallback *)
| OpUpdate      (* update in handleOAuthCallback *)
| OpCreate      (* create in handleOAuthCallback *)
| OpRotate.     (* update in the "tokens" listener *)

(** What the two functions depend on: the code exchange with Google
    ([getTokensFromCode]: [baseOAuth2Client.getToken(code)], whose tokens are
    also set on that client and returned), utils/encryption [encrypt], and
    the faults of the database server. *)
Record Deps : Type := mkDeps {
  getTokensFromCode : string -> Response Credentials;
  encrypt : string -> Exn + string;
  token_fault : TokenOp -> option Exn
}.

(** The [data] of a [prisma.oAuthToken.update]: the fields that are set; a
    date is what [new_Date] made. *)
Record TokenUpdate : Type := mkTokenUpdate {
  set_access : option string;
  set_refresh : option string;
  set_expiry : option (option Z)
}.

Definition invalid_date : Exn := OtherError "Invalid value for argument `expiry`: Provided Date object is invalid.".

Definition apply_update (u : TokenUpdate) (t : OAuthToken) : OAuthToken :=
  mkOAuthToken
    (match set_access u with Some a => a | None => access t end)
    (match set_refresh u with Some r => r | None => refresh t end)
    (match set_expiry u with Some (Some z) => z | _ => expiry t end)
    (lastHistoryId t).

(** [prisma.oAuthToken.update({ where: { id: 1 }, data })]: the client
    validates the data (an Invalid Date is refused), then the server is
    asked; P2025 is "record to update not found". *)
Definition oAuthToken_update (deps : Deps) (op : TokenOp) (u : TokenUpdate) : M unit :=
  match set_expiry u with
  | Some None => throw invalid_date
  | _ =>
      match token_fault deps op with
      | Some e => throw e
      | None =>
          db <- get_db ;;
          match oAuthToken db with
          | None => throw (PrismaClientKnownRequestError "P2025")
          | Some t => put_db (mkDB (Some (apply_update u t)) (emails db) (attachments db))
          end
      end
  end.

(** [prisma.oAuthToken.create({ data: { id: 1, access, refresh, expiry,
    lastHistoryId: null } })]; P2002 is the violation of the primary key. *)
Definition oAuthToken_create (deps : Deps) (a r : string) (e : option Z) : M unit :=
  match e with
  | None => throw invalid_date
  | Some z =>
      match token_fault deps OpCreate with
      | Some x => throw x
      | None =>
          db <- get_db ;;
          match oAuthToken db with
          | Some _ => throw (PrismaClientKnownRequestError "P2002")
          | None => put_db (mkDB (Some (mkOAuthToken a r z None)) (emails db) (attachments db))
          end
      end
  end.

Definition oAuthToken_findUnique (deps : Deps) : M (option OAuthToken) :=
  match token_fault deps OpFind with
  | Some e => throw e
  | None => db <- get_db ;; ret (oAuthToken db)
  end.

(** A remote call or a library call that may throw, not traced. *)
Definition call {A} (r : Response A) : M A :=
  match r with
  | Resolved a => ret a
  | Rejected e => throw e
  end.

Definition result {A} (r : Exn + A) : M A :=
  match r with
  | inr a => ret a
  | inl e => throw e
  end.

(** What the handler sends: the status and which of its messages. *)
Inductive Reply : Type :=
| MissingCode            (* 400 "Missing authorization code parameter from Google." *)
| NoAccessToken          (* 500 "Failed to retrieve access token from Google." *)
| NoRefreshToken         (* 400 "Failed to obtain a refresh token during initial authorization. .." *)
| Authenticated          (* 200 "Authentication successful. Tokens stored. .." *)
| Failed (e : Exn).      (* 500 "OAuth callback .. failed .." *)

Definition status (r : Reply) : nat :=
  match r with
  | MissingCode => 400
  | NoAccessToken => 500
  | NoRefreshToken => 400
  | Authenticated => 200
  | Failed _ => 500
  end.

(** [handleOAuthCallback]: [code] is [req.query.code]. *)
Definition handleOAuthCallback (deps : Deps) (code : option string) : M Reply :=
  if negb (truthy_opt code)
  then ret MissingCode
  else
    try_catch
      (tokens <- call (getTokensFromCode deps (the code)) ;;
       if negb (truthy_opt (access_token tokens))
       then ret NoAccessToken
       else
         dataToStore_refresh <-
           (if truthy_opt (refresh_token tokens)
            then
              c <- result (encrypt deps (the (refresh_token tokens))) ;;
              ret (Some c)
            else ret None) ;;
         existingToken <- oAuthToken_findUnique deps ;;
         match existingToken with
         | Some _ =>
             oAuthToken_update deps OpUpdate
               (mkTokenUpdate
                  (Some (the (access_token tokens)))
                  (or_undefined dataToStore_refresh)
                  (Some (new_Date (expiry_date tokens)))) ;;
             ret Authenticated
         | None =>
             if negb (truthy_opt dataToStore_refresh)
             then ret NoRefreshToken
             else
               oAuthToken_create deps
                 (the (access_token tokens)) (the dataToStore_refresh)
                 (new_Date (expiry_date tokens)) ;;
               ret Authenticated
         end)
      (fun error => ret (Failed error)).

(** The listener [oAuth2Client.on("tokens", ..)]: [updateData] gets the
    access token and its expiry when both came, and the encrypted refresh
    token when one came; the row is updated when [updateData] has a key. *)
Definition onTokens (deps : Deps) (tokens : Credentials) : M unit :=
  try_catch
    (let with_access :=
       truthy_opt (access_token tokens) && truthy_num (expiry_date tokens) in
     updateData_refresh <-
       (if truthy_opt (refresh_token tokens)
        then
          c <- result (encrypt deps (the (refresh_token tokens))) ;;
          ret (Some c)
        else ret None) ;;
     if with_access || truthy_opt (refresh_token tokens)
     then
       oAuthToken_update deps OpRotate
         (mkTokenUpdate
            (if with_access then access_token tokens else None)
            updateData_refresh
            (if with_access then Some (new_Date (expiry_date tokens)) else None))
     else ret tt)
    (fun error => ret tt).

(** What can happen to the database between two looks at it: a
    synchronisation cycle, an authorization callback, a credential
    rotation. *)
Inductive Step : Type :=
| Cycle (w : World)
| Callback (deps : Deps) (code : option string)
| Rotation (deps : Deps) (tokens : Credentials).

Definition step (s : Step) (db : DB) : DB :=
  match s with
  | Cycle w => final (runEmailSync w db)
  | Callback deps code => final (handleOAuthCallback deps code db)
  | Rotation deps tokens => final (onTokens deps tokens db)
  end.

Fixpoint steps (ss : list Step) (db : DB) : DB :=
  match ss with
  | [] => db
  | s :: rest => steps rest (step s db)
  end.

End OAuth.

(** * Further notions used in the statements *)

(** [m] moves the database along [R]. *)
Definition respects {A} (R : DB -> DB -> Prop) (m : M A) : Prop :=
  forall db, R db (final (m db)).

(** Every event that [m] emits passes [p]. *)
Definition emits_only {A} (p : Event -> bool) (m : M A) : Prop :=
  forall db, forallb p (trace (m db)) = true.

(** [db'] has the rows of [db], in their order, and maybe more after them. *)
Definition extends (db db' : DB) : Prop :=
  (exists rows, emails db' = emails db ++ rows) /\
  (exists rows, attachments db' = attachments db ++ rows).

(** The foreign key of [Attachment]: every row points to a stored email. *)
Definition refs_ok (db : DB) : Prop :=
  forall a, In a (attachments db) ->
    exists e, In e (emails db) /\ email_id e = att_emailId a.

Definition is_remote (ev : Event) : bool :=
  match ev with
  | Remote _ => true
  | Console _ _ => false
  end.

(** The ids asked of [messages.get], in the order of the calls. *)
Definition fetched (tr : list Event) : list string :=
  flat_map (fun ev => match ev with
                      | Remote (MessagesGet id) => [id]
                      | _ => []
                      end) tr.

(** The ids of a list of headers, the headers without one left out. *)
Definition listed_ids (hs : list Message) : list string :=
  flat_map (fun h => if truthy_opt (msg_id h) then [the (msg_id h)] else []) hs.

(** The messages that a [history.list] answer reports as added: record by
    record, entry by entry. *)
Definition added_messages (res : ListHistoryResponse) : list Message :=
  flat_map
    (fun historyRecord =>
       flat_map
         (fun messageAdded =>
            match added_message messageAdded with
            | Some m => [m]
            | None => []
            end)
         (match messagesAdded historyRecord with Some added => added | None => [] end))
    (match hr_history res with Some history => history | None => [] end).

(** The messages of pages 1 to [n] of the fallback listing, page after
    page. *)
Fixpoint page_messages (w : World) (n : nat) : list Message :=
  match n with
  | O => []
  | S k =>
      page_messages w k ++
      match gmail_messages_list w (S k) (or_undefined (page_token w k)) with
      | Resolved res =>
          match mr_messages res with
          | Some ms => ms
          | None => []
          end
      | Rejected _ => []
      end
  end.

(** The console lines of five defensive branches: [getEmailContent] and
    [downloadAttachment] called without an id, [saveEmail] throwing, a stored
    message without payload, an upload that returned without id or link. *)
Definition defensive_line (ev : Event) : bool :=
  match ev with
  | Console _ GetNoMessageId => true
  | Console _ DlMissingArgs => true
  | Console _ (ProcSaveCritical _) => true
  | Console _ ProcNoPayload => true
  | Console _ (ProcUploadIncomplete _) => true
  | _ => false
  end.

(** The token row holds a refresh secret. *)
Definition has_refresh (db : DB) : Prop :=
  exists t, oAuthToken db = Some t /\ refresh t <> "".

(** The cipher never yields the empty string. *)
Definition cipher_nonempty (deps : OAuth.Deps) : Prop :=
  forall s c, OAuth.encrypt deps s = inr c -> c <> "".

(** The steps whose cipher matters to the stored secret: the listener
    stores what [encrypt] returns without looking at it. *)
Definition sane (s : OAuth.Step) : Prop :=
  match s with
  | OAuth.Cycle _ => True
  | OAuth.Callback _ _ => True
  | OAuth.Rotation deps _ => cipher_nonempty deps
  end.

(** [decrypt] as the token reader sees it. *)
Definition decrypts (w : World) (decrypt : string -> Exn + string) : Prop :=
  forall c, cipher_decrypt w c =
            match decrypt c with
            | inr p => Some p
            | inl _ => None
            end.

(** Not a call to [messages.get]. *)
Definition not_get (ev : Event) : bool :=
  match ev with
  | Remote (MessagesGet _) => false
  | _ => true
  end.

Definition not_remote (ev : Event) : bool := negb (is_remote ev).

(** From [db] to [db'] the only change is rows added to [Attachment], all
    of them pointing to [saved]. *)
Definition attaches_to (saved : Email) (db db' : DB) : Prop :=
  oAuthToken db' = oAuthToken db /\
  emails db' = emails db /\
  exists rows,
    attachments db' = attachments db ++ rows /\
    Forall (fun a => att_emailId a = email_id saved) rows.

(** The unique indexes and the foreign key, as things a step keeps. *)
Definition keeps (I : DB -> Prop) (db db' : DB) : Prop := I db -> I db'.

Definition unique_emails (db : DB) : Prop := unique_rows (emails db).

(** The header has an id and Gmail returns the message. *)
Definition fetchable (w : World) (h : Message) : bool :=
  truthy_opt (msg_id h) &&
  match gmail_messages_get w (the (msg_id h)) with
  | Resolved _ => true
  | Rejected _ => false
  end.

Definition not_defensive (ev : Event) : bool := negb (defensive_line ev).

(** The page at which the fallback listing stops when every page resolves:
    the first of the pages 1 to [MAX_INITIAL_FETCH_PAGES] that reports no
    further page, and the last of them when they all report one. *)
Definition last_page (w : World) : nat :=
  match find (fun n => negb (truthy_opt (page_token w n)))
             (seq 1 MAX_INITIAL_FETCH_PAGES) with
  | Some n => n
  | None => MAX_INITIAL_FETCH_PAGES
  end.

(** Page [S k] of the fallback listing resolves, when asked with the token
    that page [k] reported. *)
Definition page_resolves (w : World) (k : nat) : Prop :=
  exists res, gmail_messages_list w (S k) (or_undefined (page_token w k)) = Resolved res.

(** What the fallback loop does for the pages [from + 1] to [from + count]:
    for each its console line, then its call with the token of the page
    before. *)
Definition paging (w : World) (from count : nat) : list Event :=
  flat_map
    (fun k => [Console LLog (ListFallbackPage (S k) (page_token w k));
               Remote (MessagesList (or_undefined (page_token w k)))])
    (seq from count).

(** The decoded data of a part: empty when the part has no body or no
    data. *)
Definition decoded_data (w : World) (p : MessagePart) : string :=
  match part_body p with
  | Some b =>
      if truthy_opt (body_data b) then decode_body w (the (body_data b)) else ""
  | None => ""
  end.

(** * Further sample worlds *)

Module Scenario.

(** The stored refresh secret does not decrypt. *)
Definition undecryptable : World :=
  mkWorld
    (fun _ => None)
    (fun _ => None)
    (fun _ => Sample.history ["m1"] "H101")
    (fun _ _ => Resolved (mkMessagesResp None None))
    (fun _ => Rejected Sample.backend_down)
    (fun _ _ => Rejected Sample.gone)
    (fun _ _ _ => Rejected Sample.backend_down)
    (fun s => s).

(** Nothing was added since the stored cursor, but the history moved on. *)
Definition nothing_new : World :=
  Sample.world [] "H101" (fun _ => Rejected Sample.backend_down).

(** m1 is fetched and stored, then the database server refuses the write of
    the cursor. *)
Definition cursor_write_fails : World :=
  mkWorld
    (fun op => match op with OpUpdateCursor _ => Some Sample.server_down | _ => None end)
    (fun s => Some s)
    (fun _ => Sample.history ["m1"] "H101")
    (fun _ _ => Resolved (mkMessagesResp None None))
    (fun _ => Resolved (Sample.full "m1" "<1@x>" []))
    (fun _ _ => Rejected Sample.gone)
    (fun _ _ _ => Rejected Sample.backend_down)
    (fun s => s).

(** Gmail serves the attachment and Drive stores it, then the database
    server refuses the insert of the row. *)
Definition attachment_insert_fails : World :=
  mkWorld
    (fun op => match op with OpCreateAttachment _ _ => Some Sample.server_down | _ => None end)
    (fun s => Some s)
    (fun _ => Sample.history ["m1"] "H101")
    (fun _ _ => Resolved (mkMessagesResp None None))
    (fun _ => Resolved Sample.m1_two_files)
    (fun _ _ => Resolved (Some "QUJD"))
    (fun _ _ _ => Resolved (Some (mkDriveFile (Some "F1") (Some "https://drive.example/F1"))))
    (fun s => s).

(** A key of the right length that is not hexadecimal. *)
Definition bad_key_hex : string :=
  "zz00000000000000000000000000000000000000000000000000000000000000".

Definition bad_env : Encryption.Env :=
  Encryption.mkEnv (Some bad_key_hex) (Some Sample.iv_hex).

(** Google issues an access token for an hour and, on the first consent, a
    refresh token; the cipher is the module's, with the stand-in for AES. *)
Definition issued (with_refresh : bool) : OAuth.Credentials :=
  OAuth.mkCredentials (Some "ya29.access")
    (if with_refresh then Some "1//refresh-secret" else None)
    (OAuth.Number 1700003600000%Z).

Definition deps (with_refresh : bool) : OAuth.Deps :=
  OAuth.mkDeps
    (fun _ => Resolved (issued with_refresh))
    (Encryption.encrypt Sample.toy_block Sample.keys)
    (fun _ => None).

(** The world of a process whose cipher module is the one of [deps]. *)
Definition after_consent : World :=
  mkWorld
    (fun _ => None)
    (fun c => match Encryption.decrypt Sample.toy_block Sample.keys c with
              | inr p => Some p
              | inl _ => None
              end)
    (fun _ => Sample.history ["m1"] "H101")
    (fun _ _ => Resolved (mkMessagesResp (Some [Sample.stub "m1"]) None))
    (fun _ => Resolved (Sample.full "m1" "<1@x>" []))
    (fun _ _ => Rejected Sample.gone)
    (fun _ _ _ => Rejected Sample.backend_down)
    (fun s => s).

(** No token row yet. *)
Definition fresh : DB := mkDB None [] [].

(** A message whose text is nested in its first part, and whose second and
    third parts are text at the top level. *)
Definition with_text_parts : list MessagePart :=
  [Part None (Some "multipart/alternative") None None
        (Some [Part None (Some "text/plain") None
                    (Some (mkBody None (Some "bmVzdGVk"))) None]);
   Sample.inline_part "note.txt";
   Part None (Some "text/html") None (Some (mkBody None (Some "PGI+aGk8L2I+"))) None].

Definition with_text : Message := Sample.full "m1" "<1@x>" with_text_parts.

Definition parsed_with_text : EmailCreateInput :=
  mkEmailInput "m1" (Some "thread") (Some "hello") None None None None (Some "<1@x>")
               None None (Some 1700000000000%Z) "aGVsbG8=".

End Scenario.

(** * Properties *)

Unset Implicit Arguments.

(** ** JavaScript truthiness *)

Lemma truthy_opt_Some (o : option string) :
  truthy_opt o = true -> exists s, o = Some s /\ s <> "".
Proof.
  destruct o as [s|]; simpl; [|discriminate].
  unfold truthy. intros H. exists s. split; [reflexivity|].
  intros ->. discriminate.
Qed.

Lemma truthy_nonempty (s : string) : s <> "" -> truthy s = true.
Proof.
  unfold truthy. intros H. destruct (String.eqb_spec s ""); [contradiction|reflexivity].
Qed.

Lemma or_undefined_falsy (o : option string) :
  truthy_opt o = false -> or_undefined o = None.
Proof. unfold or_undefined. intros ->. reflexivity. Qed.

(** ** Reasoning about computations *)

Section Frames.

Variables (S : Type) (f : DB -> S).

Lemma preserves_ret A (a : A) : preserves f (ret a).
Proof. intros db. reflexivity. Qed.

Lemma preserves_throw A (e : Exn) : preserves f (@throw A e).
Proof. intros db. reflexivity. Qed.

Lemma preserves_emit ev : preserves f (emit ev).
Proof. intros db. reflexivity. Qed.

Lemma preserves_console l m : preserves f (console l m).
Proof. intros db. reflexivity. Qed.

Lemma preserves_get_db : preserves f get_db.
Proof. intros db. reflexivity. Qed.

Lemma preserves_await A c (r : Response A) : preserves f (await c r).
Proof. intros db. unfold await. destruct r; reflexivity. Qed.

Lemma preserves_bind A B (m : M A) (k : A -> M B) :
  preserves f m -> (forall a, preserves f (k a)) -> preserves f (bind m k).
Proof.
  intros Hm Hk db. unfold preserves, final, bind in *. specialize (Hm db).
  destruct (m db) as [[[e|a] db1] t1]; simpl in *; [assumption|].
  specialize (Hk a db1).
  destruct (k a db1) as [[r db2] t2]; simpl in *. congruence.
Qed.

Lemma preserves_try_catch A (m : M A) (h : Exn -> M A) :
  preserves f m -> (forall e, preserves f (h e)) -> preserves f (try_catch m h).
Proof.
  intros Hm Hh db. unfold preserves, final, try_catch in *. specialize (Hm db).
  destruct (m db) as [[[e|a] db1] t1]; simpl in *; [|assumption].
  specialize (Hh e db1).
  destruct (h e db1) as [[r db2] t2]; simpl in *. congruence.
Qed.

End Frames.

Lemma no_throw_ret A (a : A) : no_throw (ret a).
Proof. intros db. exists a. reflexivity. Qed.

Lemma no_throw_console l m : no_throw (console l m).
Proof. intros db. exists tt. reflexivity. Qed.

Lemma no_throw_bind A B (m : M A) (k : A -> M B) :
  no_throw m -> (forall a, no_throw (k a)) -> no_throw (bind m k).
Proof.
  intros Hm Hk db. unfold no_throw, bind, outcome in *. destruct (Hm db) as [a Ha].
  destruct (m db) as [[[e|a'] db1] t1]; simpl in Ha; [discriminate|].
  destruct (Hk a' db1) as [b Hb].
  destruct (k a' db1) as [[r db2] t2]; simpl in *. exists b. assumption.
Qed.

Lemma no_throw_try_catch A (m : M A) (h : Exn -> M A) :
  (forall e, no_throw (h e)) -> no_throw (try_catch m h).
Proof.
  intros Hh db. unfold no_throw, try_catch, outcome in *.
  destruct (m db) as [[[e|a] db1] t1]; simpl.
  - destruct (Hh e db1) as [b Hb].
    destruct (h e db1) as [[r db2] t2]; simpl in *. exists b. assumption.
  - exists a. reflexivity.
Qed.

Create HintDb frame.
#[export] Hint Resolve preserves_ret preserves_throw preserves_emit preserves_console
  preserves_get_db preserves_await : frame.
#[export] Hint Resolve no_throw_ret no_throw_console : frame.

(** Walks down a computation: sequences, handlers, conditionals. *)
Ltac frame :=
  repeat first
    [ progress intros
    | solve [auto with frame]
    | apply preserves_bind
    | apply preserves_try_catch
    | apply no_throw_bind
    | apply no_throw_try_catch
    | match goal with
      | |- preserves _ (if ?b then _ else _) => destruct b
      | |- preserves _ (match ?x with _ => _ end) => destruct x
      | |- no_throw (if ?b then _ else _) => destruct b
      | |- no_throw (match ?x with _ => _ end) => destruct x
      end ].

(** ** What each function leaves untouched *)

Lemma findUnique_reads w op : preserves whole (Prisma.oAuthToken_findUnique w op).
Proof. unfold Prisma.oAuthToken_findUnique, Prisma.faulty. frame. Qed.
#[export] Hint Resolve findUnique_reads : frame.

Lemma getAuthenticatedClient_reads w : preserves whole (getAuthenticatedClient w).
Proof. unfold getAuthenticatedClient. frame. Qed.
#[export] Hint Resolve getAuthenticatedClient_reads : frame.

Lemma fallback_pages_reads w budget : forall page token msgs,
  preserves whole (fallback_pages w budget page token msgs).
Proof.
  induction budget as [|b IH]; intros page token msgs; simpl; frame.
Qed.
#[export] Hint Resolve fallback_pages_reads : frame.

Lemma listNewEmailMessages_reads w start : preserves whole (listNewEmailMessages w start).
Proof. unfold listNewEmailMessages. frame. Qed.

Lemma getEmailContent_reads w id : preserves whole (getEmailContent w id).
Proof. unfold getEmailContent. frame. Qed.

Lemma downloadAttachment_reads w mid aid : preserves whole (downloadAttachment w mid aid).
Proof. unfold downloadAttachment. frame. Qed.

Lemma uploadToDrive_reads w fn mt data : preserves whole (uploadToDrive w fn mt data).
Proof. unfold uploadToDrive. frame. Qed.
#[export] Hint Resolve listNewEmailMessages_reads getEmailContent_reads
  downloadAttachment_reads uploadToDrive_reads : frame.

Lemma reads_preserves S (f : DB -> S) A (m : M A) : preserves whole m -> preserves f m.
Proof. intros H db. unfold whole in H. rewrite (H db). reflexivity. Qed.

Lemma email_create_token w d : preserves oAuthToken (Prisma.email_create w d).
Proof.
  intros db. unfold Prisma.email_create, Prisma.faulty.
  destruct (store_fault w (OpCreateEmail d)); [reflexivity|].
  unfold bind, get_db. destruct (existsb (Prisma.collides d) (emails db)); reflexivity.
Qed.

Lemma email_create_attachments w d : preserves attachments (Prisma.email_create w d).
Proof.
  intros db. unfold Prisma.email_create, Prisma.faulty.
  destruct (store_fault w (OpCreateEmail d)); [reflexivity|].
  unfold bind, get_db. destruct (existsb (Prisma.collides d) (emails db)); reflexivity.
Qed.

Lemma attachment_create_token w i fn mt did durl :
  preserves oAuthToken (Prisma.attachment_create w i fn mt did durl).
Proof.
  intros db. unfold Prisma.attachment_create, Prisma.faulty.
  destruct (store_fault w (OpCreateAttachment i fn)); reflexivity.
Qed.

Lemma attachment_create_emails w i fn mt did durl :
  preserves emails (Prisma.attachment_create w i fn mt did durl).
Proof.
  intros db. unfold Prisma.attachment_create, Prisma.faulty.
  destruct (store_fault w (OpCreateAttachment i fn)); reflexivity.
Qed.
#[export] Hint Resolve email_create_token email_create_attachments
  attachment_create_token attachment_create_emails : frame.

Lemma reads_token A (m : M A) : preserves whole m -> preserves oAuthToken m.
Proof. apply reads_preserves. Qed.
Lemma reads_emails A (m : M A) : preserves whole m -> preserves emails m.
Proof. apply reads_preserves. Qed.
Lemma reads_attachments A (m : M A) : preserves whole m -> preserves attachments m.
Proof. apply reads_preserves. Qed.
#[export] Hint Resolve reads_token reads_emails reads_attachments : frame.

Lemma parseEmailContent_reads w raw : preserves whole (parseEmailContent w raw).
Proof. unfold parseEmailContent. frame. Qed.
#[export] Hint Resolve parseEmailContent_reads : frame.

Lemma saveEmail_token w d : preserves oAuthToken (saveEmail w d).
Proof. unfold saveEmail. frame. Qed.

Lemma saveEmail_attachments w d : preserves attachments (saveEmail w d).
Proof. unfold saveEmail. frame. Qed.
#[export] Hint Resolve saveEmail_token saveEmail_attachments : frame.

Lemma processAttachment_token w rawId e p : preserves oAuthToken (processAttachment w rawId e p).
Proof. unfold processAttachment. frame. Qed.

Lemma processAttachment_emails w rawId e p : preserves emails (processAttachment w rawId e p).
Proof. unfold processAttachment. frame. Qed.
#[export] Hint Resolve processAttachment_token processAttachment_emails : frame.

Lemma processAttachments_token w rawId e ps : preserves oAuthToken (processAttachments w rawId e ps).
Proof. induction ps; simpl; frame. Qed.

Lemma processAttachments_emails w rawId e ps : preserves emails (processAttachments w rawId e ps).
Proof. induction ps; simpl; frame. Qed.
#[export] Hint Resolve processAttachments_token processAttachments_emails : frame.

Lemma processStoredEmail_token w raw e : preserves oAuthToken (processStoredEmail w raw e).
Proof. unfold processStoredEmail. frame. Qed.

Lemma processStoredEmail_emails w raw e : preserves emails (processStoredEmail w raw e).
Proof. unfold processStoredEmail. frame. Qed.
#[export] Hint Resolve processStoredEmail_token processStoredEmail_emails : frame.

Lemma processAndSaveEmail_token w raw : preserves oAuthToken (processAndSaveEmail w raw).
Proof. unfold processAndSaveEmail. frame. Qed.
#[export] Hint Resolve processAndSaveEmail_token : frame.

Lemma processHeader_token w h : preserves oAuthToken (processHeader w h).
Proof. unfold processHeader. frame. Qed.
#[export] Hint Resolve processHeader_token : frame.

Lemma processBatch_token w hs : forall s f, preserves oAuthToken (processBatch w hs s f).
Proof. induction hs; intros s f; simpl; frame. Qed.
#[export] Hint Resolve processBatch_token : frame.

(** ** What never throws *)

Lemma saveEmail_no_throw w d : no_throw (saveEmail w d).
Proof. unfold saveEmail. frame. Qed.

Lemma processAttachment_no_throw w rawId e p : no_throw (processAttachment w rawId e p).
Proof. unfold processAttachment. frame. Qed.
#[export] Hint Resolve saveEmail_no_throw processAttachment_no_throw : frame.

Lemma processAttachments_no_throw w rawId e ps : no_throw (processAttachments w rawId e ps).
Proof. induction ps; simpl; frame. Qed.
#[export] Hint Resolve processAttachments_no_throw : frame.

Lemma processStoredEmail_no_throw w raw e : no_throw (processStoredEmail w raw e).
Proof. unfold processStoredEmail. frame. Qed.
#[export] Hint Resolve processStoredEmail_no_throw : frame.

Lemma processAndSaveEmail_no_throw w raw : no_throw (processAndSaveEmail w raw).
Proof. unfold processAndSaveEmail. frame. Qed.
#[export] Hint Resolve processAndSaveEmail_no_throw : frame.

Lemma processHeader_no_throw w h : no_throw (processHeader w h).
Proof. unfold processHeader. frame. Qed.
#[export] Hint Resolve processHeader_no_throw : frame.

(** The loop attempts every header: it ends normally and each header has
    incremented one of the two counters. *)
Lemma processBatch_counts w hs : forall s f db,
  exists s' f',
    outcome (processBatch w hs s f db) = inr (s', f') /\
    s' + f' = s + f + length hs.
Proof.
  induction hs as [|h rest IH]; intros s f db; simpl.
  - exists s, f. split; [reflexivity|lia].
  - destruct (processHeader_no_throw w h db) as [ok Hok].
    unfold outcome, bind in *.
    destruct (processHeader w h db) as [[[e|ok'] db1] t1]; simpl in Hok; [discriminate|].
    destruct ok'.
    + destruct (IH (S s) f db1) as (s' & f' & H1 & H2).
      destruct (processBatch w rest (S s) f db1) as [[r db2] t2]; simpl in *.
      exists s', f'. split; [exact H1|lia].
    + destruct (IH s (S f) db1) as (s' & f' & H1 & H2).
      destruct (processBatch w rest s (S f) db1) as [[r db2] t2]; simpl in *.
      exists s', f'. split; [exact H1|lia].
Qed.

(** ** Running a computation to a result *)

Lemma preserves_run S (f : DB -> S) A (m : M A) db r db1 t :
  preserves f m -> m db = (r, db1, t) -> f db1 = f db.
Proof. intros H E. specialize (H db). rewrite E in H. exact H. Qed.

Lemma reads_run A (m : M A) db r db1 t :
  preserves whole m -> m db = (r, db1, t) -> db1 = db.
Proof. apply preserves_run. Qed.

(** Splits on the innermost scrutinee of the goal: the next call the
    computation makes, or the next condition it tests. *)
Ltac run1 :=
  match goal with
  | |- context [match ?x with _ => _ end] =>
      lazymatch x with
      | context [match _ with _ => _ end] => fail
      | _ => destruct x eqn:?
      end
  end.

Ltac run := repeat (run1; simpl; subst).

Ltac unfold_M :=
  unfold bind, try_catch, console, emit, await, get_db, put_db, ret, throw.

(** [prisma.oAuthToken.update]: either it throws and nothing is written, or
    the token row gets the new cursor and nothing else changes. *)
Lemma update_run w c db r db1 t1 :
  Prisma.oAuthToken_update_lastHistoryId w c db = (r, db1, t1) ->
  (exists e, r = inl e /\ db1 = db) \/
  (exists t, r = inr tt /\ oAuthToken db = Some t /\
     store_fault w (OpUpdateCursor c) = None /\
     db1 = mkDB (Some (Prisma.set_lastHistoryId c t)) (emails db) (attachments db)).
Proof.
  unfold Prisma.oAuthToken_update_lastHistoryId, Prisma.faulty. unfold_M.
  destruct (store_fault w (OpUpdateCursor c)).
  - intros E; inversion E; subst. left. eauto.
  - destruct (oAuthToken db) as [t|] eqn:Ht; intros E; inversion E; subst.
    + right. exists t. auto.
    + left. eauto.
Qed.

(** ** The synchronisation cycle *)

Lemma run_cycles_app ws1 ws2 db :
  run_cycles (ws1 ++ ws2) db = run_cycles ws2 (run_cycles ws1 db).
Proof. revert db. induction ws1 as [|w ws1 IH]; intros db; simpl; [reflexivity|apply IH]. Qed.

(** Collects what is known of the calls a run has made. *)
Ltac known :=
  repeat match goal with
  | H : listNewEmailMessages ?w ?s ?db = (_, ?d, _) |- _ =>
      assert (d = db) by (exact (@reads_run _ _ _ _ _ _ (listNewEmailMessages_reads w s) H));
      subst d
  | H : processBatch ?w ?hs ?s ?f ?db = (inl _, _, _) |- _ =>
      exfalso; destruct (processBatch_counts w hs s f db) as (? & ? & Hc & _);
      rewrite H in Hc; discriminate Hc
  | H : processBatch ?w ?hs ?s ?f ?db = (inr _, ?d, _) |- _ =>
      lazymatch goal with
      | _ : oAuthToken d = oAuthToken db |- _ => fail
      | _ => assert (oAuthToken d = oAuthToken db)
               by (exact (@preserves_run _ _ _ _ _ _ _ _ (processBatch_token w hs s f) H))
      end
  end.

(** The write that commits the cursor. *)
Lemma commit_token w db t res l d r d' t1 :
  oAuthToken db = Some t ->
  listNewEmailMessages w (or_undefined (lastHistoryId t)) db = (inr res, db, l) ->
  truthy_opt (historyId res) = true ->
  oAuthToken d = Some t ->
  Prisma.oAuthToken_update_lastHistoryId w (the (historyId res)) d = (r, d', t1) ->
  oAuthToken d' = Some t \/
  exists t0 res0 c,
    Some t = Some t0 /\ listing w db = inr res0 /\ historyId res0 = Some c /\ c <> "" /\
    oAuthToken d' = Some (Prisma.set_lastHistoryId c t0).
Proof.
  intros Ht HL Hc Hd HU.
  destruct (truthy_opt_Some _ Hc) as (c & Hc1 & Hc2).
  destruct (update_run _ _ _ _ _ _ HU) as [(e & -> & ->)|(t' & -> & Ht' & _ & ->)].
  - left. exact Hd.
  - right. exists t, res, c. rewrite Hc1 in *. simpl in *.
    assert (t' = t) by congruence. subst t'.
    repeat split; auto.
    unfold listing, cursor. rewrite Ht, HL. reflexivity.
Qed.

(** One cycle either leaves the token row as it was, or the listing call
    succeeded and the row's cursor is what that call returned. *)
Lemma runEmailSync_token w db :
  oAuthToken (final (runEmailSync w db)) = oAuthToken db \/
  exists t res c,
    oAuthToken db = Some t /\ listing w db = inr res /\
    historyId res = Some c /\ c <> "" /\
    oAuthToken (final (runEmailSync w db)) = Some (Prisma.set_lastHistoryId c t).
Proof.
  unfold runEmailSync, Prisma.oAuthToken_findUnique, Prisma.faulty.
  unfold_M. unfold final.
  run; known; try (left; reflexivity); try (left; congruence).
  all: repeat match goal with
       | H : _ && _ = true |- _ => apply andb_prop in H; destruct H
       end.
  all: match goal with
       | HL : listNewEmailMessages _ _ _ = _,
         HU : Prisma.oAuthToken_update_lastHistoryId _ _ _ = _ |- _ =>
           eapply commit_token with (5 := HU) (2 := HL);
           [eassumption | assumption | congruence]
       end.
Qed.

Lemma runEmailSync_cursor_step w db : cursor_step w db (final (runEmailSync w db)).
Proof.
  unfold cursor_step.
  destruct (runEmailSync_token w db) as [H|(t & res & c & Ht & HL & Hc & _ & H)].
  - split.
    + left. unfold cursor. rewrite H. reflexivity.
    + intros _ _. exact H.
  - split.
    + right. exists res, c. repeat split; auto. unfold cursor. rewrite H. reflexivity.
    + intros e He. congruence.
Qed.

(** Over a whole sequence of cycles: the cursor at the end is the one at the
    start, or the [historyId] that the listing of one of the cycles returned
    on success. *)
Lemma cursor_provenance (ws : list World) (db : DB) :
  cursor (run_cycles ws db) = cursor db \/
  exists ws1 w ws2 res c,
    ws = ws1 ++ w :: ws2 /\
    listing w (run_cycles ws1 db) = inr res /\
    historyId res = Some c /\
    cursor (run_cycles ws db) = Some c.
Proof.
  induction ws as [|w ws IH] using rev_ind; [left; reflexivity|].
  rewrite run_cycles_app. simpl.
  destruct (runEmailSync_cursor_step w (run_cycles ws db)) as [[Hsame|Hnew] _].
  - rewrite Hsame. destruct IH as [IH|(ws1 & w' & ws2 & res & c & -> & Hl & Hc & Hcur)].
    + left. exact IH.
    + right. exists ws1, w', (ws2 ++ [w]), res, c.
      rewrite <- app_assoc. simpl. auto.
  - destruct Hnew as (res & c & Hl & Hc & Hcur).
    right. exists ws, w, [], res, c. auto.
Qed.

(** C1 (cursor monotonicity).  Across any sequence of cycles, every cycle
    either leaves the persisted cursor unchanged or replaces it by the
    [historyId] that the listing call of that very cycle returned on success:
    no other value (in particular no earlier cursor) is ever written back;
    a cycle whose listing call raised leaves the token row, cursor included,
    exactly as it was; and so the cursor after the whole sequence is the
    initial one or one that a successful listing of the sequence returned. *)
Theorem cursor_monotonicity (ws1 : list World) (w : World) (ws2 : list World) (db : DB) :
  let before := run_cycles ws1 db in
  let after := run_cycles (ws1 ++ [w]) db in
  let ws := ws1 ++ w :: ws2 in
  (cursor after = cursor before \/
   exists res c,
     listing w before = inr res /\ historyId res = Some c /\ cursor after = Some c)
  /\ (forall e, listing w before = inl e -> oAuthToken after = oAuthToken before)
  /\ run_cycles ws db = run_cycles ws2 after
  /\ (cursor (run_cycles ws db) = cursor db \/
      exists ws1' w' ws2' res c,
        ws = ws1' ++ w' :: ws2' /\
        listing w' (run_cycles ws1' db) = inr res /\
        historyId res = Some c /\
        cursor (run_cycles ws db) = Some c).
Proof.
  intros before after ws. subst before after ws.
  rewrite run_cycles_app. simpl.
  destruct (runEmailSync_cursor_step w (run_cycles ws1 db)) as [H1 H2].
  split; [exact H1|]. split; [exact H2|]. split.
  - rewrite run_cycles_app. reflexivity.
  - apply cursor_provenance.
Qed.

(** ** Committing the cursor after a batch *)

Lemma listing_run w db t res :
  oAuthToken db = Some t ->
  listing w db = inr res ->
  exists tl, listNewEmailMessages w (or_undefined (lastHistoryId t)) db = (inr res, db, tl).
Proof.
  unfold listing, cursor. intros -> H.
  destruct (listNewEmailMessages w (or_undefined (lastHistoryId t)) db)
    as [[r d] tl] eqn:E.
  unfold outcome in H. simpl in H. subst r. known. exists tl. reflexivity.
Qed.

(** A listing that succeeded has authenticated: the token row is there and
    holds a refresh secret. *)
Lemma listing_token w db t res :
  oAuthToken db = Some t ->
  listing w db = inr res ->
  refresh t <> "".
Proof.
  unfold listing, listNewEmailMessages. intros Ht.
  unfold bind at 1. unfold try_catch at 1.
  unfold getAuthenticatedClient, Prisma.oAuthToken_findUnique, Prisma.faulty.
  unfold bind at 1.
  destruct (store_fault w OpFindTokenAuth); [discriminate|].
  unfold bind at 1. unfold get_db at 1. unfold ret at 1. rewrite Ht.
  intros H Hempty. rewrite Hempty in H. discriminate H.
Qed.

Lemma processBatch_run w hs db :
  exists succeeded failed db' tb,
    processBatch w hs 0 0 db = (inr (succeeded, failed), db', tb) /\
    succeeded + failed = length hs /\
    oAuthToken db' = oAuthToken db.
Proof.
  destruct (processBatch_counts w hs 0 0 db) as (s & f & H1 & H2).
  destruct (processBatch w hs 0 0 db) as [[r d] tb] eqn:E.
  unfold outcome in H1. simpl in H1. subst r. known.
  exists s, f, d, tb. repeat split; auto.
Qed.

Lemma update_ok w c db t :
  oAuthToken db = Some t ->
  store_fault w (OpUpdateCursor c) = None ->
  Prisma.oAuthToken_update_lastHistoryId w c db =
  (inr tt, mkDB (Some (Prisma.set_lastHistoryId c t)) (emails db) (attachments db), []).
Proof.
  intros Ht Hf. unfold Prisma.oAuthToken_update_lastHistoryId, Prisma.faulty. unfold_M.
  rewrite Hf, Ht. reflexivity.
Qed.

Lemma length_eqb_0 A (l : list A) : l <> [] -> (length l =? 0)%nat = false.
Proof. destruct l; [congruence|reflexivity]. Qed.

(** The cycle whose listing returned [res] with a cursor [c] and a non-empty
    batch, given what listing and batch did. *)
Lemma runEmailSync_batch w db t res c tl s f d tb :
  store_fault w OpFindTokenSync = None ->
  oAuthToken db = Some t ->
  refresh t <> "" ->
  listNewEmailMessages w (or_undefined (lastHistoryId t)) db = (inr res, db, tl) ->
  messages res <> [] ->
  historyId res = Some c ->
  c <> "" ->
  store_fault w (OpUpdateCursor c) = None ->
  processBatch w (messages res) 0 0 db = (inr (s, f), d, tb) ->
  runEmailSync w db =
    (inr tt,
     mkDB (Some (Prisma.set_lastHistoryId c t)) (emails d) (attachments d),
     Console LLog SyncStarting
       :: Console LLog (SyncCurrentHistoryId (lastHistoryId t))
       :: tl
       ++ Console LLog (SyncFound (length (messages res)))
       :: tb
       ++ [Console LLog (SyncSummary s f);
           Console LLog (SyncCursorUpdated c);
           Console LLog SyncCompleted]).
Proof.
  intros Hfind Htok Hrefresh HL Hne Hc Hc' Hupd HB.
  assert (Hd : oAuthToken d = oAuthToken db)
    by (exact (@preserves_run _ _ _ _ _ _ _ _ (processBatch_token w (messages res) 0 0) HB)).
  assert (HU := update_ok w c d t (eq_trans Hd Htok) Hupd).
  unfold runEmailSync, Prisma.oAuthToken_findUnique, Prisma.faulty. unfold_M.
  rewrite Hfind, Htok. simpl.
  rewrite (truthy_nonempty _ Hrefresh). simpl.
  rewrite HL. rewrite (length_eqb_0 _ _ Hne). simpl.
  rewrite HB. simpl. rewrite Hc. simpl.
  rewrite (truthy_nonempty _ Hc'). rewrite HU. simpl.
  reflexivity.
Qed.

(** C2.  When the listing of a cycle returns a cursor (a non-empty string: the
    source tests [if (newHistoryId)]) and a non-empty list of ids, and the
    store accepts the read and the write of the token row, the cycle runs the
    whole batch (every header ends up counted as succeeded or failed), and
    only then writes the returned cursor to the token row; nothing about the
    batch's outcome conditions that write: the statement holds for every
    count of failures, all items failed included.  The cycle ends normally,
    and its trace shows the order: listing, batch, summary, cursor update. *)
Theorem cursor_committed_after_batch (w : World) (db : DB)
    (t : OAuthToken) (res : ListNewEmailMessagesResult) (c : string) :
  store_fault w OpFindTokenSync = None ->
  oAuthToken db = Some t ->
  listing w db = inr res ->
  messages res <> [] ->
  historyId res = Some c ->
  c <> "" ->
  store_fault w (OpUpdateCursor c) = None ->
  exists succeeded failed after_batch tl tb,
    listNewEmailMessages w (or_undefined (lastHistoryId t)) db = (inr res, db, tl) /\
    processBatch w (messages res) 0 0 db = (inr (succeeded, failed), after_batch, tb) /\
    succeeded + failed = length (messages res) /\
    runEmailSync w db =
      (inr tt,
       mkDB (Some (Prisma.set_lastHistoryId c t)) (emails after_batch) (attachments after_batch),
       Console LLog SyncStarting
         :: Console LLog (SyncCurrentHistoryId (lastHistoryId t))
         :: tl
         ++ Console LLog (SyncFound (length (messages res)))
         :: tb
         ++ [Console LLog (SyncSummary succeeded failed);
             Console LLog (SyncCursorUpdated c);
             Console LLog SyncCompleted]) /\
    cursor (final (runEmailSync w db)) = Some c.
Proof.
  intros Hfind Htok Hlist Hne Hc Hc' Hupd.
  pose proof (listing_token w db t res Htok Hlist) as Hrefresh.
  destruct (listing_run w db _ _ Htok Hlist) as [tl HL].
  destruct (processBatch_run w (messages res) db) as (s & f & d & tb & HB & Hsum & Hd).
  pose proof (runEmailSync_batch w db t res c tl s f d tb
                Hfind Htok Hrefresh HL Hne Hc Hc' Hupd HB) as Hrun.
  exists s, f, d, tl, tb. repeat split; auto.
  rewrite Hrun. reflexivity.
Qed.

Lemma cursor_committed_after_batch_witness :
  exists succeeded failed after_batch tl tb,
    listNewEmailMessages Sample.all_fail
      (or_undefined (lastHistoryId (Sample.token (Some "H100")))) (Sample.db (Some "H100"))
      = (inr (mkListResult [Sample.stub "m1"; Sample.stub "m2"] (Some "H101")),
         Sample.db (Some "H100"), tl) /\
    processBatch Sample.all_fail [Sample.stub "m1"; Sample.stub "m2"] 0 0
      (Sample.db (Some "H100")) = (inr (succeeded, failed), after_batch, tb) /\
    succeeded + failed = 2 /\
    runEmailSync Sample.all_fail (Sample.db (Some "H100")) =
      (inr tt,
       mkDB (Some (Prisma.set_lastHistoryId "H101" (Sample.token (Some "H100"))))
            (emails after_batch) (attachments after_batch),
       Console LLog SyncStarting
         :: Console LLog (SyncCurrentHistoryId (Some "H100"))
         :: tl
         ++ Console LLog (SyncFound 2)
         :: tb
         ++ [Console LLog (SyncSummary succeeded failed);
             Console LLog (SyncCursorUpdated "H101");
             Console LLog SyncCompleted]) /\
    cursor (final (runEmailSync Sample.all_fail (Sample.db (Some "H100")))) = Some "H101".
Proof.
  apply (cursor_committed_after_batch Sample.all_fail (Sample.db (Some "H100"))
           (Sample.token (Some "H100"))
           (mkListResult [Sample.stub "m1"; Sample.stub "m2"] (Some "H101")) "H101");
    first [reflexivity | discriminate].
Defined.

(** The cycle in which every item of the batch fails: nothing is stored, both
    items are counted as failed, and the cursor is committed all the same. *)
Example all_failed_cursor_still_committed :
  let r := runEmailSync Sample.all_fail (Sample.db (Some "H100")) in
  emails (final r) = [] /\
  In (Console LLog (SyncSummary 0 2)) (trace r) /\
  cursor (final r) = Some "H101".
Proof. vm_compute. repeat split; auto 20. Qed.

(** The scenario of the specification: m1 stored, m2 skipped and logged,
    cursor persisted as "H101". *)
Example scenario_m1_stored_m2_skipped :
  let r := runEmailSync Sample.m1_ok_m2_throws (Sample.db (Some "H100")) in
  map gmailId (emails (final r)) = ["m1"] /\
  In (Console LError (SyncPipelineError "m2" Sample.backend_down)) (trace r) /\
  In (Console LLog (SyncSummary 1 1)) (trace r) /\
  cursor (final r) = Some "H101".
Proof. vm_compute. repeat split; auto 30. Qed.

(** ** The fetcher and the orchestrator's per-item boundary *)

Lemma auth_ok_run w db :
  outcome (getAuthenticatedClient w db) = inr tt ->
  getAuthenticatedClient w db = (inr tt, db, []).
Proof.
  unfold getAuthenticatedClient, Prisma.oAuthToken_findUnique, Prisma.faulty.
  unfold_M. unfold outcome.
  run; simpl; intros H; try discriminate H; reflexivity.
Qed.

(** Authentication looks at the token row only. *)
Lemma auth_same_token w db db' :
  oAuthToken db' = oAuthToken db ->
  outcome (getAuthenticatedClient w db) = inr tt ->
  outcome (getAuthenticatedClient w db') = inr tt.
Proof.
  unfold getAuthenticatedClient, Prisma.oAuthToken_findUnique, Prisma.faulty.
  unfold_M. unfold outcome. simpl. intros Heq.
  destruct (store_fault w OpFindTokenAuth); simpl; [trivial|].
  rewrite Heq. destruct (oAuthToken db) as [t|]; [|discriminate].
  destruct (negb (truthy (refresh t))); [discriminate|].
  destruct (cipher_decrypt w (refresh t)); [reflexivity|discriminate].
Qed.

(** [getEmailContent] on an authenticated client, case by case on what
    Gmail answers. *)
Lemma getEmailContent_run w db id :
  id <> "" ->
  outcome (getAuthenticatedClient w db) = inr tt ->
  getEmailContent w id db =
  match gmail_messages_get w id with
  | Resolved m =>
      (inr (Some m), db, [Console LLog (GetFetching id); Remote (MessagesGet id)])
  | Rejected e =>
      if is_not_found e
      then (inr None, db,
            [Console LLog (GetFetching id); Remote (MessagesGet id);
             Console LError (GetError id e); Console LWarn (GetNotFound id)])
      else (inl e, db,
            [Console LLog (GetFetching id); Remote (MessagesGet id);
             Console LError (GetError id e)])
  end.
Proof.
  intros Hid Hauth. unfold getEmailContent.
  rewrite (truthy_nonempty _ Hid). simpl.
  unfold bind at 1. unfold try_catch at 1. rewrite (auth_ok_run _ _ Hauth).
  unfold_M. destruct (gmail_messages_get w id) as [m|e]; simpl; [reflexivity|].
  destruct (is_not_found e); reflexivity.
Qed.

(** The loop body when the fetch yields nothing: an error line, the failed
    counter, and on to the next header. *)
Lemma processHeader_nothing_fetched w db h id tf :
  msg_id h = Some id -> id <> "" ->
  getEmailContent w id db = (inr None, db, tf) ->
  processHeader w h db =
  (inr false, db,
   Console LLog (SyncProcessing id) :: tf ++ [Console LError (SyncFetchReturnedNothing id)]).
Proof.
  intros Hh Hid Hget. unfold processHeader. rewrite Hh. simpl.
  rewrite (truthy_nonempty _ Hid). simpl.
  unfold_M. unfold getEmailContent in Hget |- *.
  rewrite (truthy_nonempty _ Hid) in Hget |- *. simpl in Hget |- *.
  unfold_M. unfold bind, try_catch, console, emit, await, ret, throw in Hget.
  rewrite Hget. reflexivity.
Qed.

Lemma processBatch_cons w h rest s f db ok db1 t1 :
  processHeader w h db = (inr ok, db1, t1) ->
  processBatch w (h :: rest) s f db =
  let r := if ok then processBatch w rest (S s) f db1
           else processBatch w rest s (S f) db1 in
  (outcome r, final r, t1 ++ trace r).
Proof.
  intros H. simpl. unfold bind. rewrite H.
  destruct ok; simpl.
  - destruct (processBatch w rest (S s) f db1) as [[r d] t]. reflexivity.
  - destruct (processBatch w rest s (S f) db1) as [[r d] t]. reflexivity.
Qed.

(** C6, as amended.  [getEmailContent] returns null on a 404 and re-raises
    every other remote error.  When it returns null, the orchestrator logs an
    error line for that id, counts the id as failed, leaves the database as
    it was and goes on with the rest of the batch; the batch is not
    aborted. *)
Theorem not_found_skipped_logged_and_counted (w : World) (db : DB)
    (h : Message) (id : string) (rest : list Message) (s f : nat) :
  msg_id h = Some id ->
  id <> "" ->
  outcome (getAuthenticatedClient w db) = inr tt ->
  (forall e, gmail_messages_get w id = Rejected e ->
     outcome (getEmailContent w id db) = if is_not_found e then inr None else inl e)
  /\ (outcome (getEmailContent w id db) = inr None ->
      processBatch w (h :: rest) s f db =
        (outcome (processBatch w rest s (S f) db),
         final (processBatch w rest s (S f) db),
         Console LLog (SyncProcessing id)
           :: trace (getEmailContent w id db)
           ++ Console LError (SyncFetchReturnedNothing id)
           :: trace (processBatch w rest s (S f) db)))
  /\ (exists s' f',
        outcome (processBatch w (h :: rest) s f db) = inr (s', f') /\
        s' + f' = s + f + length (h :: rest)).
Proof.
  intros Hh Hid Hauth. split; [|split].
  - intros e He. rewrite (getEmailContent_run w db id Hid Hauth), He.
    destruct (is_not_found e); reflexivity.
  - intros Hnone.
    destruct (getEmailContent w id db) as [[r d] tf] eqn:E.
    unfold outcome in Hnone; simpl in Hnone; subst r.
    assert (d = db) by (exact (@reads_run _ _ _ _ _ _ (getEmailContent_reads w id) E)).
    subst d.
    rewrite (processBatch_cons w h rest s f db _ _ _ (processHeader_nothing_fetched w db h id tf Hh Hid E)).
    simpl. rewrite <- app_assoc. reflexivity.
  - apply processBatch_counts.
Qed.

Lemma not_found_skipped_logged_and_counted_witness :
  (forall e, gmail_messages_get Sample.vanished "m1" = Rejected e ->
     outcome (getEmailContent Sample.vanished "m1" (Sample.db (Some "H100")))
     = if is_not_found e then inr None else inl e)
  /\ (outcome (getEmailContent Sample.vanished "m1" (Sample.db (Some "H100"))) = inr None ->
      processBatch Sample.vanished [Sample.stub "m1"] 0 0 (Sample.db (Some "H100")) =
        (outcome (processBatch Sample.vanished [] 0 1 (Sample.db (Some "H100"))),
         final (processBatch Sample.vanished [] 0 1 (Sample.db (Some "H100"))),
         Console LLog (SyncProcessing "m1")
           :: trace (getEmailContent Sample.vanished "m1" (Sample.db (Some "H100")))
           ++ Console LError (SyncFetchReturnedNothing "m1")
           :: trace (processBatch Sample.vanished [] 0 1 (Sample.db (Some "H100")))))
  /\ (exists s' f',
        outcome (processBatch Sample.vanished [Sample.stub "m1"] 0 0 (Sample.db (Some "H100")))
        = inr (s', f') /\
        s' + f' = 0 + 0 + length [Sample.stub "m1"]).
Proof.
  apply (not_found_skipped_logged_and_counted Sample.vanished (Sample.db (Some "H100"))
           (Sample.stub "m1") "m1" [] 0 0);
    first [reflexivity | discriminate].
Defined.

(** C6 as stated fails: the message vanished between listing and fetching,
    [getEmailContent] returns null, and the cycle does not skip it silently:
    it prints an error line and its summary counts one failed item. *)
Lemma not_found_is_not_silent :
  let db := Sample.db (Some "H100") in
  outcome (getEmailContent Sample.vanished "m1" db) = inr None /\
  outcome (processBatch Sample.vanished [Sample.stub "m1"] 0 0 db) = inr (0, 1) /\
  In (Console LError (SyncFetchReturnedNothing "m1"))
     (trace (runEmailSync Sample.vanished db)) /\
  In (Console LLog (SyncSummary 0 1)) (trace (runEmailSync Sample.vanished db)).
Proof. vm_compute. repeat split; auto 30. Qed.

(** ** Saving an item *)

Lemma email_create_run w d db :
  Prisma.email_create w d db =
  match store_fault w (OpCreateEmail d) with
  | Some e => (inl e, db, [])
  | None =>
      if existsb (Prisma.collides d) (emails db)
      then (inl (PrismaClientKnownRequestError "P2002"), db, [])
      else (inr (mkEmail (Prisma.next_id (emails db)) d),
            mkDB (oAuthToken db)
                 (emails db ++ [mkEmail (Prisma.next_id (emails db)) d])
                 (attachments db),
            [])
  end.
Proof.
  unfold Prisma.email_create, Prisma.faulty. unfold_M.
  destruct (store_fault w (OpCreateEmail d)); [reflexivity|].
  destruct (existsb (Prisma.collides d) (emails db)); reflexivity.
Qed.

Lemma email_create_thrown w d db e :
  outcome (Prisma.email_create w d db) = inl e ->
  Prisma.email_create w d db = (inl e, db, []).
Proof.
  rewrite email_create_run. unfold outcome.
  destruct (store_fault w (OpCreateEmail d)); simpl.
  - intros H. congruence.
  - destruct (existsb (Prisma.collides d) (emails db)); simpl; intros H; congruence.
Qed.

(** Whatever [email.create] throws, [saveEmail] logs one line and returns
    null. *)
Lemma saveEmail_thrown w d db e :
  outcome (Prisma.email_create w d db) = inl e ->
  saveEmail w d db = (inr None, db, [save_error_line d e]).
Proof.
  intros H. unfold saveEmail, save_error_line. unfold try_catch, bind.
  rewrite (email_create_thrown _ _ _ _ H).
  destruct (is_unique_violation e); reflexivity.
Qed.

Lemma saveEmail_stored w d db e :
  outcome (saveEmail w d db) = inr (Some e) ->
  store_fault w (OpCreateEmail d) = None /\
  existsb (Prisma.collides d) (emails db) = false /\
  e = mkEmail (Prisma.next_id (emails db)) d /\
  saveEmail w d db =
    (inr (Some e), mkDB (oAuthToken db) (emails db ++ [e]) (attachments db), []).
Proof.
  unfold saveEmail. unfold try_catch, bind. rewrite email_create_run.
  destruct (store_fault w (OpCreateEmail d)) as [x|]; simpl.
  - destruct (is_unique_violation x); unfold outcome; simpl; discriminate.
  - destruct (existsb (Prisma.collides d) (emails db)); unfold outcome; simpl.
    + discriminate.
    + intros H. inversion H; subst. auto.
Qed.

Lemma parseEmailContent_run w raw db :
  parseEmailContent w raw db = (outcome (parseEmailContent w raw db), db, []).
Proof.
  unfold parseEmailContent.
  destruct (msg_payload raw) as [p|]; [|reflexivity].
  destruct (part_headers p); reflexivity.
Qed.

(** [processAndSaveEmail] on a message whose save yields null: two console
    lines, no remote call, nothing written. *)
Lemma processAndSaveEmail_not_saved w raw db d line :
  truthy_opt (msg_id raw) = true ->
  outcome (parseEmailContent w raw db) = inr d ->
  saveEmail w d db = (inr None, db, [line]) ->
  processAndSaveEmail w raw db =
  (inr tt, db, [line; Console LLog (ProcNotSaved (in_gmailId d))]).
Proof.
  intros Hid Hparse Hsave. unfold processAndSaveEmail. rewrite Hid. simpl.
  unfold bind at 1. unfold try_catch at 1. unfold bind at 1.
  rewrite parseEmailContent_run, Hparse. simpl.
  unfold bind at 1. unfold try_catch at 1. rewrite Hsave. reflexivity.
Qed.

(** C9.  [saveEmail] returns null whatever [email.create] throws, a unique
    violation or any other error: same result, same database, one console
    line apart.  [processAndSaveEmail] then returns normally, and the
    orchestrator counts the item as succeeded although nothing was stored. *)
Theorem failed_save_counted_as_succeeded (w : World) (db : DB)
    (h : Message) (id : string) (raw : Message) (d : EmailCreateInput) (e : Exn)
    (rest : list Message) (s f : nat) :
  msg_id h = Some id ->
  id <> "" ->
  outcome (getAuthenticatedClient w db) = inr tt ->
  gmail_messages_get w id = Resolved raw ->
  truthy_opt (msg_id raw) = true ->
  outcome (parseEmailContent w raw db) = inr d ->
  outcome (Prisma.email_create w d db) = inl e ->
  saveEmail w d db = (inr None, db, [save_error_line d e])
  /\ processAndSaveEmail w raw db =
       (inr tt, db, [save_error_line d e; Console LLog (ProcNotSaved (in_gmailId d))])
  /\ processBatch w (h :: rest) s f db =
       (outcome (processBatch w rest (S s) f db),
        final (processBatch w rest (S s) f db),
        [Console LLog (SyncProcessing id);
         Console LLog (GetFetching id); Remote (MessagesGet id);
         save_error_line d e; Console LLog (ProcNotSaved (in_gmailId d))]
        ++ trace (processBatch w rest (S s) f db)).
Proof.
  intros Hh Hid Hauth Hget Hraw Hparse Hcreate.
  assert (Hsave := saveEmail_thrown w d db e Hcreate).
  assert (Hproc := processAndSaveEmail_not_saved w raw db d _ Hraw Hparse Hsave).
  split; [exact Hsave|]. split; [exact Hproc|].
  assert (Hhead : processHeader w h db =
    (inr true, db,
     [Console LLog (SyncProcessing id);
      Console LLog (GetFetching id); Remote (MessagesGet id);
      save_error_line d e; Console LLog (ProcNotSaved (in_gmailId d))])).
  { unfold processHeader. rewrite Hh. simpl. rewrite (truthy_nonempty _ Hid). simpl.
    unfold try_catch at 1. unfold bind at 1. unfold console at 1. unfold emit at 1.
    unfold bind at 1.
    rewrite (getEmailContent_run w db id Hid Hauth), Hget.
    unfold bind at 1. rewrite Hproc. reflexivity. }
  rewrite (processBatch_cons w h rest s f db _ _ _ Hhead). reflexivity.
Qed.

Lemma failed_save_counted_as_succeeded_witness :
  let w := Sample.insert_fails in
  let db := Sample.db (Some "H100") in
  let d := Sample.parsed "m1" "<1@x>" in
  let e := Sample.server_down in
  saveEmail w d db = (inr None, db, [save_error_line d e])
  /\ processAndSaveEmail w (Sample.full "m1" "<1@x>" []) db =
       (inr tt, db, [save_error_line d e; Console LLog (ProcNotSaved (in_gmailId d))])
  /\ processBatch w [Sample.stub "m1"] 0 0 db =
       (outcome (processBatch w [] 1 0 db),
        final (processBatch w [] 1 0 db),
        [Console LLog (SyncProcessing "m1");
         Console LLog (GetFetching "m1"); Remote (MessagesGet "m1");
         save_error_line d e; Console LLog (ProcNotSaved (in_gmailId d))]
        ++ trace (processBatch w [] 1 0 db)).
Proof.
  apply (failed_save_counted_as_succeeded Sample.insert_fails (Sample.db (Some "H100"))
           (Sample.stub "m1") "m1" (Sample.full "m1" "<1@x>" [])
           (Sample.parsed "m1" "<1@x>") Sample.server_down [] 0 0);
    first [reflexivity | discriminate].
Defined.

(** The cycle in which the only insert fails on a server error: nothing is
    stored, and the summary reads one succeeded, none failed. *)
Example insert_failure_reported_as_success :
  let r := runEmailSync Sample.insert_fails (Sample.db (Some "H100")) in
  emails (final r) = [] /\
  In (Console LError (SaveFailed "m1" Sample.server_down)) (trace r) /\
  In (Console LLog (SyncSummary 1 0)) (trace r).
Proof. vm_compute. repeat split; auto 30. Qed.

(** ** Idempotent ingestion *)

Lemma NoDup_snoc A (l : list A) (x : A) : NoDup l -> ~ In x l -> NoDup (l ++ [x]).
Proof.
  intros Hl Hx. induction Hl as [|y l Hy Hl IH]; simpl.
  - constructor; [intros []|constructor].
  - constructor.
    + rewrite in_app_iff. simpl. intros [H|[H|[]]]; [contradiction|].
      subst. apply Hx. left. reflexivity.
    + apply IH. intros H. apply Hx. right. exact H.
Qed.

Lemma present_messageIds_app rows rows' :
  present_messageIds (rows ++ rows') = present_messageIds rows ++ present_messageIds rows'.
Proof. unfold present_messageIds. apply flat_map_app. Qed.

Lemma in_present_messageIds m rows :
  In m (present_messageIds rows) <-> exists e, In e rows /\ messageId e = Some m.
Proof.
  unfold present_messageIds. rewrite in_flat_map. split.
  - intros (e & He & Hm). exists e. split; [exact He|].
    destruct (messageId e) as [m'|]; simpl in Hm; [|contradiction].
    destruct Hm as [->|[]]. reflexivity.
  - intros (e & He & Hm). exists e. split; [exact He|]. rewrite Hm. left. reflexivity.
Qed.

(** What the unique indexes check before an insert. *)
Lemma collides_none d rows :
  existsb (Prisma.collides d) rows = false ->
  ~ In (in_gmailId d) (map gmailId rows) /\
  (forall m, in_messageId d = Some m -> ~ In m (present_messageIds rows)).
Proof.
  intros H. split.
  - intros Hin. apply in_map_iff in Hin. destruct Hin as (e & He1 & He2).
    assert (Hex : existsb (Prisma.collides d) rows = true).
    { apply existsb_exists. exists e. split; [exact He2|].
      unfold Prisma.collides. rewrite He1, String.eqb_refl. reflexivity. }
    congruence.
  - intros m Hm Hin. apply in_present_messageIds in Hin. destruct Hin as (e & He1 & He2).
    assert (Hex : existsb (Prisma.collides d) rows = true).
    { apply existsb_exists. exists e. split; [exact He1|].
      unfold Prisma.collides. rewrite Hm, He2, String.eqb_refl. apply orb_true_r. }
    congruence.
Qed.

Lemma collides_same_item d1 d2 rows n :
  same_item d1 d2 ->
  existsb (Prisma.collides d2) (rows ++ [mkEmail n d1]) = true.
Proof.
  intros H. rewrite existsb_app. apply orb_true_iff. right. simpl.
  rewrite orb_false_r. unfold Prisma.collides, gmailId, messageId. simpl.
  destruct H as [H|(m & H1 & H2)].
  - rewrite H, String.eqb_refl. reflexivity.
  - rewrite H1, H2, String.eqb_refl. apply orb_true_r.
Qed.

(** An insert keeps the unique indexes. *)
Lemma unique_rows_insert d rows :
  unique_rows rows ->
  existsb (Prisma.collides d) rows = false ->
  unique_rows (rows ++ [mkEmail (Prisma.next_id rows) d]).
Proof.
  intros [H1 H2] Hc. destruct (collides_none d rows Hc) as [Hg Hm]. split.
  - rewrite map_app. simpl. apply NoDup_snoc; assumption.
  - rewrite present_messageIds_app.
    change (present_messageIds [mkEmail (Prisma.next_id rows) d])
      with (match in_messageId d with Some m => [m] | None => [] end ++ []).
    destruct (in_messageId d) as [m|] eqn:Em; simpl.
    + apply NoDup_snoc; [assumption|]. apply Hm. reflexivity.
    + rewrite app_nil_r. assumption.
Qed.

(** [saveEmail] keeps the unique indexes, whatever its outcome. *)
Lemma saveEmail_unique w d db :
  unique_rows (emails db) -> unique_rows (emails (final (saveEmail w d db))).
Proof.
  intros Huniq. unfold saveEmail. unfold try_catch, bind. rewrite email_create_run.
  destruct (store_fault w (OpCreateEmail d)) as [x|]; simpl.
  - destruct (is_unique_violation x); exact Huniq.
  - destruct (existsb (Prisma.collides d) (emails db)) eqn:E; simpl.
    + exact Huniq.
    + apply unique_rows_insert; assumption.
Qed.

(** C4.  Saving an item and then saving the same item again (same [gmailId],
    or same [messageId]; in the same or a later cycle, whatever the world
    then is): neither save raises, and the unique indexes of the table hold
    after each, so the table never holds two rows for the item.  When the
    first save stored the item, the second returns null and leaves the
    database as it is, and [processAndSaveEmail] on such an item makes no
    remote call and writes nothing: no attachment work. *)
Theorem idempotent_ingestion (w1 w2 : World) (db : DB) (d1 d2 : EmailCreateInput) :
  unique_rows (emails db) ->
  same_item d1 d2 ->
  let first := saveEmail w1 d1 db in
  let db1 := final first in
  let second := saveEmail w2 d2 db1 in
  (exists r1, outcome first = inr r1)
  /\ unique_rows (emails db1)
  /\ (exists r2, outcome second = inr r2)
  /\ unique_rows (emails (final second))
  /\ (forall e,
        outcome first = inr (Some e) ->
        emails db1 = emails db ++ [e]
        /\ (exists line, second = (inr None, db1, [line]))
        /\ (forall raw,
              truthy_opt (msg_id raw) = true ->
              outcome (parseEmailContent w2 raw db1) = inr d2 ->
              exists lines,
                processAndSaveEmail w2 raw db1 = (inr tt, db1, lines) /\
                forall c, ~ In (Remote c) lines)).
Proof.
  intros Huniq Hsame first db1 second.
  pose proof (saveEmail_unique w1 d1 db Huniq) as Huniq1. fold first db1 in Huniq1.
  split; [exact (saveEmail_no_throw w1 d1 db)|]. split; [exact Huniq1|].
  split; [exact (saveEmail_no_throw w2 d2 db1)|].
  split; [exact (saveEmail_unique w2 d2 db1 Huniq1)|].
  intros e Hfirst.
  destruct (saveEmail_stored w1 d1 db e Hfirst) as (_ & Hfree & He & Hrun).
  assert (Hrows : emails db1 = emails db ++ [e]).
  { subst db1 first. rewrite Hrun. reflexivity. }
  assert (Hthrown : exists x, outcome (Prisma.email_create w2 d2 db1) = inl x).
  { rewrite email_create_run. unfold outcome.
    destruct (store_fault w2 (OpCreateEmail d2)) as [x|]; simpl; [eauto|].
    rewrite Hrows. subst e.
    rewrite (collides_same_item d1 d2 (emails db) _ Hsame). simpl. eauto. }
  destruct Hthrown as [x Hx].
  assert (Hsave := saveEmail_thrown w2 d2 db1 x Hx).
  split; [exact Hrows|]. split.
  - exists (save_error_line d2 x). exact Hsave.
  - intros raw Hraw Hparse.
    exists [save_error_line d2 x; Console LLog (ProcNotSaved (in_gmailId d2))].
    split.
    + exact (processAndSaveEmail_not_saved w2 raw db1 d2 _ Hraw Hparse Hsave).
    + intros c [H|[H|[]]]; [|discriminate H].
      unfold save_error_line in H. destruct (is_unique_violation x); discriminate H.
Qed.

Lemma idempotent_ingestion_witness :
  let w := Sample.m1_ok_m2_throws in
  let d := Sample.parsed "m1" "<1@x>" in
  let first := saveEmail w d (Sample.db (Some "H100")) in
  let db1 := final first in
  let second := saveEmail w d db1 in
  (exists r1, outcome first = inr r1)
  /\ unique_rows (emails db1)
  /\ (exists r2, outcome second = inr r2)
  /\ unique_rows (emails (final second))
  /\ (forall e,
        outcome first = inr (Some e) ->
        emails db1 = emails (Sample.db (Some "H100")) ++ [e]
        /\ (exists line, second = (inr None, db1, [line]))
        /\ (forall raw,
              truthy_opt (msg_id raw) = true ->
              outcome (parseEmailContent w raw db1) = inr d ->
              exists lines,
                processAndSaveEmail w raw db1 = (inr tt, db1, lines) /\
                forall c, ~ In (Remote c) lines)).
Proof.
  apply (idempotent_ingestion Sample.m1_ok_m2_throws Sample.m1_ok_m2_throws
           (Sample.db (Some "H100")) (Sample.parsed "m1" "<1@x>")
           (Sample.parsed "m1" "<1@x>")).
  - split; constructor.
  - left. reflexivity.
Defined.

(** The same message listed in two cycles: one row, and the second cycle
    makes no attachment call. *)
Example same_message_twice :
  let w := Sample.upload_of_b_fails in
  let db1 := final (runEmailSync w (Sample.db (Some "H100"))) in
  let r2 := runEmailSync w db1 in
  map gmailId (emails (final r2)) = ["m1"] /\
  attachments (final r2) = attachments db1 /\
  In (Console LLog (SaveDuplicate "m1")) (trace r2) /\
  (forall a b, ~ In (Remote (AttachmentsGet a b)) (trace r2)).
Proof.
  vm_compute. repeat split; auto 60.
  intros a b H. repeat (destruct H as [H|H]; [discriminate H|]). exact H.
Qed.

(** ** Attachment discovery *)

Lemma findAttachments_all (parts : list MessagePart) :
  Forall (fun p => forall c, findAttachments_part p c = c ++ filter qualifies (flatten p)) parts ->
  forall c, findAttachments parts c = c ++ filter qualifies (all_parts parts).
Proof.
  induction 1 as [|p rest Hp _ IH]; intros c; simpl.
  - rewrite app_nil_r. reflexivity.
  - rewrite IH, Hp. unfold all_parts. simpl.
    rewrite filter_app, app_assoc. reflexivity.
Qed.

Lemma findAttachments_part_spec (p : MessagePart) :
  forall c, findAttachments_part p c = c ++ filter qualifies (flatten p).
Proof.
  induction p as [f m h b|f m h b ps IH] using MessagePart_tree_ind; intros c.
  - simpl. destruct (qualifies (Part f m h b None)); simpl;
      [reflexivity|rewrite app_nil_r; reflexivity].
  - change (findAttachments_part (Part f m h b (Some ps)) c)
      with (findAttachments ps
              (if qualifies (Part f m h b (Some ps))
               then c ++ [Part f m h b (Some ps)] else c)).
    change (flatten (Part f m h b (Some ps)))
      with (Part f m h b (Some ps) :: all_parts ps).
    rewrite (findAttachments_all ps IH). simpl.
    destruct (qualifies (Part f m h b (Some ps))); simpl;
      [rewrite <- app_assoc|]; reflexivity.
Qed.

Lemma findAttachments_spec (parts : list MessagePart) (c : list MessagePart) :
  findAttachments parts c = c ++ filter qualifies (all_parts parts).
Proof.
  apply findAttachments_all. apply Forall_forall. intros p _.
  apply findAttachments_part_spec.
Qed.

Lemma truthy_length (s : string) : truthy s = true -> (0 <? String.length s)%nat = true.
Proof. destruct s; [discriminate|reflexivity]. Qed.

Lemma qualifies_iff (p : MessagePart) :
  qualifies p = true <->
  (exists name, part_filename p = Some name /\ name <> "") /\
  (exists ref, part_attachmentId p = Some ref /\ ref <> "").
Proof.
  unfold qualifies. rewrite !andb_true_iff. split.
  - intros [[H1 _] H2]. split; apply truthy_opt_Some; assumption.
  - intros [(name & Hn & Hn') (ref & Hr & Hr')].
    rewrite Hn, Hr. simpl. rewrite (truthy_nonempty _ Hn'), (truthy_nonempty _ Hr').
    rewrite (truthy_length _ (truthy_nonempty _ Hn')). auto.
Qed.

(** The loop over the collected parts, one step. *)
Lemma processAttachments_cons w rawId saved part rest db :
  let r := processAttachment w rawId saved part db in
  outcome r = inr tt ->
  processAttachments w rawId saved (part :: rest) db =
  (outcome (processAttachments w rawId saved rest (final r)),
   final (processAttachments w rawId saved rest (final r)),
   trace r ++ trace (processAttachments w rawId saved rest (final r))).
Proof.
  intros r Hr. subst r. simpl. unfold bind.
  destruct (processAttachment w rawId saved part db) as [[o d] t].
  unfold outcome in Hr. simpl in Hr. subst o. unfold final, trace. simpl.
  destruct (processAttachments w rawId saved rest d) as [[o' d'] t']. reflexivity.
Qed.

(** C8.  The walk over the part tree collects, in document order, exactly the
    parts of the tree (at any depth) that have a non-empty filename and a
    [body.attachmentId]; a part without an attachment id (content inlined in
    the part, or no body at all) is never collected; and a collected part
    without a MIME type only costs a warning: nothing is transferred or
    written for it, nothing is thrown, and the loop goes on with the next
    part. *)
Theorem attachment_discovery (parts : list MessagePart) (p : MessagePart)
    (w : World) (rawId : string) (saved : Email) (rest : list MessagePart) (db : DB) :
  findAttachments parts [] = filter qualifies (all_parts parts)
  /\ (In p (findAttachments parts []) <->
      In p (all_parts parts)
      /\ (exists name, part_filename p = Some name /\ name <> "")
      /\ (exists ref, part_attachmentId p = Some ref /\ ref <> ""))
  /\ (part_attachmentId p = None -> ~ In p (findAttachments parts []))
  /\ (truthy_opt (part_mimeType p) = false ->
      processAttachment w rawId saved p db = (inr tt, db, [Console LWarn (ProcMalformedPart p)])
      /\ processAttachments w rawId saved (p :: rest) db =
           (outcome (processAttachments w rawId saved rest db),
            final (processAttachments w rawId saved rest db),
            Console LWarn (ProcMalformedPart p)
              :: trace (processAttachments w rawId saved rest db))).
Proof.
  assert (Hspec := findAttachments_spec parts []). simpl in Hspec.
  split; [exact Hspec|]. split; [|split].
  - rewrite Hspec, filter_In, qualifies_iff. tauto.
  - intros Hnone. rewrite Hspec, filter_In, qualifies_iff.
    intros (_ & _ & ref & Href & _). congruence.
  - intros Hmime.
    assert (Hone : processAttachment w rawId saved p db =
                   (inr tt, db, [Console LWarn (ProcMalformedPart p)])).
    { unfold processAttachment. rewrite Hmime. simpl. rewrite !orb_true_r. reflexivity. }
    split; [exact Hone|].
    rewrite processAttachments_cons; rewrite Hone; reflexivity.
Qed.

(** ** Attachment transfer *)

(** What [downloadAttachment] returns as data is never the empty string
    ([res.data.data || null]). *)
Lemma downloadAttachment_data w mid aid db data :
  outcome (downloadAttachment w mid aid db) = inr (Some data) -> truthy data = true.
Proof.
  unfold downloadAttachment, getAuthenticatedClient, Prisma.oAuthToken_findUnique,
    Prisma.faulty, or_undefined.
  unfold_M. unfold outcome.
  run; simpl; intros H; try discriminate H.
  inversion H; subst. assumption.
Qed.

(** [uploadToDrive] only returns a file that has both an id and a link. *)
Lemma uploadToDrive_file w fn mt data db file :
  outcome (uploadToDrive w fn mt data db) = inr file ->
  truthy_opt (file_id file) = true /\ truthy_opt (webViewLink file) = true.
Proof.
  unfold uploadToDrive, getAuthenticatedClient, Prisma.oAuthToken_findUnique, Prisma.faulty.
  unfold_M. unfold outcome.
  run; simpl; intros H; try discriminate H.
  inversion H; subst. apply andb_prop. assumption.
Qed.

Lemma attachment_create_ok w emailId fn mt did durl db :
  store_fault w (OpCreateAttachment emailId fn) = None ->
  Prisma.attachment_create w emailId fn mt did durl db =
  (inr (mkAttachment (Prisma.next_id (attachments db)) fn mt did durl emailId),
   mkDB (oAuthToken db) (emails db)
        (attachments db ++ [mkAttachment (Prisma.next_id (attachments db)) fn mt did durl emailId]),
   []).
Proof.
  intros H. unfold Prisma.attachment_create, Prisma.faulty. rewrite H. reflexivity.
Qed.

(** The loop body on a well-formed part, by cases on the two transfers. *)
Lemma processAttachment_run w db rawId saved part :
  truthy_opt (part_attachmentId part) = true ->
  truthy_opt (part_filename part) = true ->
  truthy_opt (part_mimeType part) = true ->
  store_fault w (OpCreateAttachment (email_id saved) (the (part_filename part))) = None ->
  let fn := the (part_filename part) in
  let mt := the (part_mimeType part) in
  let dl := downloadAttachment w rawId (the (part_attachmentId part)) db in
  processAttachment w rawId saved part db =
  match outcome dl with
  | inl e =>
      (inr tt, db,
       Console LLog (ProcDownloading fn) :: trace dl ++ [Console LError (ProcAttachmentError fn e)])
  | inr None =>
      (inr tt, db,
       Console LLog (ProcDownloading fn) :: trace dl ++ [Console LError (ProcDownloadEmpty fn)])
  | inr (Some data) =>
      let up := uploadToDrive w fn mt data db in
      match outcome up with
      | inl e =>
          (inr tt, db,
           Console LLog (ProcDownloading fn) :: trace dl
             ++ Console LLog (ProcUploading fn) :: trace up
             ++ [Console LError (ProcAttachmentError fn e)])
      | inr file =>
          (inr tt,
           mkDB (oAuthToken db) (emails db)
                (attachments db
                 ++ [mkAttachment (Prisma.next_id (attachments db)) fn mt
                       (the (file_id file)) (the (webViewLink file)) (email_id saved)]),
           Console LLog (ProcDownloading fn) :: trace dl
             ++ Console LLog (ProcUploading fn) :: trace up
             ++ [Console LLog (ProcAttachmentDone fn)])
      end
  end.
Proof.
  intros Haid Hfn Hmt Hfault fn mt dl.
  unfold processAttachment. rewrite Haid, Hfn, Hmt. simpl.
  fold fn. fold mt.
  pose proof (downloadAttachment_data w rawId (the (part_attachmentId part)) db) as Hdata.
  pose proof (downloadAttachment_reads w rawId (the (part_attachmentId part)) db) as Hdl.
  unfold whole in Hdl.
  unfold try_catch, bind. unfold console at 1. unfold emit at 1.
  fold dl in Hdata, Hdl |- *. clearbody dl.
  destruct dl as [[o d] t]. unfold outcome, final, trace in *. simpl in *. subst d.
  destruct o as [e|[data|]]; simpl; [reflexivity| |reflexivity].
  rewrite (Hdata data eq_refl). simpl.
  pose proof (uploadToDrive_file w fn mt data db) as Hfile.
  pose proof (uploadToDrive_reads w fn mt data db) as Hup.
  unfold whole in Hup.
  set (up := uploadToDrive w fn mt data db) in *. clearbody up.
  destruct up as [[o d] t']. unfold outcome, final, trace in *. simpl in *. subst d.
  destruct o as [e|file]; simpl.
  - rewrite <- ?app_assoc. reflexivity.
  - destruct (Hfile file eq_refl) as [Hi Hl]. rewrite Hi, Hl. simpl.
    rewrite (attachment_create_ok w (email_id saved) fn mt _ _ db Hfault).
    simpl. rewrite <- ?app_assoc. simpl. rewrite <- ?app_assoc. reflexivity.
Qed.

(** C5.  For a part that passes the validation of the loop (and a database
    server that does not refuse the insert), an [Attachment] row is written
    exactly when the download returned data and the upload
    returned a file, which then has both an id and a link; the row links the
    stored item to that id and link.  When the download throws or returns
    nothing, or the upload throws (an incomplete answer from Drive is thrown
    by [uploadToDrive]), no row is written.  In every case the loop body ends
    normally, the stored item and the token row are untouched, and the loop
    goes on with the remaining parts. *)
Theorem attachment_atomicity (w : World) (db : DB) (rawId : string) (saved : Email)
    (part : MessagePart) (rest : list MessagePart) :
  truthy_opt (part_attachmentId part) = true ->
  truthy_opt (part_filename part) = true ->
  truthy_opt (part_mimeType part) = true ->
  store_fault w (OpCreateAttachment (email_id saved) (the (part_filename part))) = None ->
  let fn := the (part_filename part) in
  let mt := the (part_mimeType part) in
  let download := outcome (downloadAttachment w rawId (the (part_attachmentId part)) db) in
  let upload := fun data => outcome (uploadToDrive w fn mt data db) in
  let r := processAttachment w rawId saved part db in
  outcome r = inr tt
  /\ emails (final r) = emails db
  /\ oAuthToken (final r) = oAuthToken db
  /\ (forall data file,
        download = inr (Some data) -> upload data = inr file ->
        exists id url,
          data <> "" /\
          file_id file = Some id /\ id <> "" /\
          webViewLink file = Some url /\ url <> "" /\
          attachments (final r) =
            attachments db
            ++ [mkAttachment (Prisma.next_id (attachments db)) fn mt id url (email_id saved)])
  /\ ((forall data, download <> inr (Some data)) ->
      attachments (final r) = attachments db)
  /\ (forall data e,
        download = inr (Some data) -> upload data = inl e ->
        attachments (final r) = attachments db)
  /\ processAttachments w rawId saved (part :: rest) db =
       (outcome (processAttachments w rawId saved rest (final r)),
        final (processAttachments w rawId saved rest (final r)),
        trace r ++ trace (processAttachments w rawId saved rest (final r))).
Proof.
  intros Haid Hfn Hmt Hfault fn mt download upload r.
  pose proof (processAttachment_run w db rawId saved part Haid Hfn Hmt Hfault) as Hrun.
  simpl in Hrun. fold fn mt in Hrun. fold download in Hrun. fold r in Hrun.
  pose proof (processAttachment_no_throw w rawId saved part db) as [[] Hok].
  fold r in Hok.
  split; [exact Hok|].
  split; [exact (processAttachment_emails w rawId saved part db)|].
  split; [exact (processAttachment_token w rawId saved part db)|].
  split; [|split; [|split]].
  - intros data file Hd Hu. rewrite Hd in Hrun. fold (upload data) in Hrun.
    rewrite Hu in Hrun. rewrite Hrun. unfold final. simpl.
    destruct (uploadToDrive_file w fn mt data db file Hu) as [Hi Hl].
    destruct (truthy_opt_Some _ Hi) as (id & Hid & Hid').
    destruct (truthy_opt_Some _ Hl) as (url & Hurl & Hurl').
    exists id, url. rewrite Hid, Hurl. simpl. repeat split; auto.
    intros ->.
    pose proof (downloadAttachment_data w rawId (the (part_attachmentId part)) db "" Hd).
    discriminate.
  - intros Hnone. rewrite Hrun.
    destruct download as [e|[data|]]; [reflexivity| |reflexivity].
    exfalso. apply (Hnone data). reflexivity.
  - intros data e Hd Hu. rewrite Hd in Hrun. fold (upload data) in Hrun.
    rewrite Hu in Hrun. rewrite Hrun. reflexivity.
  - apply processAttachments_cons. exact Hok.
Qed.

Lemma attachment_atomicity_witness :
  let w := Sample.upload_of_b_fails in
  let db := mkDB (Some (Sample.token (Some "H100")))
                 [mkEmail 1 (Sample.parsed "m1" "<1@x>")] [] in
  let saved := mkEmail 1 (Sample.parsed "m1" "<1@x>") in
  let part := Sample.file_part "a.pdf" "application/pdf" "att-a" in
  let rest := @nil MessagePart in
  let fn := the (part_filename part) in
  let mt := the (part_mimeType part) in
  let download := outcome (downloadAttachment w "m1" (the (part_attachmentId part)) db) in
  let upload := fun data => outcome (uploadToDrive w fn mt data db) in
  let r := processAttachment w "m1" saved part db in
  outcome r = inr tt
  /\ emails (final r) = emails db
  /\ oAuthToken (final r) = oAuthToken db
  /\ (forall data file,
        download = inr (Some data) -> upload data = inr file ->
        exists id url,
          data <> "" /\
          file_id file = Some id /\ id <> "" /\
          webViewLink file = Some url /\ url <> "" /\
          attachments (final r) =
            attachments db
            ++ [mkAttachment (Prisma.next_id (attachments db)) fn mt id url (email_id saved)])
  /\ ((forall data, download <> inr (Some data)) ->
      attachments (final r) = attachments db)
  /\ (forall data e,
        download = inr (Some data) -> upload data = inl e ->
        attachments (final r) = attachments db)
  /\ processAttachments w "m1" saved (part :: rest) db =
       (outcome (processAttachments w "m1" saved rest (final r)),
        final (processAttachments w "m1" saved rest (final r)),
        trace r ++ trace (processAttachments w "m1" saved rest (final r))).
Proof.
  apply (attachment_atomicity Sample.upload_of_b_fails
           (mkDB (Some (Sample.token (Some "H100")))
                 [mkEmail 1 (Sample.parsed "m1" "<1@x>")] [])
           "m1" (mkEmail 1 (Sample.parsed "m1" "<1@x>"))
           (Sample.file_part "a.pdf" "application/pdf" "att-a") []);
    reflexivity.
Defined.

(** A cycle over a message with an inlined part and two attachments, the
    upload of the first of which fails: the item is stored, the only
    attachment row is the one of the second attachment, and the failure is
    logged. *)
Example upload_failure_leaves_no_row :
  let r := runEmailSync Sample.upload_of_b_fails (Sample.db (Some "H100")) in
  map gmailId (emails (final r)) = ["m1"] /\
  attachments (final r) =
    [mkAttachment 1 "a.pdf" "application/pdf" "F1" "https://drive.example/F1" 1] /\
  In (Console LError (ProcAttachmentError "b.png" Sample.backend_down)) (trace r) /\
  In (Console LLog (ProcFoundAttachments 2)) (trace r) /\
  cursor (final r) = Some "H101".
Proof. vm_compute. repeat split; auto 60. Qed.

(** ** The fallback listing *)

(** One turn of the [do .. while] loop. *)
Lemma fallback_pages_step w b cp tok msgs db :
  fallback_pages w b cp tok msgs db =
  let head := [Console LLog (ListFallbackPage (S cp) tok);
               Remote (MessagesList (or_undefined tok))] in
  match gmail_messages_list w (S cp) (or_undefined tok) with
  | Rejected e => (inl e, db, head)
  | Resolved res =>
      let msgs' := match mr_messages res with Some ms => msgs ++ ms | None => msgs end in
      if truthy_opt (mr_nextPageToken res) && (S cp <? MAX_INITIAL_FETCH_PAGES)%nat
      then
        match b with
        | S b' =>
            let R := fallback_pages w b' (S cp) (mr_nextPageToken res) msgs' db in
            (outcome R, final R, head ++ trace R)
        | O => (inr (msgs', mr_nextPageToken res, S cp), db, head)
        end
      else (inr (msgs', mr_nextPageToken res, S cp), db, head)
  end.
Proof.
  destruct b as [|b']; simpl; unfold_M;
    destruct (gmail_messages_list w (S cp) (or_undefined tok)) as [res|e]; simpl;
    try reflexivity;
    destruct (truthy_opt (mr_nextPageToken res) && (S cp <? MAX_INITIAL_FETCH_PAGES)%nat);
    try reflexivity.
  destruct (fallback_pages w b' (S cp) (mr_nextPageToken res)
              match mr_messages res with Some ms => msgs ++ ms | None => msgs end db)
    as [[o d] t].
  reflexivity.
Qed.

Lemma more_pages_remain_S w n :
  more_pages_remain w (S n) = more_pages_remain w n && truthy_opt (page_token w (S n)).
Proof.
  unfold more_pages_remain. rewrite seq_S, forallb_app. simpl.
  rewrite andb_true_r. reflexivity.
Qed.

Lemma more_pages_remain_le w n m :
  n <= m -> more_pages_remain w m = true -> more_pages_remain w n = true.
Proof.
  induction 1 as [|m Hle IH]; [trivial|].
  rewrite more_pages_remain_S, andb_true_iff. intros [H _]. exact (IH H).
Qed.

Lemma page_token_S w cp tok res :
  tok = page_token w cp ->
  gmail_messages_list w (S cp) (or_undefined tok) = Resolved res ->
  page_token w (S cp) = mr_nextPageToken res.
Proof. intros -> H. simpl. rewrite H. reflexivity. Qed.

(** The loop stops after page [S cp]. *)
Lemma fallback_stop w cp tok res :
  cp < MAX_INITIAL_FETCH_PAGES ->
  gmail_messages_list w (S cp) (or_undefined tok) = Resolved res ->
  truthy_opt (mr_nextPageToken res) && (S cp <? MAX_INITIAL_FETCH_PAGES)%nat = false ->
  tok = page_token w cp ->
  more_pages_remain w cp = true ->
  ((MAX_INITIAL_FETCH_PAGES <=? S cp)%nat && truthy_opt (mr_nextPageToken res) = true <->
   more_pages_remain w MAX_INITIAL_FETCH_PAGES = true).
Proof.
  intros Hcp Hres Hstop Htok Hmore.
  pose proof (page_token_S w cp tok res Htok Hres) as Hnext.
  apply andb_false_iff in Hstop. destruct Hstop as [Hfalsy|Hcap].
  - rewrite Hfalsy, andb_false_r. split; [discriminate|].
    intros H. apply (more_pages_remain_le w (S cp)) in H; [|lia].
    rewrite more_pages_remain_S, Hnext, Hfalsy, andb_false_r in H. exact H.
  - apply Nat.ltb_ge in Hcap.
    assert (Heq : MAX_INITIAL_FETCH_PAGES = S cp) by lia.
    rewrite Heq, Nat.leb_refl, more_pages_remain_S, Hnext, Hmore. reflexivity.
Qed.

Lemma fallback_pages_spec w : forall b cp tok msgs db,
  cp < MAX_INITIAL_FETCH_PAGES ->
  MAX_INITIAL_FETCH_PAGES <= cp + S b ->
  let R := fallback_pages w b cp tok msgs db in
  pages_fetched (trace R) <= MAX_INITIAL_FETCH_PAGES - cp
  /\ ~ In (Console LWarn ListReachedMaxPages) (trace R)
  /\ (forall m next cp',
        outcome R = inr (m, next, cp') ->
        cp' <= MAX_INITIAL_FETCH_PAGES
        /\ pages_fetched (trace R) = cp' - cp
        /\ cp < cp'
        /\ (tok = page_token w cp ->
            more_pages_remain w cp = true ->
            ((MAX_INITIAL_FETCH_PAGES <=? cp')%nat && truthy_opt next = true <->
             more_pages_remain w MAX_INITIAL_FETCH_PAGES = true))).
Proof.
  assert (Hstopped : forall cp tok msgs db res,
    cp < MAX_INITIAL_FETCH_PAGES ->
    gmail_messages_list w (S cp) (or_undefined tok) = Resolved res ->
    truthy_opt (mr_nextPageToken res) && (S cp <? MAX_INITIAL_FETCH_PAGES)%nat = false ->
    let R : (Exn + (list Message * option string * nat)) * DB * list Event :=
      (inr (msgs, mr_nextPageToken res, S cp), db,
       [Console LLog (ListFallbackPage (S cp) tok);
        Remote (MessagesList (or_undefined tok))]) in
    pages_fetched (trace R) <= MAX_INITIAL_FETCH_PAGES - cp
    /\ ~ In (Console LWarn ListReachedMaxPages) (trace R)
    /\ (forall m next cp',
          outcome R = inr (m, next, cp') ->
          cp' <= MAX_INITIAL_FETCH_PAGES
          /\ pages_fetched (trace R) = cp' - cp
          /\ cp < cp'
          /\ (tok = page_token w cp ->
              more_pages_remain w cp = true ->
              ((MAX_INITIAL_FETCH_PAGES <=? cp')%nat && truthy_opt next = true <->
               more_pages_remain w MAX_INITIAL_FETCH_PAGES = true)))).
  { intros cp tok msgs db res Hcp Hres Hstop R. subst R.
    unfold trace, outcome, pages_fetched. cbn [snd fst filter is_messages_list length]. split; [lia|]. split.
    - intros [H|[H|[]]]; discriminate H.
    - intros m next cp' H. inversion H; subst. split; [lia|]. split; [lia|].
      split; [lia|]. intros Htok Hmore. exact (fallback_stop w cp tok res Hcp Hres Hstop Htok Hmore). }
  induction b as [|b IH]; intros cp tok msgs db Hcp Hb R; subst R;
    rewrite fallback_pages_step; cbv zeta;
    destruct (gmail_messages_list w (S cp) (or_undefined tok)) as [res|e] eqn:Eres.
  - destruct (truthy_opt (mr_nextPageToken res) && (S cp <? MAX_INITIAL_FETCH_PAGES)%nat)
      eqn:Econt.
    + apply andb_prop in Econt. destruct Econt as [_ Hlt]. apply Nat.ltb_lt in Hlt. exfalso. lia.
    + apply Hstopped; assumption.
  - unfold trace, outcome, pages_fetched. cbn [snd fst filter is_messages_list length]. split; [lia|]. split.
    + intros [H|[H|[]]]; discriminate H.
    + intros m next cp' H. discriminate H.
  - destruct (truthy_opt (mr_nextPageToken res) && (S cp <? MAX_INITIAL_FETCH_PAGES)%nat)
      eqn:Econt.
    + apply andb_prop in Econt. destruct Econt as [Htruthy Hlt]. apply Nat.ltb_lt in Hlt.
      set (msgs' := match mr_messages res with Some ms => msgs ++ ms | None => msgs end).
      specialize (IH (S cp) (mr_nextPageToken res) msgs' db Hlt ltac:(lia)).
      cbv zeta in IH. destruct IH as (IH1 & IH2 & IH3).
      set (R := fallback_pages w b (S cp) (mr_nextPageToken res) msgs' db) in *.
      unfold pages_fetched, trace, outcome in *.
      cbn [snd fst filter is_messages_list length app] in *.
      split; [lia|]. split.
      * intros [H|[H|H]]; [discriminate H|discriminate H|]. exact (IH2 H).
      * intros m next cp' H. destruct (IH3 m next cp' H) as (H1 & H2 & H2' & H3).
        split; [exact H1|]. split; [lia|]. split; [lia|].
        intros Htok Hmore. apply H3.
           ++ symmetry. exact (page_token_S w cp tok res Htok Eres).
           ++ rewrite more_pages_remain_S, Hmore,
                (page_token_S w cp tok res Htok Eres), Htruthy. reflexivity.
    + apply Hstopped; assumption.
  - unfold trace, outcome, pages_fetched. cbn [snd fst filter is_messages_list length]. split; [lia|]. split.
    + intros [H|[H|[]]]; discriminate H.
    + intros m next cp' H. discriminate H.
Qed.

Lemma auth_trace w db :
  trace (getAuthenticatedClient w db) = [] \/
  trace (getAuthenticatedClient w db) = [Console LError AuthDecryptFailed].
Proof.
  unfold getAuthenticatedClient, Prisma.oAuthToken_findUnique, Prisma.faulty.
  unfold_M. unfold trace. run; auto.
Qed.

(** The fallback branch of [listNewEmailMessages], in terms of its two
    calls. *)
Lemma listNewEmailMessages_fallback w db :
  let A := getAuthenticatedClient w db in
  let R := fallback_pages w MAX_INITIAL_FETCH_PAGES 0 None [] db in
  listNewEmailMessages w None db =
  match outcome A with
  | inl e => (inl e, db, trace A ++ [Console LError ListAuthFailed])
  | inr _ =>
      match outcome R with
      | inl e =>
          (inl e, db,
           trace A ++ Console LWarn ListFallback :: trace R ++ [Console LError (ListError e)])
      | inr (m, next, cp) =>
          (inr (mkListResult m None), db,
           trace A ++ Console LWarn ListFallback :: trace R
             ++ (if (MAX_INITIAL_FETCH_PAGES <=? cp)%nat && truthy_opt next
                 then [Console LWarn ListReachedMaxPages] else [])
             ++ [Console LLog (ListFallbackFetched (length m))])
      end
  end.
Proof.
  intros A R. unfold listNewEmailMessages. cbn [truthy_opt].
  pose proof (getAuthenticatedClient_reads w db) as HA.
  pose proof (fallback_pages_reads w MAX_INITIAL_FETCH_PAGES 0 None [] db) as HR.
  unfold whole in HA, HR. fold A in HA. fold R in HR.
  subst R. set (loop := fallback_pages w MAX_INITIAL_FETCH_PAGES 0 None []) in *.
  clearbody loop.
  unfold bind at 1. unfold try_catch at 1. fold A. clearbody A.
  destruct A as [[oa da] ta]. unfold outcome, final, trace in *. simpl in HA |- *. subst da.
  destruct oa as [e|[]]; [reflexivity|].
  unfold try_catch at 1. unfold bind at 1. unfold console at 1. unfold emit at 1.
  unfold bind at 1.
  destruct (loop db) as [[or dr] tr]. simpl in HR |- *. subst dr.
  destruct or as [e|[[m next] cp]]; cbn [fst snd].
  - simpl. rewrite <- ?app_assoc. reflexivity.
  - match goal with
    | |- context [if ?c then [Console LWarn ListReachedMaxPages] else []] => destruct c
    end; unfold_M; simpl; rewrite <- ?app_assoc; reflexivity.
Qed.

Lemma pages_fetched_app t1 t2 :
  pages_fetched (t1 ++ t2) = pages_fetched t1 + pages_fetched t2.
Proof. unfold pages_fetched. rewrite filter_app, length_app. reflexivity. Qed.

Lemma pages_fetched_console l m t :
  pages_fetched (Console l m :: t) = pages_fetched t.
Proof. reflexivity. Qed.

Lemma trace_run A (o : Exn + A) d t : trace (o, d, t) = t.
Proof. reflexivity. Qed.

Lemma fallback_contract_listing (w : World) (db : DB) :
  let r := listNewEmailMessages w None db in
  pages_fetched (trace r) <= MAX_INITIAL_FETCH_PAGES
  /\ final r = db
  /\ (forall res, outcome r = inr res -> historyId res = None)
  /\ (In (Console LWarn ListReachedMaxPages) (trace r) <->
      (exists res, outcome r = inr res)
      /\ more_pages_remain w MAX_INITIAL_FETCH_PAGES = true)
  /\ (In (Console LWarn ListReachedMaxPages) (trace r) ->
      pages_fetched (trace r) = MAX_INITIAL_FETCH_PAGES).
Proof.
  intros r. subst r.
  rewrite listNewEmailMessages_fallback; cbv zeta.
  pose proof (fallback_pages_spec w MAX_INITIAL_FETCH_PAGES 0 None [] db
                ltac:(unfold MAX_INITIAL_FETCH_PAGES; lia) ltac:(lia)) as HS.
  cbv zeta in HS. destruct HS as (HS1 & HS2 & HS3).
  set (R := fallback_pages w MAX_INITIAL_FETCH_PAGES 0 None [] db) in *.
  assert (HA0 : pages_fetched (trace (getAuthenticatedClient w db)) = 0
                /\ ~ In (Console LWarn ListReachedMaxPages)
                        (trace (getAuthenticatedClient w db))).
  { destruct (auth_trace w db) as [-> | ->]; split; try reflexivity;
      simpl; intuition discriminate. }
  destruct HA0 as [HA1 HA2].
  set (A := getAuthenticatedClient w db) in *.
  destruct (outcome A) as [e|[]] eqn:EA.
  - rewrite !trace_run. unfold final, outcome. cbn [fst snd].
    rewrite pages_fetched_app, HA1. cbn [pages_fetched filter is_messages_list length Nat.add].
    assert (Hnow : ~ In (Console LWarn ListReachedMaxPages)
                      (trace A ++ [Console LError ListAuthFailed])).
    { rewrite in_app_iff. simpl. intuition discriminate. }
    split; [lia|]. split; [reflexivity|]. split; [intros res H; discriminate H|]. split.
    + split; [contradiction|]. intros [[res H] _]. discriminate H.
    + contradiction.
  - destruct (outcome R) as [e|[[m next] cp]] eqn:ER.
    + rewrite !trace_run. unfold final, outcome. cbn [fst snd].
      rewrite pages_fetched_app, HA1, pages_fetched_console, pages_fetched_app.
      cbn [pages_fetched filter is_messages_list length Nat.add].
      fold (pages_fetched (trace R)).
      assert (Hnow : ~ In (Console LWarn ListReachedMaxPages)
                        (trace A ++ Console LWarn ListFallback
                           :: trace R ++ [Console LError (ListError e)])).
      { rewrite in_app_iff. simpl. rewrite in_app_iff. simpl. intuition discriminate. }
      split; [lia|]. split; [reflexivity|]. split; [intros res H; discriminate H|]. split.
      * split; [contradiction|]. intros [[res H] _]. discriminate H.
      * contradiction.
    + destruct (HS3 m next cp eq_refl) as (Hcp & Hpages & _ & Hiff).
      specialize (Hiff eq_refl eq_refl).
      rewrite !trace_run. unfold final, outcome. cbn [fst snd].
      rewrite pages_fetched_app, HA1, pages_fetched_console, !pages_fetched_app, Hpages.
      assert (Hwarn : In (Console LWarn ListReachedMaxPages)
                        (trace A ++ Console LWarn ListFallback
                           :: trace R
                           ++ (if (MAX_INITIAL_FETCH_PAGES <=? cp)%nat && truthy_opt next
                               then [Console LWarn ListReachedMaxPages] else [])
                           ++ [Console LLog (ListFallbackFetched (length m))])
                      <-> (MAX_INITIAL_FETCH_PAGES <=? cp)%nat && truthy_opt next = true).
      { destruct ((MAX_INITIAL_FETCH_PAGES <=? cp)%nat && truthy_opt next);
          rewrite in_app_iff; cbn [In app]; rewrite in_app_iff; cbn [In];
          intuition discriminate. }
      assert (Hextra : pages_fetched
                         (if (MAX_INITIAL_FETCH_PAGES <=? cp)%nat && truthy_opt next
                          then [Console LWarn ListReachedMaxPages] else []) = 0).
      { destruct ((MAX_INITIAL_FETCH_PAGES <=? cp)%nat && truthy_opt next); reflexivity. }
      rewrite Hextra. cbn [pages_fetched filter is_messages_list length Nat.add].
      split; [lia|]. split; [reflexivity|].
      split; [intros res H; inversion H; reflexivity|]. split.
      * rewrite Hwarn, Hiff. split; [intros H; split; [eauto|exact H]|intros [_ H]; exact H].
      * rewrite Hwarn. intros H. apply andb_prop in H. destruct H as [H _].
        apply Nat.leb_le in H. lia.
Qed.

(** The budget of [fallback_pages] is immaterial once it covers the pages
    left under the cap: the exhausted-budget branch is never taken. *)
Lemma fallback_pages_budget w : forall b cp tok msgs db,
  MAX_INITIAL_FETCH_PAGES <= cp + S b ->
  fallback_pages w (S b) cp tok msgs db = fallback_pages w b cp tok msgs db.
Proof.
  induction b as [|b IH]; intros cp tok msgs db Hb;
    rewrite (fallback_pages_step w (S _)), (fallback_pages_step w _ cp); cbv zeta;
    destruct (gmail_messages_list w (S cp) (or_undefined tok)) as [res|e]; try reflexivity;
    destruct (truthy_opt (mr_nextPageToken res) && (S cp <? MAX_INITIAL_FETCH_PAGES)%nat)
      eqn:Econt; try reflexivity.
  - apply andb_prop in Econt. destruct Econt as [_ Hlt]. apply Nat.ltb_lt in Hlt.
    exfalso. lia.
  - rewrite IH by lia. reflexivity.
Qed.

(** The scenario of the specification: no stored cursor, three ids over two
    pages: the cursor is still absent after the cycle. *)
Example fallback_cursor_remains_absent :
  let r := runEmailSync Sample.two_pages (Sample.db None) in
  pages_fetched (trace r) = 2 /\
  In (Console LLog (SyncFound 3)) (trace r) /\
  ~ In (Console LWarn ListReachedMaxPages) (trace r) /\
  cursor (final r) = None.
Proof.
  vm_compute. repeat split; auto 60.
  intros H. repeat (destruct H as [H|H]; [discriminate H|]). exact H.
Qed.

(** A mailbox that always reports one more page: five pages are fetched, the
    warning is printed, and no cursor is returned. *)
Example fallback_stops_at_the_cap :
  let r := listNewEmailMessages Sample.endless None (Sample.db None) in
  pages_fetched (trace r) = 5 /\
  In (Console LWarn ListReachedMaxPages) (trace r) /\
  (exists ms, outcome r = inr (mkListResult ms None) /\ length ms = 5).
Proof.
  vm_compute. repeat split; auto 60. eexists. split; reflexivity.
Qed.

(** ** Per-item fault isolation *)

Lemma listing_auth_ok w start db res :
  outcome (listNewEmailMessages w start db) = inr res ->
  outcome (getAuthenticatedClient w db) = inr tt.
Proof.
  unfold listNewEmailMessages. unfold bind at 1. unfold try_catch at 1.
  destruct (getAuthenticatedClient w db) as [[[e|[]] d] t]; unfold outcome; simpl.
  - discriminate.
  - reflexivity.
Qed.

Lemma rows_from_app n ds1 ds2 :
  rows_from n (ds1 ++ ds2) = rows_from n ds1 ++ rows_from (n + length ds1) ds2.
Proof.
  revert n. induction ds1 as [|d ds1 IH]; intros n; simpl.
  - rewrite Nat.add_0_r. reflexivity.
  - rewrite IH, Nat.add_succ_r. reflexivity.
Qed.

Lemma rows_from_length n ds : length (rows_from n ds) = length ds.
Proof. revert n. induction ds; intros n; simpl; auto. Qed.

Lemma unique_rows_prefix rows rows' : unique_rows (rows ++ rows') -> unique_rows rows.
Proof.
  unfold unique_rows. rewrite map_app, present_messageIds_app.
  intros [H1 H2]. split; eapply NoDup_app_remove_r; eassumption.
Qed.

(** A row that the unique indexes accept after [rows] collides with none of
    them. *)
Lemma unique_rows_free rows n d rest :
  unique_rows (rows ++ mkEmail n d :: rest) ->
  existsb (Prisma.collides d) rows = false.
Proof.
  unfold unique_rows. rewrite map_app, present_messageIds_app.
  intros [H1 H2]. simpl in H1.
  apply NoDup_remove_2 in H1.
  destruct (existsb (Prisma.collides d) rows) eqn:E; [|reflexivity]. exfalso.
  apply existsb_exists in E. destruct E as (e & He & Hc).
  unfold Prisma.collides in Hc. apply orb_true_iff in Hc. destruct Hc as [Hc|Hc].
  - apply String.eqb_eq in Hc. apply H1. rewrite in_app_iff. left.
    unfold gmailId at 1. simpl. rewrite Hc. apply in_map. exact He.
  - destruct (in_messageId d) as [m|] eqn:Hm; [|discriminate Hc].
    destruct (messageId e) as [m'|] eqn:Hm'; [|discriminate Hc].
    apply String.eqb_eq in Hc. subst m'.
    change (present_messageIds (mkEmail n d :: rest))
      with (match in_messageId d with Some x => [x] | None => [] end
            ++ present_messageIds rest) in H2.
    rewrite Hm in H2. simpl in H2.
    apply NoDup_remove_2 in H2. apply H2. rewrite in_app_iff. left.
    apply in_present_messageIds. exists e. split; assumption.
Qed.

Lemma saveEmail_ok w d db :
  store_fault w (OpCreateEmail d) = None ->
  existsb (Prisma.collides d) (emails db) = false ->
  saveEmail w d db =
  (inr (Some (mkEmail (Prisma.next_id (emails db)) d)),
   mkDB (oAuthToken db) (emails db ++ [mkEmail (Prisma.next_id (emails db)) d]) (attachments db),
   []).
Proof.
  intros Hf Hc. unfold saveEmail. unfold try_catch, bind.
  rewrite email_create_run, Hf, Hc. reflexivity.
Qed.

(** A header that goes through: the item is inserted and the succeeded
    counter is the one incremented, whatever happens to its attachments. *)
Lemma processHeader_stored w h d db :
  fetches w h d ->
  outcome (getAuthenticatedClient w db) = inr tt ->
  existsb (Prisma.collides d) (emails db) = false ->
  exists db1 t1,
    processHeader w h db = (inr true, db1, t1) /\
    emails db1 = emails db ++ [mkEmail (Prisma.next_id (emails db)) d] /\
    oAuthToken db1 = oAuthToken db.
Proof.
  intros (id & raw & Hh & Hid & Hget & Hraw & Hparse & Hfault) Hauth Hfree.
  set (e := mkEmail (Prisma.next_id (emails db)) d).
  set (db0 := mkDB (oAuthToken db) (emails db ++ [e]) (attachments db)).
  assert (Hproc : processAndSaveEmail w raw db =
                  (outcome (processStoredEmail w raw e db0),
                   final (processStoredEmail w raw e db0),
                   trace (processStoredEmail w raw e db0))).
  { unfold processAndSaveEmail. rewrite Hraw. simpl.
    unfold bind at 1. unfold try_catch at 1. unfold bind at 1.
    rewrite parseEmailContent_run, Hparse. simpl.
    unfold bind at 1. unfold try_catch at 1.
    rewrite (saveEmail_ok w d db Hfault Hfree). fold e. fold db0.
    destruct (processStoredEmail w raw e db0) as [[o d'] t']. reflexivity. }
  destruct (processStoredEmail_no_throw w raw e db0) as [[] Hok].
  exists (final (processStoredEmail w raw e db0)).
  eexists. split; [|split].
  - unfold processHeader. rewrite Hh. simpl. rewrite (truthy_nonempty _ Hid). simpl.
    unfold try_catch at 1. unfold bind at 1. unfold console at 1. unfold emit at 1.
    unfold bind at 1.
    rewrite (getEmailContent_run w db id Hid Hauth), Hget.
    unfold bind at 1. rewrite Hproc, Hok. reflexivity.
  - rewrite (processStoredEmail_emails w raw e db0). reflexivity.
  - rewrite (processStoredEmail_token w raw e db0). reflexivity.
Qed.

(** A header whose fetch is rejected (and not with a 404): the exception is
    caught by the loop body, logged with the id, and the failed counter is
    the one incremented; nothing is written. *)
Lemma processHeader_fetch_throws w h id e db :
  msg_id h = Some id -> id <> "" ->
  outcome (getAuthenticatedClient w db) = inr tt ->
  gmail_messages_get w id = Rejected e ->
  is_not_found e = false ->
  processHeader w h db =
  (inr false, db,
   [Console LLog (SyncProcessing id);
    Console LLog (GetFetching id); Remote (MessagesGet id);
    Console LError (GetError id e);
    Console LError (SyncPipelineError id e)]).
Proof.
  intros Hh Hid Hauth Hget H404.
  unfold processHeader. rewrite Hh. simpl. rewrite (truthy_nonempty _ Hid). simpl.
  unfold try_catch at 1. unfold bind at 1. unfold console at 1. unfold emit at 1.
  unfold bind at 1.
  rewrite (getEmailContent_run w db id Hid Hauth), Hget, H404. reflexivity.
Qed.

Lemma processBatch_app w l1 : forall l2 s f db,
  processBatch w (l1 ++ l2) s f db =
  match processBatch w l1 s f db with
  | (inr (s', f'), db1, t1) =>
      (outcome (processBatch w l2 s' f' db1),
       final (processBatch w l2 s' f' db1),
       t1 ++ trace (processBatch w l2 s' f' db1))
  | (inl e, db1, t1) => (inl e, db1, t1)
  end.
Proof.
  induction l1 as [|h l1 IH]; intros l2 s f db.
  - simpl. unfold ret. destruct (processBatch w l2 s f db) as [[o d] t]. reflexivity.
  - simpl. unfold bind.
    destruct (processHeader w h db) as [[[e|ok] db1] t1]; [reflexivity|].
    destruct ok.
    + rewrite IH. destruct (processBatch w l1 (S s) f db1) as [[[e|[s' f']] d] t]; simpl.
      * reflexivity.
      * rewrite app_assoc. reflexivity.
    + rewrite IH. destruct (processBatch w l1 s (S f) db1) as [[[e|[s' f']] d] t]; simpl.
      * reflexivity.
      * rewrite app_assoc. reflexivity.
Qed.

(** A batch in which every header goes through. *)
Lemma processBatch_all_stored w : forall hs ds s f db,
  Forall2 (fetches w) hs ds ->
  outcome (getAuthenticatedClient w db) = inr tt ->
  unique_rows (emails db ++ rows_from (Prisma.next_id (emails db)) ds) ->
  exists db' tb,
    processBatch w hs s f db = (inr (s + length hs, f), db', tb) /\
    emails db' = emails db ++ rows_from (Prisma.next_id (emails db)) ds /\
    oAuthToken db' = oAuthToken db.
Proof.
  intros hs ds s f db H. revert s f db.
  induction H as [|h d hs ds Hh _ IH]; intros s f db Hauth Huniq.
  - exists db, []. simpl. rewrite Nat.add_0_r, app_nil_r. auto.
  - simpl in Huniq.
    destruct (processHeader_stored w h d db Hh Hauth
                (unique_rows_free _ _ _ _ Huniq)) as (db1 & t1 & H1 & H2 & H3).
    assert (Hauth1 := auth_same_token w db db1 H3 Hauth).
    assert (Hnext : Prisma.next_id (emails db1) = S (Prisma.next_id (emails db))).
    { unfold Prisma.next_id. rewrite H2, length_app. simpl. lia. }
    assert (Huniq1 : unique_rows (emails db1 ++ rows_from (Prisma.next_id (emails db1)) ds)).
    { rewrite Hnext, H2, <- app_assoc. exact Huniq. }
    destruct (IH (S s) f db1 Hauth1 Huniq1) as (db' & tb & H4 & H5 & H6).
    exists db', (t1 ++ tb). split; [|split].
    + rewrite (processBatch_cons w h hs s f db _ _ _ H1). cbv zeta.
      rewrite H4. unfold outcome, final, trace. simpl.
      rewrite Nat.add_succ_r. reflexivity.
    + rewrite H5, Hnext, H2, <- app_assoc. reflexivity.
    + congruence.
Qed.

(** C3.  A batch of N headers in which the fetch of one, [k], is rejected and
    every other header goes through without a failure (it is fetched, parsed
    and inserted, none being a duplicate): the exception is caught by the loop
    body and logged with the id of [k], the summary counts N-1 succeeded and
    1 failed, the N-1 other items are the rows added to the table, in batch
    order, and the cursor returned with the batch is persisted. *)
Theorem per_item_fault_isolation (w : World) (db : DB) (t : OAuthToken)
    (res : ListNewEmailMessagesResult) (c : string)
    (before after : list Message) (k : Message) (idk : string) (e : Exn)
    (ds1 ds2 : list EmailCreateInput) :
  store_fault w OpFindTokenSync = None ->
  oAuthToken db = Some t ->
  listing w db = inr res ->
  historyId res = Some c ->
  c <> "" ->
  store_fault w (OpUpdateCursor c) = None ->
  messages res = before ++ k :: after ->
  msg_id k = Some idk ->
  idk <> "" ->
  gmail_messages_get w idk = Rejected e ->
  is_not_found e = false ->
  Forall2 (fetches w) before ds1 ->
  Forall2 (fetches w) after ds2 ->
  unique_rows (emails db ++ rows_from (Prisma.next_id (emails db)) (ds1 ++ ds2)) ->
  let r := runEmailSync w db in
  let n := length (messages res) in
  outcome r = inr tt
  /\ emails (final r) = emails db ++ rows_from (Prisma.next_id (emails db)) (ds1 ++ ds2)
  /\ length (emails (final r)) = length (emails db) + (n - 1)
  /\ In (Console LError (SyncPipelineError idk e)) (trace r)
  /\ In (Console LLog (SyncSummary (n - 1) 1)) (trace r)
  /\ cursor (final r) = Some c.
Proof.
  intros Hfind Htok Hlist Hc Hc' Hupd Hmsgs Hk Hidk Hget H404 Hbefore Hafter Huniq r n.
  pose proof (listing_token w db t res Htok Hlist) as Hrefresh.
  destruct (listing_run w db _ _ Htok Hlist) as [tl HL].
  assert (Hauth : outcome (getAuthenticatedClient w db) = inr tt).
  { apply (listing_auth_ok w (or_undefined (lastHistoryId t)) db res).
    rewrite HL. reflexivity. }
  pose proof (Forall2_length Hbefore) as Hlen1.
  pose proof (Forall2_length Hafter) as Hlen2.
  rewrite rows_from_app, app_assoc in Huniq.
  (* the headers before k *)
  destruct (processBatch_all_stored w before ds1 0 0 db Hbefore Hauth
              (unique_rows_prefix _ _ Huniq)) as (db1 & t1 & HB1 & He1 & Ht1).
  assert (Hauth1 := auth_same_token w db db1 Ht1 Hauth).
  (* k *)
  pose proof (processHeader_fetch_throws w k idk e db1 Hk Hidk Hauth1 Hget H404) as HK.
  (* the headers after k *)
  assert (Hnext : Prisma.next_id (emails db1) = Prisma.next_id (emails db) + length ds1).
  { unfold Prisma.next_id. rewrite He1, length_app, rows_from_length. reflexivity. }
  assert (Huniq1 : unique_rows (emails db1 ++ rows_from (Prisma.next_id (emails db1)) ds2)).
  { rewrite Hnext, He1. exact Huniq. }
  destruct (processBatch_all_stored w after ds2 (0 + length before) 1 db1 Hafter Hauth1 Huniq1)
    as (db2 & t2 & HB2 & He2 & Ht2).
  (* the whole batch *)
  assert (HB : processBatch w (messages res) 0 0 db =
               (inr (n - 1, 1), db2,
                t1 ++ [Console LLog (SyncProcessing idk);
                       Console LLog (GetFetching idk); Remote (MessagesGet idk);
                       Console LError (GetError idk e);
                       Console LError (SyncPipelineError idk e)] ++ t2)).
  { rewrite Hmsgs, processBatch_app, HB1.
    rewrite (processBatch_cons w k after _ _ db1 _ _ _ HK). cbv zeta.
    rewrite HB2. unfold outcome, final, trace. simpl.
    subst n. rewrite Hmsgs, length_app. simpl.
    replace (length before + S (length after) - 1) with (length before + length after) by lia.
    reflexivity. }
  assert (Hne : messages res <> []).
  { rewrite Hmsgs. intros H. apply app_eq_nil in H. destruct H as [_ H]. discriminate H. }
  pose proof (runEmailSync_batch w db t res c tl _ _ db2 _
                Hfind Htok Hrefresh HL Hne Hc Hc' Hupd HB) as Hrun.
  subst r. rewrite Hrun. unfold outcome, final, trace. cbn [fst snd emails].
  assert (Hrows : emails db2 = emails db ++ rows_from (Prisma.next_id (emails db)) (ds1 ++ ds2)).
  { rewrite He2, Hnext, He1, rows_from_app, app_assoc. reflexivity. }
  split; [reflexivity|]. split; [exact Hrows|]. split; [|split; [|split]].
  - rewrite Hrows, length_app, rows_from_length, length_app.
    subst n. rewrite Hmsgs, length_app. simpl. lia.
  - right. right. apply in_or_app. right. right.
    apply in_or_app. left. apply in_or_app. right.
    apply in_or_app. left. simpl. auto 10.
  - right. right. apply in_or_app. right. right.
    apply in_or_app. right. left. reflexivity.
  - reflexivity.
Qed.

Lemma per_item_fault_isolation_witness :
  let w := Sample.m1_ok_m2_throws in
  let db := Sample.db (Some "H100") in
  let r := runEmailSync w db in
  outcome r = inr tt
  /\ emails (final r) = emails db ++ rows_from (Prisma.next_id (emails db))
                                       ([Sample.parsed "m1" "<1@x>"] ++ [])
  /\ length (emails (final r)) = length (emails db) + (2 - 1)
  /\ In (Console LError (SyncPipelineError "m2" Sample.backend_down)) (trace r)
  /\ In (Console LLog (SyncSummary (2 - 1) 1)) (trace r)
  /\ cursor (final r) = Some "H101".
Proof.
  apply (per_item_fault_isolation Sample.m1_ok_m2_throws (Sample.db (Some "H100"))
           (Sample.token (Some "H100"))
           (mkListResult [Sample.stub "m1"; Sample.stub "m2"] (Some "H101")) "H101"
           [Sample.stub "m1"] [] (Sample.stub "m2") "m2" Sample.backend_down
           [Sample.parsed "m1" "<1@x>"] []);
    try first [reflexivity | discriminate].
  - constructor; [|constructor].
    exists "m1", (Sample.full "m1" "<1@x>" []).
    repeat split; try reflexivity. discriminate.
  - constructor.
  - split; simpl; (constructor; [intros []|constructor]).
Defined.

(** ** The secret cipher *)

Module EncryptionFacts.
Import Encryption.

Lemma hex_roundtrip_byte (b : ascii) (rest : string) :
  bytes_of_hex (String (hex_char (nat_of_ascii b / 16))
                  (String (hex_char (nat_of_ascii b mod 16)) rest))
  = b :: bytes_of_hex rest.
Proof.
  destruct b as [[] [] [] [] [] [] [] []]; reflexivity.
Qed.

Lemma bytes_of_hex_of_bytes (bs : bytes) : bytes_of_hex (hex_of_bytes bs) = bs.
Proof.
  induction bs as [|b bs IH]; [reflexivity|].
  cbn [hex_of_bytes]. rewrite hex_roundtrip_byte, IH. reflexivity.
Qed.

Lemma utf8_decode_encode (s : string) : utf8_decode (utf8_encode s) = s.
Proof. apply string_of_list_ascii_of_string. Qed.

Lemma xorb_cancel (x y : bool) : xorb (xorb x y) y = x.
Proof. destruct x, y; reflexivity. Qed.

Lemma xor_ascii_cancel (a b : ascii) : xor_ascii (xor_ascii a b) b = a.
Proof. destruct a, b. simpl. rewrite !xorb_cancel. reflexivity. Qed.

Lemma xor_bytes_cancel (x y : bytes) :
  length x <= length y -> xor_bytes (xor_bytes x y) y = x.
Proof.
  revert y. induction x as [|a x IH]; intros [|b y] H; simpl in *; try reflexivity; try lia.
  rewrite xor_ascii_cancel, IH by lia. reflexivity.
Qed.

Lemma xor_bytes_length (x y : bytes) :
  length x = length y -> length (xor_bytes x y) = length x.
Proof.
  revert y. induction x as [|a x IH]; intros [|b y] H; simpl in *; try reflexivity; try lia.
  rewrite IH by lia. reflexivity.
Qed.

Lemma firstn_block (x y : bytes) : length x = BLOCK -> firstn BLOCK (x ++ y) = x.
Proof.
  intros H. rewrite firstn_app, (firstn_all2 x) by lia.
  replace (BLOCK - length x) with 0 by lia. rewrite firstn_O, app_nil_r. reflexivity.
Qed.

Lemma skipn_block (x y : bytes) : length x = BLOCK -> skipn BLOCK (x ++ y) = y.
Proof.
  intros H. rewrite skipn_app, (skipn_all2 x) by lia.
  replace (BLOCK - length x) with 0 by lia. reflexivity.
Qed.

Section Mode.

Variables E D : bytes -> bytes -> bytes.
Variable k : bytes.
Hypothesis DE : forall b, length b = BLOCK -> D k (E k b) = b.
Hypothesis Elen : forall b, length b = BLOCK -> length (E k b) = BLOCK.

Lemma cbc_encrypt_length : forall n prev pt,
  length pt = BLOCK * n -> length prev = BLOCK ->
  length (cbc_encrypt E k n prev pt) = BLOCK * n.
Proof.
  induction n as [|n IH]; intros prev pt Hpt Hprev; [simpl; lia|].
  cbn [cbc_encrypt]. 
  assert (Hf : length (firstn BLOCK pt) = BLOCK) by (rewrite length_firstn; lia).
  assert (Hx : length (xor_bytes (firstn BLOCK pt) prev) = BLOCK)
    by (rewrite xor_bytes_length; lia).
  rewrite length_app, (Elen _ Hx), IH.
  - lia.
  - rewrite length_skipn. lia.
  - exact (Elen _ Hx).
Qed.

Lemma cbc_decrypt_encrypt : forall n prev pt,
  length pt = BLOCK * n -> length prev = BLOCK ->
  cbc_decrypt D k n prev (cbc_encrypt E k n prev pt) = pt.
Proof.
  induction n as [|n IH]; intros prev pt Hpt Hprev.
  - destruct pt; [reflexivity|]. simpl in Hpt. lia.
  - cbn [cbc_encrypt cbc_decrypt].
    assert (Hf : length (firstn BLOCK pt) = BLOCK) by (rewrite length_firstn; lia).
    assert (Hx : length (xor_bytes (firstn BLOCK pt) prev) = BLOCK)
      by (rewrite xor_bytes_length; lia).
    rewrite (firstn_block _ _ (Elen _ Hx)), (skipn_block _ _ (Elen _ Hx)).
    rewrite (DE _ Hx), xor_bytes_cancel by lia.
    rewrite IH.
    + apply firstn_skipn.
    + rewrite length_skipn. lia.
    + exact (Elen _ Hx).
Qed.

End Mode.

Lemma pad_count (bs : bytes) :
  let n := BLOCK - length bs mod BLOCK in
  1 <= n <= BLOCK /\ length bs + n = BLOCK * (length bs / BLOCK + 1).
Proof.
  intros n. subst n. unfold BLOCK.
  pose proof (Nat.mod_upper_bound (length bs) 16 ltac:(lia)) as Hm.
  pose proof (Nat.div_mod_eq (length bs) 16) as Hd.
  lia.
Qed.

Lemma pkcs7_pad_length (bs : bytes) :
  length (pkcs7_pad bs) = BLOCK * (length bs / BLOCK + 1).
Proof.
  unfold pkcs7_pad. rewrite length_app, repeat_length.
  exact (proj2 (pad_count bs)).
Qed.

Lemma last_byte_repeat (bs : bytes) (c : ascii) (n : nat) :
  last_byte (bs ++ repeat c (S n)) = Some c.
Proof.
  induction bs as [|b bs IH].
  - simpl. induction n as [|n IHn]; [reflexivity|]. exact IHn.
  - change ((b :: bs) ++ repeat c (S n)) with (b :: (bs ++ repeat c (S n))).
    destruct (bs ++ repeat c (S n)) as [|x l] eqn:El.
    + destruct bs; discriminate El.
    + exact IH.
Qed.

Lemma forallb_repeat (c : ascii) (n : nat) : forallb (Ascii.eqb c) (repeat c n) = true.
Proof. induction n; simpl; [reflexivity|]. rewrite Ascii.eqb_refl. exact IHn. Qed.

Lemma pkcs7_unpad_pad (bs : bytes) : pkcs7_unpad (pkcs7_pad bs) = Some bs.
Proof.
  unfold pkcs7_unpad, pkcs7_pad.
  destruct (pad_count bs) as [[Hn1 Hn2] _].
  set (n := BLOCK - length bs mod BLOCK) in *.
  destruct n as [|n']; [lia|].
  rewrite last_byte_repeat.
  assert (Hnat : nat_of_ascii (ascii_of_nat (S n')) = S n').
  { apply nat_ascii_embedding. unfold BLOCK in Hn2. lia. }
  cbv zeta. rewrite Hnat, length_app, repeat_length.
  replace (length bs + S n' - S n') with (length bs) by lia.
  rewrite skipn_app, skipn_all, Nat.sub_diag, firstn_app, firstn_all, Nat.sub_diag.
  cbn [skipn firstn app]. rewrite app_nil_r, forallb_repeat.
  replace (1 <=? S n')%nat with true by (symmetry; apply Nat.leb_le; lia).
  replace (S n' <=? BLOCK)%nat with true by (symmetry; apply Nat.leb_le; lia).
  replace (S n' <=? length bs + S n')%nat with true by (symmetry; apply Nat.leb_le; lia).
  reflexivity.
Qed.

Lemma bytes_of_hex_length : forall n s,
  all_hex s = true -> String.length s = 2 * n -> length (bytes_of_hex s) = n.
Proof.
  induction n as [|n IH]; intros s Hhex Hlen.
  - destruct s; [reflexivity|discriminate Hlen].
  - destruct s as [|a [|b rest]]; try (simpl in Hlen; lia).
    cbn [all_hex] in Hhex. cbn [bytes_of_hex].
    destruct (hex_digit a); [|discriminate Hhex].
    destruct (hex_digit b); [|discriminate Hhex].
    cbn [length]. f_equal. apply IH; [exact Hhex|]. simpl in Hlen. lia.
Qed.

(** A module loaded from an environment whose two variables are hexadecimal
    has a 32-byte key and a 16-byte IV. *)
Lemma load_sizes env k i m :
  ENCRYPTION_KEY env = Some k -> ENCRYPTION_IV env = Some i ->
  all_hex k = true -> all_hex i = true ->
  load env = inr m ->
  length (key m) = KEY_LENGTH /\ length (iv m) = BLOCK.
Proof.
  intros Hk Hi Hhk Hhi. unfold load. rewrite Hk, Hi.
  destruct (truthy k && (String.length k =? 64)%nat) eqn:Ek; [|discriminate].
  destruct (truthy i && (String.length i =? 32)%nat) eqn:Ei; [|discriminate].
  intros H. inversion H; subst m. simpl.
  apply andb_prop in Ek. destruct Ek as [_ Ek]. apply Nat.eqb_eq in Ek.
  apply andb_prop in Ei. destruct Ei as [_ Ei]. apply Nat.eqb_eq in Ei.
  split; apply bytes_of_hex_length; assumption.
Qed.

Section RoundTrip.

Variables E D : bytes -> bytes -> bytes.
Hypothesis DE : forall k b, length k = KEY_LENGTH -> length b = BLOCK -> D k (E k b) = b.
Hypothesis Elen : forall k b, length k = KEY_LENGTH -> length b = BLOCK -> length (E k b) = BLOCK.

Lemma decrypt_encrypt (m : Keys) (p : string) :
  length (key m) = KEY_LENGTH -> length (iv m) = BLOCK ->
  exists c, encrypt E m p = inr c /\ decrypt D m c = inr p.
Proof.
  intros Hkey Hiv.
  assert (Hcreate : createCipheriv m = inr tt).
  { unfold createCipheriv. rewrite Hkey, Hiv, !Nat.eqb_refl. reflexivity. }
  unfold encrypt, decrypt. rewrite Hcreate. cbv zeta.
  eexists. split; [reflexivity|].
  rewrite bytes_of_hex_of_bytes.
  set (padded := pkcs7_pad (utf8_encode p)).
  set (n := length (utf8_encode p) / BLOCK + 1).
  assert (Hpad : length padded = BLOCK * n) by apply pkcs7_pad_length.
  assert (Hblocks : length padded / BLOCK = n).
  { rewrite Hpad, Nat.mul_comm. apply Nat.div_mul. unfold BLOCK. lia. }
  rewrite Hblocks.
  assert (Hct : length (cbc_encrypt E (key m) n (iv m) padded) = BLOCK * n).
  { apply cbc_encrypt_length; auto. }
  rewrite Hct.
  replace (BLOCK * n / BLOCK) with n
    by (rewrite Nat.mul_comm; symmetry; apply Nat.div_mul; unfold BLOCK; lia).
  replace (BLOCK * n =? 0)%nat with false
    by (symmetry; apply Nat.eqb_neq; unfold BLOCK, n; lia).
  replace (BLOCK * n mod BLOCK =? 0)%nat with true
    by (symmetry; apply Nat.eqb_eq; rewrite Nat.mul_comm; apply Nat.Div0.mod_mul).
  cbn [orb negb].
  rewrite (cbc_decrypt_encrypt E D (key m) (fun b => DE (key m) b Hkey)
             (fun b => Elen (key m) b Hkey) n (iv m) padded Hpad Hiv).
  subst padded. rewrite pkcs7_unpad_pad, utf8_decode_encode. reflexivity.
Qed.

End RoundTrip.
End EncryptionFacts.

(** C10.  With the module loaded from an environment whose key and IV
    variables are hexadecimal strings (of the 64 and 32 characters that the
    loading checks), and AES a block cipher (decryption undoes encryption on
    16-byte blocks under a 32-byte key): for every plaintext [p], [encrypt p]
    returns a ciphertext [c] and [decrypt c] returns [p]; and [encrypt] is a
    function of the plaintext alone, the key and the IV being the module's
    constants: any plaintext equal to [p] yields [c] again, and only those
    do. *)
Theorem encrypt_decrypt_roundtrip
    (E D : Encryption.bytes -> Encryption.bytes -> Encryption.bytes)
    (env : Encryption.Env) (k i : string) (m : Encryption.Keys) (p : string) :
  (forall key b, length key = Encryption.KEY_LENGTH -> length b = Encryption.BLOCK ->
                 D key (E key b) = b) ->
  (forall key b, length key = Encryption.KEY_LENGTH -> length b = Encryption.BLOCK ->
                 length (E key b) = Encryption.BLOCK) ->
  Encryption.ENCRYPTION_KEY env = Some k ->
  Encryption.ENCRYPTION_IV env = Some i ->
  Encryption.all_hex k = true ->
  Encryption.all_hex i = true ->
  Encryption.load env = inr m ->
  exists c,
    Encryption.encrypt E m p = inr c
    /\ Encryption.decrypt D m c = inr p
    /\ (forall q, q = p <-> Encryption.encrypt E m q = inr c).
Proof.
  intros DE Elen Hk Hi Hhk Hhi Hload.
  destruct (EncryptionFacts.load_sizes env k i m Hk Hi Hhk Hhi Hload) as [Hkey Hiv].
  destruct (EncryptionFacts.decrypt_encrypt E D DE Elen m p Hkey Hiv) as (c & Henc & Hdec).
  exists c. split; [exact Henc|]. split; [exact Hdec|].
  intros q. split.
  - intros ->. exact Henc.
  - intros Hq.
    destruct (EncryptionFacts.decrypt_encrypt E D DE Elen m q Hkey Hiv) as (c' & Henc' & Hdec').
    rewrite Hq in Henc'. inversion Henc'; subst c'.
    rewrite Hdec in Hdec'. inversion Hdec'. reflexivity.
Qed.

Lemma encrypt_decrypt_roundtrip_witness :
  exists c,
    Encryption.encrypt Sample.toy_block Sample.keys "1//refresh-secret" = inr c
    /\ Encryption.decrypt Sample.toy_block Sample.keys c = inr "1//refresh-secret"
    /\ (forall q, q = "1//refresh-secret" <->
                  Encryption.encrypt Sample.toy_block Sample.keys q = inr c).
Proof.
  apply (encrypt_decrypt_roundtrip Sample.toy_block Sample.toy_block
           Sample.env Sample.key_hex Sample.iv_hex Sample.keys "1//refresh-secret").
  - intros key b _ _. apply rev_involutive.
  - intros key b _ Hb. unfold Sample.toy_block. rewrite length_rev. exact Hb.
  - reflexivity.
  - reflexivity.
  - reflexivity.
  - reflexivity.
  - reflexivity.
Defined.

(** A 16-byte plaintext takes two blocks, the second all padding, chained
    to the first. *)
Example encrypt_sample :
  Encryption.encrypt Sample.toy_block Sample.keys "0123456789abcdef"
  = inr "6665646362613938373635343332313020212223242526272829717273747576"%string
  /\ Encryption.decrypt Sample.toy_block Sample.keys
       "6665646362613938373635343332313020212223242526272829717273747576"
     = inr "0123456789abcdef"%string.
Proof. vm_compute. split; reflexivity. Qed.

(** A ciphertext that is not whole blocks, or whose padding is wrong, is
    refused. *)
Example decrypt_refuses :
  Encryption.decrypt Sample.toy_block Sample.keys "6665" = inl Encryption.decrypt_failed
  /\ Encryption.decrypt Sample.toy_block Sample.keys
       "00000000000000000000000000000000" = inl Encryption.decrypt_failed.
Proof. vm_compute. split; reflexivity. Qed.

(** * Further properties *)

(** ** Moving the database along a relation *)

Section Respects.

Variable R : DB -> DB -> Prop.
Hypothesis R_refl : forall db, R db db.
Hypothesis R_trans : forall a b c, R a b -> R b c -> R a c.

Lemma respects_reads A (m : M A) : preserves whole m -> respects R m.
Proof.
  intros H db. pose proof (H db) as E. unfold whole in E. rewrite E. apply R_refl.
Qed.

Lemma respects_bind A B (m : M A) (k : A -> M B) :
  respects R m -> (forall a, respects R (k a)) -> respects R (bind m k).
Proof.
  intros Hm Hk db. unfold respects, final, bind in *. specialize (Hm db).
  destruct (m db) as [[[e|a] db1] t1]; simpl in *; [assumption|].
  specialize (Hk a db1).
  destruct (k a db1) as [[r db2] t2]; simpl in *. eapply R_trans; eassumption.
Qed.

Lemma respects_try_catch A (m : M A) (h : Exn -> M A) :
  respects R m -> (forall e, respects R (h e)) -> respects R (try_catch m h).
Proof.
  intros Hm Hh db. unfold respects, final, try_catch in *. specialize (Hm db).
  destruct (m db) as [[[e|a] db1] t1]; simpl in *; [|assumption].
  specialize (Hh e db1).
  destruct (h e db1) as [[r db2] t2]; simpl in *. eapply R_trans; eassumption.
Qed.

End Respects.

(** Walks down a computation that moves the database along a preorder. *)
Ltac along Hrefl Htrans :=
  repeat first
    [ progress intros
    | solve [apply (respects_reads _ Hrefl); auto with frame]
    | solve [auto with frame]
    | apply (respects_bind _ Htrans)
    | apply (respects_try_catch _ Htrans)
    | match goal with
      | |- respects _ (if ?b then _ else _) => destruct b
      | |- respects _ (match ?x with _ => _ end) => destruct x
      end ].

(** ** Events of a computation *)

Section Emits.

Variable p : Event -> bool.

Lemma emits_ret A (a : A) : emits_only p (ret a).
Proof. intros db. reflexivity. Qed.

Lemma emits_throw A (e : Exn) : emits_only p (@throw A e).
Proof. intros db. reflexivity. Qed.

Lemma emits_get_db : emits_only p get_db.
Proof. intros db. reflexivity. Qed.

Lemma emits_put_db db' : emits_only p (put_db db').
Proof. intros db. reflexivity. Qed.

Lemma emits_console l m : p (Console l m) = true -> emits_only p (console l m).
Proof. intros H db. simpl. rewrite H. reflexivity. Qed.

Lemma emits_await A c (r : Response A) : p (Remote c) = true -> emits_only p (await c r).
Proof. intros H db. unfold await. destruct r; simpl; rewrite H; reflexivity. Qed.

(** The continuation need only behave on what [m] can return. *)
Lemma emits_bind_outcome A B (m : M A) (k : A -> M B) :
  emits_only p m ->
  (forall db a, outcome (m db) = inr a -> forallb p (trace (k a (final (m db)))) = true) ->
  emits_only p (bind m k).
Proof.
  intros Hm Hk db. unfold emits_only, trace, outcome, final, bind in *.
  specialize (Hm db). specialize (Hk db).
  destruct (m db) as [[[e|a] db1] t1]; simpl in *; [assumption|].
  specialize (Hk a eq_refl).
  destruct (k a db1) as [[r db2] t2]; simpl in *.
  rewrite forallb_app, Hm, Hk. reflexivity.
Qed.

Lemma emits_bind A B (m : M A) (k : A -> M B) :
  emits_only p m -> (forall a, emits_only p (k a)) -> emits_only p (bind m k).
Proof. intros Hm Hk. apply emits_bind_outcome; [exact Hm|]. intros db a _. apply Hk. Qed.

Lemma emits_try_catch_outcome A (m : M A) (h : Exn -> M A) :
  emits_only p m ->
  (forall db e, outcome (m db) = inl e -> forallb p (trace (h e (final (m db)))) = true) ->
  emits_only p (try_catch m h).
Proof.
  intros Hm Hh db. unfold emits_only, trace, outcome, final, try_catch in *.
  specialize (Hm db). specialize (Hh db).
  destruct (m db) as [[[e|a] db1] t1]; simpl in *; [|assumption].
  specialize (Hh e eq_refl).
  destruct (h e db1) as [[r db2] t2]; simpl in *.
  rewrite forallb_app, Hm, Hh. reflexivity.
Qed.

Lemma emits_try_catch A (m : M A) (h : Exn -> M A) :
  emits_only p m -> (forall e, emits_only p (h e)) -> emits_only p (try_catch m h).
Proof. intros Hm Hh. apply emits_try_catch_outcome; [exact Hm|]. intros db e _. apply Hh. Qed.

End Emits.

#[export] Hint Resolve emits_ret emits_throw emits_get_db emits_put_db : frame.

(** Walks down a computation whose every console line and remote call
    passes the filter by evaluation. *)
Ltac quiet :=
  repeat first
    [ progress intros
    | solve [auto with frame]
    | apply emits_bind
    | apply emits_try_catch
    | apply emits_console; reflexivity
    | apply emits_await; reflexivity
    | match goal with
      | |- emits_only _ (if ?b then _ else _) => destruct b
      | |- emits_only _ (match ?x with _ => _ end) => destruct x
      end ].

(** ** The cycle as a whole *)

Lemma runEmailSync_no_throw w : no_throw (runEmailSync w).
Proof. unfold runEmailSync. frame. Qed.

(** X1.  A synchronisation cycle always ends normally: whatever the store,
    Gmail and Drive do, every exception is caught inside the cycle, so the
    [catch] handlers its callers attach never run. *)
Theorem sync_never_throws (w : World) (db : DB) :
  outcome (runEmailSync w db) = inr tt.
Proof.
  destruct (runEmailSync_no_throw w db) as [[] H]. exact H.
Qed.

Lemma fetched_app t1 t2 : fetched (t1 ++ t2) = fetched t1 ++ fetched t2.
Proof. unfold fetched. apply flat_map_app. Qed.

Lemma fetched_none tr : forallb not_get tr = true -> fetched tr = [].
Proof.
  induction tr as [|ev tr IH]; [reflexivity|]. simpl.
  intros H. apply andb_prop in H. destruct H as [H1 H2].
  rewrite (IH H2), app_nil_r.
  destruct ev as [[]|]; try reflexivity. discriminate H1.
Qed.

Lemma not_remote_not_get tr : forallb not_remote tr = true -> forallb not_get tr = true.
Proof.
  induction tr as [|ev tr IH]; [reflexivity|]. simpl.
  intros H. apply andb_prop in H. destruct H as [H1 H2]. rewrite (IH H2), andb_true_r.
  destruct ev as [[]|]; try reflexivity; discriminate H1.
Qed.

Lemma auth_no_remote w : emits_only not_remote (getAuthenticatedClient w).
Proof.
  intros db. destruct (auth_trace w db) as [-> | ->]; reflexivity.
Qed.

Lemma auth_no_get w : emits_only not_get (getAuthenticatedClient w).
Proof. intros db. apply not_remote_not_get, auth_no_remote. Qed.
#[export] Hint Resolve auth_no_get : frame.

Lemma fallback_pages_no_get w budget : forall page token msgs,
  emits_only not_get (fallback_pages w budget page token msgs).
Proof. induction budget as [|b IH]; intros page token msgs; simpl; quiet. Qed.
#[export] Hint Resolve fallback_pages_no_get : frame.

Lemma listNewEmailMessages_no_get w start : emits_only not_get (listNewEmailMessages w start).
Proof. unfold listNewEmailMessages. quiet. Qed.

(** The listing call when the client cannot be authenticated. *)
Lemma listing_auth_failed w start db e :
  outcome (getAuthenticatedClient w db) = inl e ->
  listNewEmailMessages w start db =
  (inl e, db, trace (getAuthenticatedClient w db) ++ [Console LError ListAuthFailed]).
Proof.
  intros H. unfold listNewEmailMessages. unfold bind at 1. unfold try_catch at 1.
  pose proof (getAuthenticatedClient_reads w db) as HA. unfold whole in HA.
  destruct (getAuthenticatedClient w db) as [[o d] t].
  unfold outcome, final, trace in *. simpl in *. subst o d. reflexivity.
Qed.

Lemma listing_thrown_run w db t e :
  oAuthToken db = Some t ->
  listing w db = inl e ->
  listNewEmailMessages w (or_undefined (lastHistoryId t)) db =
  (inl e, db, trace (listNewEmailMessages w (or_undefined (lastHistoryId t)) db)).
Proof.
  unfold listing, cursor. intros -> H.
  destruct (listNewEmailMessages w (or_undefined (lastHistoryId t)) db)
    as [[r d] tl] eqn:E.
  unfold outcome in H. simpl in H. subst r. known. reflexivity.
Qed.

(** The cycle whose listing call throws. *)
Lemma runEmailSync_fatal w db t e tl :
  store_fault w OpFindTokenSync = None ->
  oAuthToken db = Some t ->
  refresh t <> "" ->
  listNewEmailMessages w (or_undefined (lastHistoryId t)) db = (inl e, db, tl) ->
  runEmailSync w db =
  (inr tt, db,
   Console LLog SyncStarting
     :: Console LLog (SyncCurrentHistoryId (lastHistoryId t))
     :: tl ++ [Console LError (SyncFatal e)]).
Proof.
  intros Hfind Htok Hrefresh HL.
  unfold runEmailSync, Prisma.oAuthToken_findUnique, Prisma.faulty. unfold_M.
  rewrite Hfind, Htok. simpl.
  rewrite (truthy_nonempty _ Hrefresh). simpl.
  rewrite HL. reflexivity.
Qed.

(** The cycle that cannot start: the token row cannot be read, is not there,
    or holds no refresh secret. *)
Lemma runEmailSync_aborted w db :
  store_fault w OpFindTokenSync <> None
  \/ oAuthToken db = None
  \/ (exists t, oAuthToken db = Some t /\ refresh t = "") ->
  exists line,
    runEmailSync w db = (inr tt, db, [Console LLog SyncStarting; Console LError line]).
Proof.
  unfold runEmailSync, Prisma.oAuthToken_findUnique, Prisma.faulty. unfold_M.
  destruct (store_fault w OpFindTokenSync) as [x|]; simpl.
  - intros _. eexists. reflexivity.
  - intros [H|[H|(t & Ht & Hr)]]; [congruence| |].
    + rewrite H. eexists. reflexivity.
    + rewrite Ht, Hr. eexists. reflexivity.
Qed.

(** X2.  A cycle that cannot read the token row, or cannot authenticate (no
    token row, no refresh secret in it, or a secret that does not decrypt),
    makes no remote call at all and leaves the database as it found it. *)
Theorem no_contact_without_credentials (w : World) (db : DB) :
  store_fault w OpFindTokenSync <> None
  \/ outcome (getAuthenticatedClient w db) <> inr tt ->
  final (runEmailSync w db) = db
  /\ forall c, ~ In (Remote c) (trace (runEmailSync w db)).
Proof.
  intros H.
  assert (Hq : final (runEmailSync w db) = db
               /\ forallb not_remote (trace (runEmailSync w db)) = true).
  { destruct (store_fault w OpFindTokenSync) as [x|] eqn:Hfind.
    { destruct (runEmailSync_aborted w db) as [line ->]; [left; congruence|].
      split; reflexivity. }
    destruct H as [H|H]; [congruence|].
    destruct (oAuthToken db) as [t|] eqn:Htok.
    2:{ destruct (runEmailSync_aborted w db) as [line ->]; [auto|]. split; reflexivity. }
    destruct (String.eqb_spec (refresh t) "") as [Hr|Hr].
    { destruct (runEmailSync_aborted w db) as [line ->]; [eauto|]. split; reflexivity. }
    destruct (outcome (getAuthenticatedClient w db)) as [e|[]] eqn:HA; [|congruence].
    rewrite (runEmailSync_fatal w db t e _ Hfind Htok Hr
               (listing_auth_failed w _ db e HA)).
    split; [reflexivity|].
    rewrite trace_run.
    change (forallb not_remote (?a :: ?b :: ?t)) with (forallb not_remote t).
    rewrite !forallb_app, (auth_no_remote w db). reflexivity. }
  destruct Hq as [Hdb Hq]. split; [exact Hdb|].
  intros c Hin. rewrite forallb_forall in Hq. specialize (Hq _ Hin). discriminate Hq.
Qed.

(** X3.  When the listing call of a cycle throws, whatever the reason, the
    cycle logs the error as fatal and ends normally; nothing has been
    written and no message has been fetched. *)
Theorem fatal_listing_error_ends_cycle (w : World) (db : DB) (t : OAuthToken) (e : Exn) :
  store_fault w OpFindTokenSync = None ->
  oAuthToken db = Some t ->
  refresh t <> "" ->
  listing w db = inl e ->
  let l := listNewEmailMessages w (or_undefined (lastHistoryId t)) db in
  runEmailSync w db =
    (inr tt, db,
     Console LLog SyncStarting
       :: Console LLog (SyncCurrentHistoryId (lastHistoryId t))
       :: trace l ++ [Console LError (SyncFatal e)])
  /\ fetched (trace (runEmailSync w db)) = [].
Proof.
  intros Hfind Htok Hr Hl l.
  pose proof (runEmailSync_fatal w db t e _ Hfind Htok Hr (listing_thrown_run w db t e Htok Hl))
    as Hrun.
  split; [exact Hrun|].
  rewrite Hrun, trace_run.
  change (fetched (?a :: ?b :: ?t)) with (fetched t).
  rewrite fetched_app.
  rewrite (fetched_none _ (listNewEmailMessages_no_get w _ db)). reflexivity.
Qed.

Lemma no_contact_without_credentials_witness :
  final (runEmailSync Scenario.undecryptable (Sample.db (Some "H100")))
  = Sample.db (Some "H100")
  /\ forall c, ~ In (Remote c)
                 (trace (runEmailSync Scenario.undecryptable (Sample.db (Some "H100")))).
Proof.
  apply (no_contact_without_credentials Scenario.undecryptable (Sample.db (Some "H100"))).
  right. vm_compute. discriminate.
Defined.

Lemma fatal_listing_error_ends_cycle_witness :
  let w := Sample.two_pages in
  let db := Sample.db (Some "H100") in
  let l := listNewEmailMessages w (or_undefined (lastHistoryId (Sample.token (Some "H100")))) db in
  runEmailSync w db =
    (inr tt, db,
     Console LLog SyncStarting
       :: Console LLog (SyncCurrentHistoryId (lastHistoryId (Sample.token (Some "H100"))))
       :: trace l ++ [Console LError (SyncFatal Sample.backend_down)])
  /\ fetched (trace (runEmailSync w db)) = [].
Proof.
  apply (fatal_listing_error_ends_cycle Sample.two_pages (Sample.db (Some "H100"))
           (Sample.token (Some "H100")) Sample.backend_down);
    first [reflexivity | discriminate].
Defined.

(** The cycle whose listing call returns no message. *)
Lemma runEmailSync_empty w db t res tl :
  store_fault w OpFindTokenSync = None ->
  oAuthToken db = Some t ->
  refresh t <> "" ->
  listNewEmailMessages w (or_undefined (lastHistoryId t)) db = (inr res, db, tl) ->
  messages res = [] ->
  let head := Console LLog SyncStarting
                :: Console LLog (SyncCurrentHistoryId (lastHistoryId t))
                :: tl ++ [Console LLog SyncNoNewMessages] in
  let c := the (historyId res) in
  runEmailSync w db =
  if truthy_opt (historyId res) && strict_neq (historyId res) (lastHistoryId t)
  then
    match store_fault w (OpUpdateCursor c) with
    | None =>
        (inr tt, mkDB (Some (Prisma.set_lastHistoryId c t)) (emails db) (attachments db),
         head ++ [Console LLog (SyncHistoryAdvanced c); Console LLog SyncCompleted])
    | Some e => (inr tt, db, head ++ [Console LError (SyncFatal e)])
    end
  else (inr tt, db, head ++ [Console LLog SyncCompleted]).
Proof.
  intros Hfind Htok Hrefresh HL Hnil head c. subst head c.
  unfold runEmailSync, Prisma.oAuthToken_findUnique, Prisma.faulty. unfold_M.
  rewrite Hfind, Htok. simpl.
  rewrite (truthy_nonempty _ Hrefresh). simpl.
  rewrite HL, Hnil. simpl.
  destruct (truthy_opt (historyId res) && strict_neq (historyId res) (lastHistoryId t)).
  - unfold Prisma.oAuthToken_update_lastHistoryId, Prisma.faulty. unfold_M.
    destruct (store_fault w (OpUpdateCursor (the (historyId res)))) as [e|].
    + simpl. rewrite <- ?app_assoc. reflexivity.
    + rewrite Htok. simpl. rewrite <- ?app_assoc. reflexivity.
  - simpl. rewrite <- ?app_assoc. reflexivity.
Qed.

(** X4.  A cycle whose listing returns no message fetches nothing and leaves
    both tables alone; it writes the returned cursor exactly when that
    cursor is a non-empty string different from the stored one (and the
    store accepts the write), and otherwise leaves the token row as it
    was. *)
Theorem empty_batch_cursor_rule (w : World) (db : DB) (t : OAuthToken)
    (res : ListNewEmailMessagesResult) :
  store_fault w OpFindTokenSync = None ->
  oAuthToken db = Some t ->
  listing w db = inr res ->
  messages res = [] ->
  let r := runEmailSync w db in
  outcome r = inr tt
  /\ emails (final r) = emails db
  /\ attachments (final r) = attachments db
  /\ fetched (trace r) = []
  /\ oAuthToken (final r) =
       if truthy_opt (historyId res) && strict_neq (historyId res) (lastHistoryId t)
       then
         match store_fault w (OpUpdateCursor (the (historyId res))) with
         | None => Some (Prisma.set_lastHistoryId (the (historyId res)) t)
         | Some _ => Some t
         end
       else Some t.
Proof.
  intros Hfind Htok Hlist Hnil r.
  pose proof (listing_token w db t res Htok Hlist) as Hrefresh.
  destruct (listing_run w db _ _ Htok Hlist) as [tl HL].
  pose proof (runEmailSync_empty w db t res tl Hfind Htok Hrefresh HL Hnil) as Hrun.
  cbv zeta in Hrun.
  assert (Htl : fetched tl = []).
  { pose proof (listNewEmailMessages_no_get w (or_undefined (lastHistoryId t)) db) as H.
    rewrite HL, trace_run in H. exact (fetched_none _ H). }
  assert (Hhead : forall rest,
            fetched rest = [] ->
            fetched ((Console LLog SyncStarting
                       :: Console LLog (SyncCurrentHistoryId (lastHistoryId t))
                       :: tl ++ [Console LLog SyncNoNewMessages]) ++ rest) = []).
  { intros rest Hrest. rewrite fetched_app, Hrest, app_nil_r.
    change (fetched (?a :: ?b :: ?l)) with (fetched l).
    rewrite fetched_app, Htl. reflexivity. }
  subst r. rewrite Hrun.
  destruct (truthy_opt (historyId res) && strict_neq (historyId res) (lastHistoryId t)).
  - destruct (store_fault w (OpUpdateCursor (the (historyId res)))) as [e|];
      unfold outcome, final; rewrite trace_run; cbn [fst snd emails attachments oAuthToken];
      repeat split; auto; apply Hhead; reflexivity.
  - unfold outcome, final; rewrite trace_run; cbn [fst snd emails attachments oAuthToken];
      repeat split; auto; apply Hhead; reflexivity.
Qed.

Lemma empty_batch_cursor_rule_witness :
  let w := Scenario.nothing_new in
  let db := Sample.db (Some "H100") in
  let t := Sample.token (Some "H100") in
  let res := mkListResult [] (Some "H101") in
  let r := runEmailSync w db in
  outcome r = inr tt
  /\ emails (final r) = emails db
  /\ attachments (final r) = attachments db
  /\ fetched (trace r) = []
  /\ oAuthToken (final r) =
       if truthy_opt (historyId res) && strict_neq (historyId res) (lastHistoryId t)
       then
         match store_fault w (OpUpdateCursor (the (historyId res))) with
         | None => Some (Prisma.set_lastHistoryId (the (historyId res)) t)
         | Some _ => Some t
         end
       else Some t.
Proof.
  apply (empty_batch_cursor_rule Scenario.nothing_new (Sample.db (Some "H100"))
           (Sample.token (Some "H100")) (mkListResult [] (Some "H101")));
    reflexivity.
Defined.

(** The cycle whose batch ran and whose cursor write is refused. *)
Lemma runEmailSync_write_refused w db t res c e tl s f d tb :
  store_fault w OpFindTokenSync = None ->
  oAuthToken db = Some t ->
  refresh t <> "" ->
  listNewEmailMessages w (or_undefined (lastHistoryId t)) db = (inr res, db, tl) ->
  messages res <> [] ->
  historyId res = Some c ->
  c <> "" ->
  store_fault w (OpUpdateCursor c) = Some e ->
  processBatch w (messages res) 0 0 db = (inr (s, f), d, tb) ->
  runEmailSync w db =
    (inr tt, d,
     Console LLog SyncStarting
       :: Console LLog (SyncCurrentHistoryId (lastHistoryId t))
       :: tl
       ++ Console LLog (SyncFound (length (messages res)))
       :: tb
       ++ [Console LLog (SyncSummary s f);
           Console LError (SyncFatal e)]).
Proof.
  intros Hfind Htok Hrefresh HL Hne Hc Hc' Hupd HB.
  unfold runEmailSync, Prisma.oAuthToken_findUnique, Prisma.faulty. unfold_M.
  rewrite Hfind, Htok. simpl.
  rewrite (truthy_nonempty _ Hrefresh). simpl.
  rewrite HL. rewrite (length_eqb_0 _ _ Hne). simpl.
  rewrite HB. simpl. rewrite Hc. simpl.
  rewrite (truthy_nonempty _ Hc').
  unfold Prisma.oAuthToken_update_lastHistoryId, Prisma.faulty. rewrite Hupd.
  unfold_M. simpl. rewrite <- ?app_assoc. simpl. rewrite <- ?app_assoc. reflexivity.
Qed.

(** X5.  When the store refuses the write of the cursor after a batch, the
    cycle still ends normally: what the batch stored stays stored, the token
    row keeps the old cursor (so the next cycle lists the same range again),
    and the refusal is the last line of the trace, logged as fatal. *)
Theorem cursor_write_fault_keeps_batch (w : World) (db : DB) (t : OAuthToken)
    (res : ListNewEmailMessagesResult) (c : string) (e : Exn) :
  store_fault w OpFindTokenSync = None ->
  oAuthToken db = Some t ->
  listing w db = inr res ->
  messages res <> [] ->
  historyId res = Some c ->
  c <> "" ->
  store_fault w (OpUpdateCursor c) = Some e ->
  let r := runEmailSync w db in
  let batch := processBatch w (messages res) 0 0 db in
  outcome r = inr tt
  /\ final r = final batch
  /\ oAuthToken (final r) = Some t
  /\ exists before, trace r = before ++ [Console LError (SyncFatal e)].
Proof.
  intros Hfind Htok Hlist Hne Hc Hc' Hupd r batch.
  pose proof (listing_token w db t res Htok Hlist) as Hrefresh.
  destruct (listing_run w db _ _ Htok Hlist) as [tl HL].
  destruct (processBatch_run w (messages res) db) as (s & f & d & tb & HB & _ & Hd).
  pose proof (runEmailSync_write_refused w db t res c e tl s f d tb
                Hfind Htok Hrefresh HL Hne Hc Hc' Hupd HB) as Hrun.
  subst r batch. rewrite Hrun, HB. unfold outcome, final. rewrite trace_run. cbn [fst snd].
  split; [reflexivity|]. split; [reflexivity|]. split; [congruence|].
  exists (Console LLog SyncStarting
            :: Console LLog (SyncCurrentHistoryId (lastHistoryId t))
            :: tl
            ++ Console LLog (SyncFound (length (messages res)))
            :: tb
            ++ [Console LLog (SyncSummary s f)]).
  cbn [app]. rewrite <- !app_assoc. cbn [app]. rewrite <- !app_assoc. reflexivity.
Qed.

Lemma cursor_write_fault_keeps_batch_witness :
  let w := Scenario.cursor_write_fails in
  let db := Sample.db (Some "H100") in
  let r := runEmailSync w db in
  let batch := processBatch w [Sample.stub "m1"] 0 0 db in
  outcome r = inr tt
  /\ final r = final batch
  /\ oAuthToken (final r) = Some (Sample.token (Some "H100"))
  /\ exists before, trace r = before ++ [Console LError (SyncFatal Sample.server_down)].
Proof.
  apply (cursor_write_fault_keeps_batch Scenario.cursor_write_fails (Sample.db (Some "H100"))
           (Sample.token (Some "H100"))
           (mkListResult [Sample.stub "m1"] (Some "H101")) "H101" Sample.server_down);
    first [reflexivity | discriminate].
Defined.

(** The cycle in which the cursor write is refused: m1 is stored, the cursor
    is still "H100". *)
Example stored_but_cursor_not_moved :
  let r := runEmailSync Scenario.cursor_write_fails (Sample.db (Some "H100")) in
  map gmailId (emails (final r)) = ["m1"] /\ cursor (final r) = Some "H100".
Proof. vm_compute. split; reflexivity. Qed.

(** ** The per-item pipeline, case by case *)

Lemma getEmailContent_some w id db raw :
  outcome (getEmailContent w id db) = inr (Some raw) ->
  id <> "" /\
  outcome (getAuthenticatedClient w db) = inr tt /\
  gmail_messages_get w id = Resolved raw.
Proof.
  destruct (String.eqb_spec id "") as [->|Hid].
  - unfold outcome. simpl. discriminate.
  - unfold getEmailContent. rewrite (truthy_nonempty _ Hid). simpl.
    unfold bind at 1. unfold try_catch at 1.
    destruct (getAuthenticatedClient w db) as [[[e|[]] d] t] eqn:EA.
    + unfold outcome. simpl. discriminate.
    + pose proof (@reads_run _ _ _ _ _ _ (getAuthenticatedClient_reads w) EA). subst d.
      unfold_M. unfold outcome. simpl.
      destruct (gmail_messages_get w id) as [m|e]; simpl.
      * intros H. inversion H; subst. auto.
      * destruct (is_not_found e); simpl; discriminate.
Qed.

(** The parser looks at the message only. *)
Lemma parseEmailContent_pure w raw db db' :
  outcome (parseEmailContent w raw db) = outcome (parseEmailContent w raw db').
Proof.
  unfold parseEmailContent.
  destruct (msg_payload raw) as [p|]; [|reflexivity].
  destruct (part_headers p); reflexivity.
Qed.

(** [processAndSaveEmail], case by case on the message, the parser and the
    insert. *)
Lemma processAndSaveEmail_run w raw db :
  processAndSaveEmail w raw db =
  if negb (truthy_opt (msg_id raw))
  then (inr tt, db, [Console LWarn ProcInvalidRaw])
  else
    match outcome (parseEmailContent w raw db) with
    | inl x => (inr tt, db, [Console LError (ProcParseError x)])
    | inr d =>
        match outcome (Prisma.email_create w d db) with
        | inl x =>
            (inr tt, db, [save_error_line d x; Console LLog (ProcNotSaved (in_gmailId d))])
        | inr e =>
            processStoredEmail w raw e
              (mkDB (oAuthToken db) (emails db ++ [e]) (attachments db))
        end
    end.
Proof.
  unfold processAndSaveEmail.
  destruct (negb (truthy_opt (msg_id raw))); [reflexivity|].
  unfold bind at 1. unfold try_catch at 1. unfold bind at 1.
  pose proof (parseEmailContent_run w raw db) as Hp.
  destruct (outcome (parseEmailContent w raw db)) as [x|d]; rewrite Hp; [reflexivity|].
  cbn [ret].
  unfold bind at 1. unfold try_catch at 1.
  destruct (outcome (Prisma.email_create w d db)) as [x|e] eqn:Hc.
  - rewrite (saveEmail_thrown w d db x Hc). reflexivity.
  - assert (Hs : saveEmail w d db =
                 (inr (Some e), mkDB (oAuthToken db) (emails db ++ [e]) (attachments db), [])).
    { revert Hc. rewrite email_create_run. unfold saveEmail, try_catch, bind.
      rewrite email_create_run.
      destruct (store_fault w (OpCreateEmail d)); [discriminate|].
      destruct (existsb (Prisma.collides d) (emails db)); [discriminate|].
      unfold outcome. simpl. intros H. inversion H; subst. reflexivity. }
    rewrite Hs. cbn [app].
    destruct (processStoredEmail w raw e
                (mkDB (oAuthToken db) (emails db ++ [e]) (attachments db))) as [[o d'] t'].
    reflexivity.
Qed.

(** [processAndSaveEmail] either leaves the database as it is, or inserts
    the parsed item and goes on with its attachments. *)
Lemma processAndSaveEmail_cases w raw db :
  final (processAndSaveEmail w raw db) = db
  \/ exists d,
       truthy_opt (msg_id raw) = true /\
       msg_payload raw <> None /\
       outcome (parseEmailContent w raw db) = inr d /\
       store_fault w (OpCreateEmail d) = None /\
       existsb (Prisma.collides d) (emails db) = false /\
       processAndSaveEmail w raw db =
       processStoredEmail w raw (mkEmail (Prisma.next_id (emails db)) d)
         (mkDB (oAuthToken db)
               (emails db ++ [mkEmail (Prisma.next_id (emails db)) d])
               (attachments db)).
Proof.
  rewrite processAndSaveEmail_run.
  destruct (truthy_opt (msg_id raw)) eqn:Hid; [|left; reflexivity].
  cbn [negb].
  destruct (outcome (parseEmailContent w raw db)) as [x|d] eqn:Hparse; [left; reflexivity|].
  rewrite email_create_run.
  destruct (store_fault w (OpCreateEmail d)) as [x|] eqn:Hf; [left; reflexivity|].
  destruct (existsb (Prisma.collides d) (emails db)) eqn:Hcol; [left; reflexivity|].
  right. exists d. unfold outcome at 1. cbn [fst].
  split; [reflexivity|]. split.
  { intros Hp. unfold parseEmailContent in Hparse. rewrite Hp in Hparse. discriminate Hparse. }
  repeat split; auto.
Qed.

(** The loop body, case by case on the fetch. *)
Lemma processHeader_run w h db :
  processHeader w h db =
  if negb (truthy_opt (msg_id h))
  then (inr false, db, [Console LWarn SyncInvalidHeader])
  else
    let id := the (msg_id h) in
    let g := getEmailContent w id db in
    match outcome g with
    | inl e =>
        (inr false, db,
         Console LLog (SyncProcessing id) :: trace g
           ++ [Console LError (SyncPipelineError id e)])
    | inr None =>
        (inr false, db,
         Console LLog (SyncProcessing id) :: trace g
           ++ [Console LError (SyncFetchReturnedNothing id)])
    | inr (Some raw) =>
        let p := processAndSaveEmail w raw db in
        (inr true, final p, Console LLog (SyncProcessing id) :: trace g ++ trace p)
    end.
Proof.
  unfold processHeader.
  destruct (negb (truthy_opt (msg_id h))); [reflexivity|].
  cbv zeta. set (id := the (msg_id h)).
  unfold try_catch at 1. unfold bind at 1. unfold console at 1. unfold emit at 1.
  unfold bind at 1.
  pose proof (getEmailContent_reads w id db) as Hg. unfold whole in Hg.
  destruct (getEmailContent w id db) as [[o d] t].
  unfold final, outcome, trace in *. cbn [fst snd] in *. subst d.
  destruct o as [e|[raw|]].
  - reflexivity.
  - unfold bind at 1.
    destruct (processAndSaveEmail_no_throw w raw db) as [[] Hok].
    destruct (processAndSaveEmail w raw db) as [[o d] t']. unfold outcome in Hok.
    simpl in Hok. subst o. unfold ret. cbn [fst snd app].
    rewrite app_nil_r. reflexivity.
  - unfold_M. cbn [app]. reflexivity.
Qed.

(** The loop body either leaves the database as it is, or has fetched a
    message and handed it to [processAndSaveEmail]. *)
Lemma processHeader_cases w h db :
  final (processHeader w h db) = db
  \/ exists id raw,
       msg_id h = Some id /\ id <> "" /\
       outcome (getAuthenticatedClient w db) = inr tt /\
       gmail_messages_get w id = Resolved raw /\
       final (processHeader w h db) = final (processAndSaveEmail w raw db).
Proof.
  rewrite processHeader_run.
  destruct (truthy_opt (msg_id h)) eqn:Hid; [|left; reflexivity].
  destruct (truthy_opt_Some _ Hid) as (id & Hh & Hne). rewrite Hh. cbn [negb the].
  cbv zeta.
  destruct (outcome (getEmailContent w id db)) as [e|[raw|]] eqn:E;
    [left; reflexivity| |left; reflexivity].
  destruct (getEmailContent_some w id db raw E) as (_ & Hauth & Hget).
  right. exists id, raw. repeat split; auto.
Qed.

(** ** Invariants of the cycle *)

Section CycleInvariant.

Variable R : DB -> DB -> Prop.
Hypothesis R_refl : forall db, R db db.
Hypothesis R_trans : forall a b c, R a b -> R b c -> R a c.
Hypothesis R_item : forall w raw, respects R (processAndSaveEmail w raw).
Hypothesis R_cursor : forall w c, respects R (Prisma.oAuthToken_update_lastHistoryId w c).

Lemma processHeader_respects w h : respects R (processHeader w h).
Proof. unfold processHeader. pose proof R_item. along R_refl R_trans. Qed.

Lemma processBatch_respects w hs : forall s f, respects R (processBatch w hs s f).
Proof.
  pose proof (processHeader_respects w).
  induction hs as [|h rest IH]; intros s f; simpl; along R_refl R_trans.
Qed.

Lemma runEmailSync_respects w : respects R (runEmailSync w).
Proof.
  pose proof (processBatch_respects w). pose proof R_cursor.
  unfold runEmailSync. along R_refl R_trans.
Qed.

Lemma run_cycles_respects ws : forall db, R db (run_cycles ws db).
Proof.
  induction ws as [|w ws IH]; intros db; simpl; [apply R_refl|].
  eapply R_trans; [apply runEmailSync_respects|apply IH].
Qed.

End CycleInvariant.

(** *** The tables only grow *)

Lemma extends_refl db : extends db db.
Proof. split; exists []; rewrite app_nil_r; reflexivity. Qed.

Lemma extends_trans a b c : extends a b -> extends b c -> extends a c.
Proof.
  intros [[e1 H1] [a1 H2]] [[e2 H3] [a2 H4]]. split.
  - exists (e1 ++ e2). rewrite H3, H1, app_assoc. reflexivity.
  - exists (a1 ++ a2). rewrite H4, H2, app_assoc. reflexivity.
Qed.

Lemma email_create_extends w d : respects extends (Prisma.email_create w d).
Proof.
  intros db. rewrite email_create_run.
  destruct (store_fault w (OpCreateEmail d)); [apply extends_refl|].
  destruct (existsb (Prisma.collides d) (emails db)); [apply extends_refl|].
  split; simpl; [eexists; reflexivity|exists []; rewrite app_nil_r; reflexivity].
Qed.

Lemma attachment_create_extends w i fn mt did durl :
  respects extends (Prisma.attachment_create w i fn mt did durl).
Proof.
  intros db. unfold Prisma.attachment_create, Prisma.faulty.
  destruct (store_fault w (OpCreateAttachment i fn)); [apply extends_refl|].
  split; simpl; [exists []; rewrite app_nil_r; reflexivity|eexists; reflexivity].
Qed.

Lemma update_extends w c : respects extends (Prisma.oAuthToken_update_lastHistoryId w c).
Proof.
  intros db.
  destruct (Prisma.oAuthToken_update_lastHistoryId w c db) as [[r d] t] eqn:E.
  destruct (update_run _ _ _ _ _ _ E) as [(e & -> & ->)|(t' & -> & _ & _ & ->)].
  - apply extends_refl.
  - split; simpl; exists []; rewrite app_nil_r; reflexivity.
Qed.

Lemma processAndSaveEmail_extends w raw : respects extends (processAndSaveEmail w raw).
Proof.
  pose proof (email_create_extends w). pose proof (attachment_create_extends w).
  assert (Hatt : forall rawId e p, respects extends (processAttachment w rawId e p)).
  { intros rawId e p. unfold processAttachment. along extends_refl extends_trans. }
  assert (Hatts : forall rawId e ps, respects extends (processAttachments w rawId e ps)).
  { intros rawId e ps. induction ps as [|p ps IH]; simpl; along extends_refl extends_trans. }
  unfold processAndSaveEmail, processStoredEmail, saveEmail.
  along extends_refl extends_trans.
Qed.

(** X6.  The two tables are append-only: after any sequence of cycles, the
    [Email] and [Attachment] rows that were there are still there, unchanged
    and in the same order, followed by the rows the cycles added. *)
Theorem tables_only_grow (ws : list World) (db : DB) :
  exists new_emails new_attachments,
    emails (run_cycles ws db) = emails db ++ new_emails /\
    attachments (run_cycles ws db) = attachments db ++ new_attachments.
Proof.
  destruct (run_cycles_respects extends extends_refl extends_trans
              processAndSaveEmail_extends update_extends ws db) as [[es He] [ats Ha]].
  exists es, ats. split; assumption.
Qed.

(** *** The unique indexes *)

Lemma keeps_refl I db : keeps I db db.
Proof. intros H. exact H. Qed.

Lemma keeps_trans I a b c : keeps I a b -> keeps I b c -> keeps I a c.
Proof. unfold keeps. auto. Qed.

Lemma processAndSaveEmail_unique w raw :
  respects (keeps unique_emails) (processAndSaveEmail w raw).
Proof.
  intros db Hu. unfold unique_emails in *.
  destruct (processAndSaveEmail_cases w raw db) as [->|(d & _ & _ & _ & _ & Hfree & ->)];
    [exact Hu|].
  rewrite (processStoredEmail_emails w raw _ _). simpl.
  apply unique_rows_insert; assumption.
Qed.

Lemma update_keeps_tables w c db :
  emails (final (Prisma.oAuthToken_update_lastHistoryId w c db)) = emails db /\
  attachments (final (Prisma.oAuthToken_update_lastHistoryId w c db)) = attachments db.
Proof.
  destruct (Prisma.oAuthToken_update_lastHistoryId w c db) as [[r d] t] eqn:E.
  destruct (update_run _ _ _ _ _ _ E) as [(e & -> & ->)|(t' & -> & _ & _ & ->)];
    split; reflexivity.
Qed.

Lemma update_unique w c :
  respects (keeps unique_emails) (Prisma.oAuthToken_update_lastHistoryId w c).
Proof.
  intros db Hu. unfold unique_emails in *.
  rewrite (proj1 (update_keeps_tables w c db)). exact Hu.
Qed.

(** X7.  The unique indexes of the [Email] table hold after any sequence of
    cycles if they held before: no [gmailId] and no non-null [messageId] is
    ever stored twice, whatever Gmail lists and returns. *)
Theorem cycles_keep_unique_indexes (ws : list World) (db : DB) :
  unique_rows (emails db) -> unique_rows (emails (run_cycles ws db)).
Proof.
  exact (run_cycles_respects (keeps unique_emails) (keeps_refl _) (keeps_trans _)
           processAndSaveEmail_unique update_unique ws db).
Qed.

Lemma cycles_keep_unique_indexes_witness :
  unique_rows
    (emails (run_cycles [Sample.m1_ok_m2_throws; Sample.m1_ok_m2_throws]
                        (Sample.db (Some "H100")))).
Proof.
  apply (cycles_keep_unique_indexes [Sample.m1_ok_m2_throws; Sample.m1_ok_m2_throws]
           (Sample.db (Some "H100"))).
  split; constructor.
Defined.

(** *** The foreign key *)

Lemma attaches_to_refl e db : attaches_to e db db.
Proof.
  split; [reflexivity|]. split; [reflexivity|].
  exists []. rewrite app_nil_r. split; [reflexivity|constructor].
Qed.

Lemma attaches_to_trans e a b c : attaches_to e a b -> attaches_to e b c -> attaches_to e a c.
Proof.
  intros (T1 & E1 & l1 & A1 & F1) (T2 & E2 & l2 & A2 & F2).
  split; [congruence|]. split; [congruence|].
  exists (l1 ++ l2). split.
  - rewrite A2, A1, app_assoc. reflexivity.
  - apply Forall_app. split; assumption.
Qed.

Lemma attachment_create_attaches w e fn mt did durl :
  respects (attaches_to e) (Prisma.attachment_create w (email_id e) fn mt did durl).
Proof.
  intros db. unfold Prisma.attachment_create, Prisma.faulty.
  destruct (store_fault w (OpCreateAttachment (email_id e) fn)); [apply attaches_to_refl|].
  split; [reflexivity|]. split; [reflexivity|].
  eexists. split; [reflexivity|]. constructor; [reflexivity|constructor].
Qed.

Lemma processStoredEmail_attaches w raw e : respects (attaches_to e) (processStoredEmail w raw e).
Proof.
  pose proof (attachment_create_attaches w e).
  assert (Hatt : forall rawId p, respects (attaches_to e) (processAttachment w rawId e p)).
  { intros rawId p. unfold processAttachment.
    along (attaches_to_refl e) (attaches_to_trans e). }
  assert (Hatts : forall rawId ps, respects (attaches_to e) (processAttachments w rawId e ps)).
  { intros rawId ps. induction ps as [|p ps IH]; simpl;
      along (attaches_to_refl e) (attaches_to_trans e). }
  unfold processStoredEmail. along (attaches_to_refl e) (attaches_to_trans e).
Qed.

Lemma attaches_to_refs e db db' :
  In e (emails db) -> refs_ok db -> attaches_to e db db' -> refs_ok db'.
Proof.
  intros Hin Hok (_ & He & l & Ha & Hl) a Ha'.
  rewrite Ha, in_app_iff in Ha'. rewrite He. destruct Ha' as [Ha'|Ha'].
  - exact (Hok a Ha').
  - exists e. split; [exact Hin|]. rewrite Forall_forall in Hl. symmetry. exact (Hl a Ha').
Qed.

Lemma processAndSaveEmail_refs w raw : respects (keeps refs_ok) (processAndSaveEmail w raw).
Proof.
  intros db Hok.
  destruct (processAndSaveEmail_cases w raw db) as [->|(d & _ & _ & _ & _ & _ & ->)];
    [exact Hok|].
  set (e := mkEmail (Prisma.next_id (emails db)) d).
  apply (attaches_to_refs e (mkDB (oAuthToken db) (emails db ++ [e]) (attachments db))).
  - simpl. apply in_or_app. right. left. reflexivity.
  - intros a Ha. simpl in Ha. destruct (Hok a Ha) as (e' & He1 & He2).
    exists e'. split; [|exact He2]. simpl. apply in_or_app. left. exact He1.
  - apply processStoredEmail_attaches.
Qed.

Lemma update_refs w c : respects (keeps refs_ok) (Prisma.oAuthToken_update_lastHistoryId w c).
Proof.
  intros db Hok a Ha.
  destruct (update_keeps_tables w c db) as [He Hat].
  rewrite Hat in Ha. rewrite He. exact (Hok a Ha).
Qed.

(** X8.  Every [Attachment] row points to a stored [Email]: if that holds
    before a sequence of cycles it holds after it.  A cycle only ever inserts
    an attachment for the email it has just inserted, so the foreign key of
    the table is never violated by the code. *)
Theorem attachments_reference_stored_emails (ws : list World) (db : DB) :
  refs_ok db -> refs_ok (run_cycles ws db).
Proof.
  exact (run_cycles_respects (keeps refs_ok) (keeps_refl _) (keeps_trans _)
           processAndSaveEmail_refs update_refs ws db).
Qed.

Lemma attachments_reference_stored_emails_witness :
  refs_ok (run_cycles [Sample.upload_of_b_fails] (Sample.db (Some "H100"))).
Proof.
  apply (attachments_reference_stored_emails [Sample.upload_of_b_fails]
           (Sample.db (Some "H100"))).
  intros a Ha. simpl in Ha. contradiction.
Defined.

(** The cycle of the sample mailbox: one email, one attachment, and the
    attachment's key is the email's. *)
Example attachment_points_to_its_email :
  let db' := run_cycles [Sample.upload_of_b_fails] (Sample.db (Some "H100")) in
  map email_id (emails db') = [1] /\ map att_emailId (attachments db') = [1].
Proof. vm_compute. split; reflexivity. Qed.

(** *** Running a batch again *)

Lemma collides_self d n : Prisma.collides d (mkEmail n d) = true.
Proof. unfold Prisma.collides, gmailId. simpl. rewrite String.eqb_refl. reflexivity. Qed.

Lemma processHeader_extends w h : respects extends (processHeader w h).
Proof.
  exact (processHeader_respects extends extends_refl extends_trans
           processAndSaveEmail_extends w h).
Qed.

Lemma processBatch_extends w hs s f : respects extends (processBatch w hs s f).
Proof.
  exact (processBatch_respects extends extends_refl extends_trans
           processAndSaveEmail_extends w hs s f).
Qed.

(** A header that has been through the loop body stores nothing when it goes
    through it again, in any later state of the table. *)
Lemma processHeader_rerun w h db db2 :
  oAuthToken db2 = oAuthToken db ->
  incl (emails (final (processHeader w h db))) (emails db2) ->
  final (processHeader w h db2) = db2.
Proof.
  intros Htok Hincl.
  destruct (processHeader_cases w h db2) as [H|(id & raw & Hh & Hid & Hauth2 & Hget & Hfin)];
    [exact H|].
  rewrite Hfin.
  destruct (processAndSaveEmail_cases w raw db2)
    as [H|(d & Hraw & _ & Hparse & Hf & Hfree & _)]; [exact H|].
  exfalso.
  assert (Hauth : outcome (getAuthenticatedClient w db) = inr tt)
    by exact (auth_same_token w db2 db (eq_sym Htok) Hauth2).
  assert (Hcol : exists e, In e (emails db2) /\ Prisma.collides d e = true).
  { destruct (existsb (Prisma.collides d) (emails db)) eqn:Hc.
    - apply existsb_exists in Hc. destruct Hc as (e & He1 & He2).
      exists e. split; [|exact He2]. apply Hincl.
      destruct (processHeader_extends w h db) as [[rows Hrows] _].
      rewrite Hrows. apply in_or_app. left. exact He1.
    - destruct (processHeader_stored w h d db) as (db1 & t1 & Hrun & Hrows & _);
        [|exact Hauth|exact Hc|].
      + exists id, raw. repeat split; auto.
        intros db'. rewrite <- Hparse. apply parseEmailContent_pure.
      + exists (mkEmail (Prisma.next_id (emails db)) d). split; [|apply collides_self].
        apply Hincl. rewrite Hrun. unfold final. simpl. rewrite Hrows.
        apply in_or_app. right. left. reflexivity. }
  destruct Hcol as (e & He1 & He2).
  assert (Hex : existsb (Prisma.collides d) (emails db2) = true)
    by (apply existsb_exists; exists e; auto).
  congruence.
Qed.

Lemma processBatch_rerun w hs : forall s f s' f' db db2,
  oAuthToken db2 = oAuthToken db ->
  incl (emails (final (processBatch w hs s f db))) (emails db2) ->
  final (processBatch w hs s' f' db2) = db2.
Proof.
  induction hs as [|h rest IH]; intros s f s' f' db db2 Htok Hincl; [reflexivity|].
  destruct (processHeader_no_throw w h db) as [ok Hok].
  destruct (processHeader w h db) as [[o dbh] t1] eqn:E1.
  unfold outcome in Hok. simpl in Hok. subst o.
  rewrite (processBatch_cons w h rest s f db ok dbh t1 E1) in Hincl. cbv zeta in Hincl.
  unfold final at 1 in Hincl. cbn [fst snd] in Hincl.
  assert (Htokh : oAuthToken dbh = oAuthToken db)
    by exact (@preserves_run _ _ _ _ _ _ _ _ (processHeader_token w h) E1).
  assert (Hh : final (processHeader w h db2) = db2).
  { apply (processHeader_rerun w h db db2 Htok). rewrite E1. unfold final. simpl.
    intros e He. apply Hincl.
    destruct ok.
    - destruct (processBatch_extends w rest (S s) f dbh) as [[rows Hrows] _].
      rewrite Hrows. apply in_or_app. left. exact He.
    - destruct (processBatch_extends w rest s (S f) dbh) as [[rows Hrows] _].
      rewrite Hrows. apply in_or_app. left. exact He. }
  destruct (processHeader_no_throw w h db2) as [ok2 Hok2].
  destruct (processHeader w h db2) as [[o d2] t2] eqn:E2.
  unfold outcome in Hok2. unfold final in Hh. simpl in Hok2, Hh. subst o d2.
  rewrite (processBatch_cons w h rest s' f' db2 ok2 db2 t2 E2). cbv zeta.
  unfold final at 1. cbn [fst snd].
  assert (Htok2 : oAuthToken db2 = oAuthToken dbh) by congruence.
  destruct ok, ok2.
  - exact (IH (S s) f _ _ dbh db2 Htok2 Hincl).
  - exact (IH (S s) f _ _ dbh db2 Htok2 Hincl).
  - exact (IH s (S f) _ _ dbh db2 Htok2 Hincl).
  - exact (IH s (S f) _ _ dbh db2 Htok2 Hincl).
Qed.

(** X9.  Processing a batch a second time stores nothing: in any state of
    the database that still has the emails of the first run (and the same
    token row), the same headers against the same world leave the database
    exactly as it is.  Items stored the first time collide with their own
    row; items that failed the first time fail again. *)
Theorem batch_rerun_stores_nothing (w : World) (hs : list Message)
    (s f s' f' : nat) (db db2 : DB) :
  oAuthToken db2 = oAuthToken db ->
  (forall e, In e (emails (final (processBatch w hs s f db))) -> In e (emails db2)) ->
  final (processBatch w hs s' f' db2) = db2.
Proof. apply processBatch_rerun. Qed.

Lemma batch_rerun_stores_nothing_witness :
  let w := Sample.upload_of_b_fails in
  let hs := [Sample.stub "m1"] in
  let db2 := final (processBatch w hs 0 0 (Sample.db (Some "H100"))) in
  final (processBatch w hs 0 0 db2) = db2.
Proof.
  apply (batch_rerun_stores_nothing Sample.upload_of_b_fails [Sample.stub "m1"] 0 0 0 0
           (Sample.db (Some "H100"))
           (final (processBatch Sample.upload_of_b_fails [Sample.stub "m1"] 0 0
                     (Sample.db (Some "H100"))))).
  - reflexivity.
  - intros e He. exact He.
Defined.

(** ** The lister *)

Lemma collect_added_spec added : forall collected,
  collect_added added collected =
  collected ++ flat_map (fun messageAdded =>
                           match added_message messageAdded with
                           | Some m => [m]
                           | None => []
                           end) added.
Proof.
  unfold collect_added.
  induction added as [|a added IH]; intros collected; simpl.
  - rewrite app_nil_r. reflexivity.
  - rewrite IH. destruct (added_message a); simpl.
    + rewrite <- app_assoc. reflexivity.
    + reflexivity.
Qed.

Lemma collect_history_spec history : forall collected,
  collect_history history collected =
  collected ++ added_messages (mkHistoryResp (Some history) None).
Proof.
  unfold collect_history, added_messages. simpl.
  induction history as [|h history IH]; intros collected; simpl.
  - rewrite app_nil_r. reflexivity.
  - rewrite IH. destruct (messagesAdded h) as [added|]; simpl.
    + rewrite collect_added_spec, <- app_assoc. reflexivity.
    + reflexivity.
Qed.

(** The incremental branch of [listNewEmailMessages], in terms of its two
    calls. *)
Lemma listNewEmailMessages_incremental w s db :
  s <> "" ->
  let A := getAuthenticatedClient w db in
  listNewEmailMessages w (Some s) db =
  match outcome A with
  | inl e => (inl e, db, trace A ++ [Console LError ListAuthFailed])
  | inr _ =>
      match gmail_history_list w s with
      | Rejected e =>
          (inl e, db,
           trace A ++ [Console LLog (ListFetchingHistory s); Remote (HistoryList s);
                       Console LError (ListError e)])
      | Resolved res =>
          (inr (mkListResult (added_messages res) (hr_historyId res)), db,
           trace A ++ [Console LLog (ListFetchingHistory s); Remote (HistoryList s)]
             ++ (if (0 <? length (added_messages res))%nat
                 then [Console LLog (ListFoundViaHistory (length (added_messages res)))]
                 else []))
      end
  end.
Proof.
  intros Hs A. unfold listNewEmailMessages. cbn [truthy_opt].
  rewrite (truthy_nonempty _ Hs).
  pose proof (getAuthenticatedClient_reads w db) as HA. unfold whole in HA. fold A in HA.
  unfold bind at 1. unfold try_catch at 1. fold A. clearbody A.
  destruct A as [[oa da] ta]. unfold outcome, final, trace in *. simpl in HA |- *. subst da.
  destruct oa as [e|[]]; [reflexivity|].
  unfold try_catch at 1. unfold bind at 1. unfold console at 1. unfold emit at 1.
  unfold bind at 1. unfold await at 1.
  destruct (gmail_history_list w s) as [res|e]; [|reflexivity].
  assert (Hcollect : match hr_history res with
                     | Some history => collect_history history []
                     | None => []
                     end = added_messages res).
  { unfold added_messages at 1. destruct (hr_history res) as [history|]; [|reflexivity].
    rewrite collect_history_spec. reflexivity. }
  rewrite Hcollect.
  destruct (0 <? length (added_messages res))%nat; unfold_M; simpl;
    rewrite <- ?app_assoc; reflexivity.
Qed.

(** X10.  With a stored cursor, the lister makes exactly one call to
    [history.list] (it never asks for a further page of the history) and
    returns the messages that the answer reports as added, in the order of
    the answer and with repetitions kept, together with the answer's
    [historyId] as it came. *)
Theorem incremental_listing_is_one_call (w : World) (s : string) (db : DB)
    (res : ListHistoryResponse) :
  s <> "" ->
  outcome (getAuthenticatedClient w db) = inr tt ->
  gmail_history_list w s = Resolved res ->
  listNewEmailMessages w (Some s) db =
  (inr (mkListResult (added_messages res) (hr_historyId res)), db,
   [Console LLog (ListFetchingHistory s); Remote (HistoryList s)]
     ++ (if (0 <? length (added_messages res))%nat
         then [Console LLog (ListFoundViaHistory (length (added_messages res)))]
         else [])).
Proof.
  intros Hs Hauth Hres.
  rewrite (listNewEmailMessages_incremental w s db Hs). cbv zeta.
  rewrite (auth_ok_run w db Hauth). unfold outcome. rewrite trace_run. cbn [fst].
  rewrite Hres. reflexivity.
Qed.

Lemma incremental_listing_is_one_call_witness :
  listNewEmailMessages Sample.all_fail (Some "H100") (Sample.db (Some "H100")) =
  (inr (mkListResult [Sample.stub "m1"; Sample.stub "m2"] (Some "H101")),
   Sample.db (Some "H100"),
   [Console LLog (ListFetchingHistory "H100"); Remote (HistoryList "H100");
    Console LLog (ListFoundViaHistory 2)]).
Proof.
  apply (incremental_listing_is_one_call Sample.all_fail "H100" (Sample.db (Some "H100"))
           (mkHistoryResp
              (Some [mkHistory (Some [mkAdded (Some (Sample.stub "m1"));
                                      mkAdded (Some (Sample.stub "m2"))])])
              (Some "H101")));
    first [reflexivity | discriminate].
Defined.

(** The pages of the fallback loop, put together. *)
Lemma fallback_pages_messages w : forall b cp tok msgs db m next cp',
  cp < MAX_INITIAL_FETCH_PAGES ->
  MAX_INITIAL_FETCH_PAGES <= cp + S b ->
  tok = page_token w cp ->
  msgs = page_messages w cp ->
  outcome (fallback_pages w b cp tok msgs db) = inr (m, next, cp') ->
  m = page_messages w cp'.
Proof.
  induction b as [|b IH]; intros cp tok msgs db m next cp' Hcp Hb Htok Hmsgs;
    rewrite fallback_pages_step; cbv zeta;
    destruct (gmail_messages_list w (S cp) (or_undefined tok)) as [res|e] eqn:Eres;
    try (unfold outcome; simpl; discriminate).
  - assert (Hpage : match mr_messages res with Some ms => msgs ++ ms | None => msgs end
                    = page_messages w (S cp)).
    { cbn [page_messages]. rewrite <- Htok, Eres, <- Hmsgs.
      destruct (mr_messages res); [reflexivity|rewrite app_nil_r; reflexivity]. }
    destruct (truthy_opt (mr_nextPageToken res) && (S cp <? MAX_INITIAL_FETCH_PAGES)%nat);
      unfold outcome; cbn [fst]; intros H; inversion H; subst; exact Hpage.
  - assert (Hpage : match mr_messages res with Some ms => msgs ++ ms | None => msgs end
                    = page_messages w (S cp)).
    { cbn [page_messages]. rewrite <- Htok, Eres, <- Hmsgs.
      destruct (mr_messages res); [reflexivity|rewrite app_nil_r; reflexivity]. }
    destruct (truthy_opt (mr_nextPageToken res) && (S cp <? MAX_INITIAL_FETCH_PAGES)%nat)
      eqn:Econt.
    + apply andb_prop in Econt. destruct Econt as [_ Hlt]. apply Nat.ltb_lt in Hlt.
      unfold outcome at 1. cbn [fst]. intros H.
      apply (IH (S cp) (mr_nextPageToken res)
               (match mr_messages res with Some ms => msgs ++ ms | None => msgs end)
               db m next cp' Hlt ltac:(lia)
               (eq_sym (page_token_S w cp tok res Htok Eres)) Hpage H).
    + unfold outcome; cbn [fst]; intros H; inversion H; subst; exact Hpage.
Qed.

(** X11.  Without a cursor, what the lister returns is the messages of the
    pages it fetched, page after page in the order fetched: pages 1 to n for
    the n calls it made (each asked with the token the page before reported),
    none skipped and none repeated. *)
Theorem fallback_listing_concatenates_pages (w : World) (db : DB)
    (res : ListNewEmailMessagesResult) :
  outcome (listNewEmailMessages w None db) = inr res ->
  let n := pages_fetched (trace (listNewEmailMessages w None db)) in
  1 <= n <= MAX_INITIAL_FETCH_PAGES
  /\ messages res = page_messages w n.
Proof.
  rewrite listNewEmailMessages_fallback; cbv zeta.
  pose proof (fallback_pages_spec w MAX_INITIAL_FETCH_PAGES 0 None [] db
                ltac:(unfold MAX_INITIAL_FETCH_PAGES; lia) ltac:(lia)) as HS.
  cbv zeta in HS. destruct HS as (_ & _ & HS3).
  pose proof (fallback_pages_messages w MAX_INITIAL_FETCH_PAGES 0 None [] db) as HM.
  set (R := fallback_pages w MAX_INITIAL_FETCH_PAGES 0 None [] db) in *.
  assert (HA1 : pages_fetched (trace (getAuthenticatedClient w db)) = 0).
  { destruct (auth_trace w db) as [-> | ->]; reflexivity. }
  set (A := getAuthenticatedClient w db) in *.
  destruct (outcome A) as [e|[]]; [unfold outcome; simpl; discriminate|].
  destruct (outcome R) as [e|[[m next] cp]] eqn:ER; [unfold outcome; simpl; discriminate|].
  destruct (HS3 m next cp eq_refl) as (Hcp & Hpages & Hlt & _).
  specialize (HM m next cp ltac:(unfold MAX_INITIAL_FETCH_PAGES; lia) ltac:(lia)
                eq_refl eq_refl eq_refl).
  unfold outcome at 1. cbn [fst]. intros H. inversion H; subst res. cbn [messages].
  rewrite trace_run, pages_fetched_app, HA1, pages_fetched_console, !pages_fetched_app, Hpages.
  assert (Hextra : pages_fetched
                     (if (MAX_INITIAL_FETCH_PAGES <=? cp)%nat && truthy_opt next
                      then [Console LWarn ListReachedMaxPages] else []) = 0).
  { destruct ((MAX_INITIAL_FETCH_PAGES <=? cp)%nat && truthy_opt next); reflexivity. }
  rewrite Hextra. cbn [pages_fetched filter is_messages_list length Nat.add].
  replace (cp - 0 + 0) with cp by lia.
  split; [lia|exact HM].
Qed.

Lemma fallback_listing_concatenates_pages_witness :
  let r := listNewEmailMessages Sample.two_pages None (Sample.db None) in
  let n := pages_fetched (trace r) in
  1 <= n <= MAX_INITIAL_FETCH_PAGES
  /\ messages (mkListResult [Sample.stub "m1"; Sample.stub "m2"; Sample.stub "m3"] None)
     = page_messages Sample.two_pages n.
Proof.
  apply (fallback_listing_concatenates_pages Sample.two_pages (Sample.db None)
           (mkListResult [Sample.stub "m1"; Sample.stub "m2"; Sample.stub "m3"] None)).
  reflexivity.
Defined.

(** *** The fallback listing, page by page *)

Lemma last_page_spec w :
  1 <= last_page w <= MAX_INITIAL_FETCH_PAGES
  /\ (forall k, 1 <= k < last_page w -> truthy_opt (page_token w k) = true)
  /\ (last_page w < MAX_INITIAL_FETCH_PAGES ->
      truthy_opt (page_token w (last_page w)) = false).
Proof.
  unfold last_page, MAX_INITIAL_FETCH_PAGES. cbn [seq find].
  destruct (truthy_opt (page_token w 1)) eqn:E1; cbn [negb];
    [|split; [lia|]; split; [intros k Hk; exfalso; lia|intros _; exact E1]].
  destruct (truthy_opt (page_token w 2)) eqn:E2; cbn [negb];
    [|split; [lia|]; split;
      [intros k Hk; assert (Hc : k = 1) by lia; subst k; assumption|intros _; exact E2]].
  destruct (truthy_opt (page_token w 3)) eqn:E3; cbn [negb];
    [|split; [lia|]; split;
      [intros k Hk; assert (Hc : k = 1 \/ k = 2) by lia;
       destruct Hc; subst k; assumption|intros _; exact E3]].
  destruct (truthy_opt (page_token w 4)) eqn:E4; cbn [negb];
    [|split; [lia|]; split;
      [intros k Hk; assert (Hc : k = 1 \/ k = 2 \/ k = 3) by lia;
       destruct Hc as [|[|]]; subst k; assumption|intros _; exact E4]].
  assert (H4 : forall k, 1 <= k < 5 -> truthy_opt (page_token w k) = true).
  { intros k Hk. assert (Hc : k = 1 \/ k = 2 \/ k = 3 \/ k = 4) by lia.
    destruct Hc as [|[|[|]]]; subst k; assumption. }
  destruct (truthy_opt (page_token w 5)) eqn:E5; cbn [negb];
    (split; [lia|]; split; [exact H4|intros Hlt; exfalso; lia]).
Qed.

Lemma paging_cons w from count :
  paging w from (S count) =
  [Console LLog (ListFallbackPage (S from) (page_token w from));
   Remote (MessagesList (or_undefined (page_token w from)))]
  ++ paging w (S from) count.
Proof. reflexivity. Qed.

(** The loop from page [cp + 1] on, when the pages it asks for resolve: it
    asks for the pages up to [last_page], each with the token of the page
    before, and returns their messages. *)
Lemma fallback_pages_paging w : forall b cp tok msgs db,
  cp < last_page w ->
  MAX_INITIAL_FETCH_PAGES <= cp + S b ->
  tok = page_token w cp ->
  msgs = page_messages w cp ->
  (forall k, k < last_page w -> page_resolves w k) ->
  fallback_pages w b cp tok msgs db =
  (inr (page_messages w (last_page w), page_token w (last_page w), last_page w), db,
   paging w cp (last_page w - cp)).
Proof.
  destruct (last_page_spec w) as ((Hn1 & Hn5) & Htruthy & Hfalsy).
  set (n := last_page w) in *. clearbody n.
  induction b as [|b IH]; intros cp tok msgs db Hcp Hb Htok Hmsgs Hres;
    rewrite fallback_pages_step; cbv zeta;
    destruct (Hres cp Hcp) as [res Eres]; rewrite <- Htok in Eres; rewrite Eres.
  - assert (Hlast : S cp = n) by lia.
    assert (Hpage : match mr_messages res with Some ms => msgs ++ ms | None => msgs end
                    = page_messages w (S cp)).
    { cbn [page_messages]. rewrite <- Htok, Eres, <- Hmsgs.
      destruct (mr_messages res); [reflexivity|rewrite app_nil_r; reflexivity]. }
    rewrite Hpage, <- (page_token_S w cp tok res Htok Eres). subst n.
    replace (S cp - cp) with 1 by lia. rewrite Htok.
    destruct (truthy_opt (page_token w (S cp)) && (S cp <? MAX_INITIAL_FETCH_PAGES)%nat);
      reflexivity.
  - assert (Hpage : match mr_messages res with Some ms => msgs ++ ms | None => msgs end
                    = page_messages w (S cp)).
    { cbn [page_messages]. rewrite <- Htok, Eres, <- Hmsgs.
      destruct (mr_messages res); [reflexivity|rewrite app_nil_r; reflexivity]. }
    pose proof (page_token_S w cp tok res Htok Eres) as Hnext.
    rewrite Hpage, <- Hnext.
    assert (Hcase : S cp = n \/ S cp < n) by lia.
    destruct Hcase as [Hlast|Hmore].
    + assert (Hstop : truthy_opt (page_token w (S cp))
                      && (S cp <? MAX_INITIAL_FETCH_PAGES)%nat = false).
      { destruct (S cp <? MAX_INITIAL_FETCH_PAGES)%nat eqn:Hlt;
          [|apply andb_false_r].
        apply Nat.ltb_lt in Hlt. subst n. rewrite (Hfalsy Hlt). reflexivity. }
      rewrite Hstop. subst n. replace (S cp - cp) with 1 by lia.
      rewrite Htok. reflexivity.
    + assert (Hgo : truthy_opt (page_token w (S cp))
                    && (S cp <? MAX_INITIAL_FETCH_PAGES)%nat = true).
      { rewrite (Htruthy (S cp)) by lia.
        apply Nat.ltb_lt. lia. }
      rewrite Hgo.
      rewrite (IH (S cp) (page_token w (S cp)) (page_messages w (S cp)) db
                 Hmore ltac:(lia) eq_refl eq_refl Hres).
      unfold outcome, final. rewrite trace_run. cbn [fst snd].
      replace (n - cp) with (S (n - S cp)) by lia.
      rewrite paging_cons, Htok. reflexivity.
Qed.

(** C7.  Called without a cursor, the lister makes at most
    [MAX_INITIAL_FETCH_PAGES] = 5 calls to [messages.list], writes nothing, and
    when it returns its [historyId] is null; it prints the cap warning exactly
    when it returns after five pages each of which reported a next page token
    (so the cap was hit with pages remaining).  And it does list: on an
    authenticated client whose pages resolve, it asks for page 1 without a
    token and for each further page with the token the page before reported,
    stops at the first page that reports no further page, or at the fifth,
    returns the messages of those pages in order with a null [historyId], and
    prints the warning when the fifth page still reported a further one; its
    whole trace is given.  A cycle started with no usable stored cursor lists
    in this mode and leaves the token row, cursor included, as it was. *)
Theorem fallback_mode_contract (w : World) (db : DB) :
  let r := listNewEmailMessages w None db in
  MAX_INITIAL_FETCH_PAGES = 5
  /\ pages_fetched (trace r) <= MAX_INITIAL_FETCH_PAGES
  /\ final r = db
  /\ (forall res, outcome r = inr res -> historyId res = None)
  /\ (In (Console LWarn ListReachedMaxPages) (trace r) <->
      (exists res, outcome r = inr res)
      /\ more_pages_remain w MAX_INITIAL_FETCH_PAGES = true)
  /\ (In (Console LWarn ListReachedMaxPages) (trace r) ->
      pages_fetched (trace r) = MAX_INITIAL_FETCH_PAGES)
  /\ (truthy_opt (cursor db) = false ->
      listing w db = outcome r
      /\ oAuthToken (final (runEmailSync w db)) = oAuthToken db)
  /\ (outcome (getAuthenticatedClient w db) = inr tt ->
      (forall k, k < last_page w -> page_resolves w k) ->
      let n := last_page w in
      1 <= n <= MAX_INITIAL_FETCH_PAGES
      /\ r = (inr (mkListResult (page_messages w n) None), db,
              Console LWarn ListFallback
                :: paging w 0 n
                ++ (if (MAX_INITIAL_FETCH_PAGES <=? n)%nat && truthy_opt (page_token w n)
                    then [Console LWarn ListReachedMaxPages] else [])
                ++ [Console LLog (ListFallbackFetched (length (page_messages w n)))])
      /\ pages_fetched (trace r) = n
      /\ (In (Console LWarn ListReachedMaxPages) (trace r) <->
          n = MAX_INITIAL_FETCH_PAGES /\ truthy_opt (page_token w n) = true)).
Proof.
  intros r.
  destruct (fallback_contract_listing w db) as (H1 & H2 & H3 & H4 & H5). fold r in H1, H2, H3, H4, H5.
  split; [reflexivity|]. repeat (split; [assumption|]).
  split.
  - intros Hnone.
    assert (Hl : listing w db = outcome r).
    { unfold listing. rewrite (or_undefined_falsy _ Hnone). reflexivity. }
    split; [exact Hl|].
    destruct (runEmailSync_token w db) as [H|(t & res & c & _ & Hres & Hc & _)]; [exact H|].
    rewrite Hl in Hres. rewrite (H3 res Hres) in Hc. discriminate Hc.
  - intros Hauth Hpages n.
    destruct (last_page_spec w) as ((Hn1 & Hn5) & _). fold n in Hn1, Hn5.
    assert (Hloop := fallback_pages_paging w MAX_INITIAL_FETCH_PAGES 0 None [] db
                       Hn1 ltac:(lia) eq_refl eq_refl Hpages).
    fold n in Hloop. rewrite Nat.sub_0_r in Hloop.
    assert (Hrun : r = (inr (mkListResult (page_messages w n) None), db,
              Console LWarn ListFallback
                :: paging w 0 n
                ++ (if (MAX_INITIAL_FETCH_PAGES <=? n)%nat && truthy_opt (page_token w n)
                    then [Console LWarn ListReachedMaxPages] else [])
                ++ [Console LLog (ListFallbackFetched (length (page_messages w n)))])).
    { subst r. rewrite listNewEmailMessages_fallback. cbv zeta.
      rewrite (auth_ok_run w db Hauth), Hloop.
      unfold outcome. rewrite !trace_run. cbn [fst]. reflexivity. }
    split; [split; assumption|]. split; [exact Hrun|].
    assert (Hpg : forall from count, pages_fetched (paging w from count) = count).
    { intros from count. revert from. induction count as [|c IH]; intros from; [reflexivity|].
      rewrite paging_cons, pages_fetched_app, IH. reflexivity. }
    assert (Hnowarn : forall from count,
              ~ In (Console LWarn ListReachedMaxPages) (paging w from count)).
    { intros from count. revert from. induction count as [|c IH]; intros from; [intros []|].
      rewrite paging_cons. intros [H|[H|H]]; [discriminate H|discriminate H|exact (IH _ H)]. }
    split.
    + rewrite Hrun, trace_run, pages_fetched_console, !pages_fetched_app, Hpg.
      destruct ((MAX_INITIAL_FETCH_PAGES <=? n)%nat && truthy_opt (page_token w n));
        cbn [pages_fetched filter is_messages_list length]; lia.
    + rewrite Hrun, trace_run.
      destruct ((MAX_INITIAL_FETCH_PAGES <=? n)%nat && truthy_opt (page_token w n)) eqn:Hc.
      * apply andb_prop in Hc. destruct Hc as [Hc1 Hc2]. apply Nat.leb_le in Hc1.
        split; [intros _; split; [lia|exact Hc2]|].
        intros _. right. apply in_or_app. right. left. reflexivity.
      * split.
        -- intros [H|H]; [discriminate H|].
           apply in_app_or in H. destruct H as [H|[H|[]]]; [|discriminate H].
           exfalso. exact (Hnowarn _ _ H).
        -- intros [Hn Ht]. rewrite Ht, andb_true_r in Hc.
           apply Nat.leb_gt in Hc. lia.
Qed.

Lemma fallback_mode_contract_witness :
  let w := Sample.two_pages in
  let db := Sample.db None in
  let r := listNewEmailMessages w None db in
  let n := last_page w in
  1 <= n <= MAX_INITIAL_FETCH_PAGES
  /\ r = (inr (mkListResult (page_messages w n) None), db,
          Console LWarn ListFallback
            :: paging w 0 n
            ++ (if (MAX_INITIAL_FETCH_PAGES <=? n)%nat && truthy_opt (page_token w n)
                then [Console LWarn ListReachedMaxPages] else [])
            ++ [Console LLog (ListFallbackFetched (length (page_messages w n)))])
  /\ pages_fetched (trace r) = n
  /\ (In (Console LWarn ListReachedMaxPages) (trace r) <->
      n = MAX_INITIAL_FETCH_PAGES /\ truthy_opt (page_token w n) = true).
Proof.
  apply (fallback_mode_contract Sample.two_pages (Sample.db None)).
  - reflexivity.
  - intros k Hk. change (k < 2) in Hk.
    destruct k as [|[|k]]; [eexists; reflexivity|eexists; reflexivity|lia].
Defined.

(** The two pages of the sample mailbox: two calls, the second with the
    token of the first, three messages, no warning. *)
Example fallback_lists_both_pages :
  let r := listNewEmailMessages Sample.two_pages None (Sample.db None) in
  last_page Sample.two_pages = 2
  /\ outcome r = inr (mkListResult [Sample.stub "m1"; Sample.stub "m2"; Sample.stub "m3"] None)
  /\ filter is_remote (trace r)
     = [Remote (MessagesList None); Remote (MessagesList (Some "p2"))].
Proof. vm_compute. repeat split. Qed.


(** ** Running a cycle again *)

Lemma auth_token_only w db db' :
  oAuthToken db' = oAuthToken db ->
  outcome (getAuthenticatedClient w db') = outcome (getAuthenticatedClient w db).
Proof.
  intros H. unfold getAuthenticatedClient, Prisma.oAuthToken_findUnique, Prisma.faulty.
  unfold_M. unfold outcome.
  destruct (store_fault w OpFindTokenAuth); [reflexivity|].
  simpl. rewrite H.
  destruct (oAuthToken db) as [t|]; [|reflexivity].
  destruct (negb (truthy (refresh t))); [reflexivity|].
  destruct (cipher_decrypt w (refresh t)); reflexivity.
Qed.

Lemma fallback_pages_pure w : forall b cp tok msgs db db',
  outcome (fallback_pages w b cp tok msgs db) = outcome (fallback_pages w b cp tok msgs db').
Proof.
  induction b as [|b IH]; intros cp tok msgs db db';
    rewrite (fallback_pages_step w _ cp tok msgs db), (fallback_pages_step w _ cp tok msgs db');
    cbv zeta;
    destruct (gmail_messages_list w (S cp) (or_undefined tok)) as [res|e]; try reflexivity;
    destruct (truthy_opt (mr_nextPageToken res) && (S cp <? MAX_INITIAL_FETCH_PAGES)%nat);
    try reflexivity.
  unfold outcome at 1 3. cbn [fst]. apply IH.
Qed.

(** What the listing call returns depends on the database through the token
    row only. *)
Lemma listing_token_only w db db' :
  oAuthToken db' = oAuthToken db -> listing w db' = listing w db.
Proof.
  intros H. pose proof (auth_token_only w db db' H) as HA.
  unfold listing, cursor. rewrite H. clear H.
  destruct (oAuthToken db) as [t|].
  - unfold or_undefined.
    destruct (truthy_opt (lastHistoryId t)) eqn:Ht.
    + destruct (truthy_opt_Some _ Ht) as (s & -> & Hs).
      rewrite !(listNewEmailMessages_incremental w s _ Hs). cbv zeta.
      rewrite HA.
      destruct (outcome (getAuthenticatedClient w db)) as [e|[]]; [reflexivity|].
      destruct (gmail_history_list w s); reflexivity.
    + rewrite !listNewEmailMessages_fallback. cbv zeta.
      rewrite HA.
      destruct (outcome (getAuthenticatedClient w db)) as [e|[]]; [reflexivity|].
      rewrite (fallback_pages_pure w _ _ _ _ db' db).
      destruct (outcome (fallback_pages w MAX_INITIAL_FETCH_PAGES 0 None [] db))
        as [e|[[m next] cp]]; reflexivity.
  - rewrite !listNewEmailMessages_fallback. cbv zeta.
    rewrite HA.
    destruct (outcome (getAuthenticatedClient w db)) as [e|[]]; [reflexivity|].
    rewrite (fallback_pages_pure w _ _ _ _ db' db).
    destruct (outcome (fallback_pages w MAX_INITIAL_FETCH_PAGES 0 None [] db))
      as [e|[[m next] cp]]; reflexivity.
Qed.

(** The cycle whose batch ran and whose listing returned no cursor. *)
Lemma runEmailSync_no_cursor w db t res tl s f d tb :
  store_fault w OpFindTokenSync = None ->
  oAuthToken db = Some t ->
  refresh t <> "" ->
  listNewEmailMessages w (or_undefined (lastHistoryId t)) db = (inr res, db, tl) ->
  messages res <> [] ->
  truthy_opt (historyId res) = false ->
  processBatch w (messages res) 0 0 db = (inr (s, f), d, tb) ->
  final (runEmailSync w db) = d.
Proof.
  intros Hfind Htok Hrefresh HL Hne Hc HB.
  unfold runEmailSync, Prisma.oAuthToken_findUnique, Prisma.faulty. unfold_M.
  rewrite Hfind, Htok. simpl.
  rewrite (truthy_nonempty _ Hrefresh). simpl.
  rewrite HL. rewrite (length_eqb_0 _ _ Hne). simpl.
  rewrite HB. simpl. rewrite Hc. simpl.
  destruct ((0 <? length (messages res))%nat && negb (truthy_opt (lastHistoryId t)));
    reflexivity.
Qed.

Lemma db_eta db t : oAuthToken db = Some t -> db = mkDB (Some t) (emails db) (attachments db).
Proof. destruct db. simpl. intros ->. reflexivity. Qed.

(** Where a cycle that could list leaves the database: the tables are those
    the batch left, the token row is the old one or the old one with the
    listed cursor. *)
Lemma runEmailSync_final w db t res :
  store_fault w OpFindTokenSync = None ->
  oAuthToken db = Some t ->
  listing w db = inr res ->
  let d := final (processBatch w (messages res) 0 0 db) in
  let c := the (historyId res) in
  let write :=
    if (length (messages res) =? 0)%nat
    then truthy_opt (historyId res) && strict_neq (historyId res) (lastHistoryId t)
    else truthy_opt (historyId res) in
  final (runEmailSync w db) =
  mkDB (if write
        then match store_fault w (OpUpdateCursor c) with
             | None => Some (Prisma.set_lastHistoryId c t)
             | Some _ => Some t
             end
        else Some t)
       (emails d) (attachments d).
Proof.
  intros Hfind Htok Hlist d c write.
  pose proof (listing_token w db t res Htok Hlist) as Hrefresh.
  destruct (listing_run w db _ _ Htok Hlist) as [tl HL].
  assert (Hcase : messages res = [] \/ messages res <> [])
    by (destruct (messages res); [left; reflexivity|right; discriminate]).
  destruct Hcase as [Hm|Hne].
  - pose proof (runEmailSync_empty w db t res tl Hfind Htok Hrefresh HL Hm) as Hrun.
    cbv zeta in Hrun. rewrite Hrun. subst d write c. rewrite Hm.
    cbn [length Nat.eqb processBatch].
    unfold ret, final. cbn [fst snd].
    destruct (truthy_opt (historyId res) && strict_neq (historyId res) (lastHistoryId t)).
    + destruct (store_fault w (OpUpdateCursor (the (historyId res)))); cbn [fst snd];
        [apply db_eta; exact Htok|reflexivity].
    + cbn [fst snd]. apply db_eta; exact Htok.
  - destruct (processBatch_run w (messages res) db) as (s & f & d0 & tb & HB & _ & Hd).
    assert (Hd0 : d = d0) by (subst d; rewrite HB; reflexivity).
    rewrite Hd0.
    assert (Hw : write = truthy_opt (historyId res)).
    { subst write. rewrite (length_eqb_0 _ _ Hne). reflexivity. }
    rewrite Hw.
    destruct (truthy_opt (historyId res)) eqn:Hc.
    + destruct (truthy_opt_Some _ Hc) as (c0 & Hc0 & Hc0').
      assert (Hcc : c = c0) by (subst c; rewrite Hc0; reflexivity).
      rewrite Hcc.
      destruct (store_fault w (OpUpdateCursor c0)) as [e|] eqn:Hf.
      * rewrite (runEmailSync_write_refused w db t res c0 e tl s f d0 tb
                   Hfind Htok Hrefresh HL Hne Hc0 Hc0' Hf HB).
        unfold final. cbn [fst snd]. apply db_eta. congruence.
      * rewrite (runEmailSync_batch w db t res c0 tl s f d0 tb
                   Hfind Htok Hrefresh HL Hne Hc0 Hc0' Hf HB).
        reflexivity.
    + rewrite (runEmailSync_no_cursor w db t res tl s f d0 tb
                 Hfind Htok Hrefresh HL Hne Hc HB).
      apply db_eta. congruence.
Qed.

(** A cycle that cannot list leaves the database as it is. *)
Lemma runEmailSync_nothing_listed w db :
  store_fault w OpFindTokenSync <> None
  \/ oAuthToken db = None
  \/ (exists e, listing w db = inl e) ->
  final (runEmailSync w db) = db.
Proof.
  intros H.
  destruct (store_fault w OpFindTokenSync) as [x|] eqn:Hfind.
  { destruct (runEmailSync_aborted w db) as [line ->]; [left; congruence|reflexivity]. }
  destruct (oAuthToken db) as [t|] eqn:Htok.
  2:{ destruct (runEmailSync_aborted w db) as [line ->]; [auto|reflexivity]. }
  destruct H as [H|[H|[e He]]]; try congruence.
  destruct (String.eqb_spec (refresh t) "") as [Hr|Hr].
  { destruct (runEmailSync_aborted w db) as [line ->]; [eauto|reflexivity]. }
  rewrite (runEmailSync_fatal w db t e _ Hfind Htok Hr (listing_thrown_run w db t e Htok He)).
  reflexivity.
Qed.

Lemma set_lastHistoryId_same c t :
  lastHistoryId t = Some c -> Prisma.set_lastHistoryId c t = t.
Proof. destruct t. unfold Prisma.set_lastHistoryId. simpl. intros ->. reflexivity. Qed.

(** X12.  A cycle that leaves the cursor where it was (no cursor was listed,
    as in the initial listing; the listed cursor is the stored one; its write
    was refused; or the cycle could not list at all) can be run again against
    the same world at no cost: the second run leaves the database exactly as
    the first left it, every item of the batch being either already stored or
    failing as before. *)
Theorem unmoved_cursor_cycle_is_idempotent (w : World) (db : DB) :
  cursor (final (runEmailSync w db)) = cursor db ->
  run_cycles [w; w] db = run_cycles [w] db.
Proof.
  intros Hcur. simpl.
  destruct (store_fault w OpFindTokenSync) as [x|] eqn:Hfind.
  { rewrite !(runEmailSync_nothing_listed w db) by (left; congruence). reflexivity. }
  destruct (oAuthToken db) as [t|] eqn:Htok.
  2:{ rewrite !(runEmailSync_nothing_listed w db) by auto. reflexivity. }
  destruct (listing w db) as [e|res] eqn:Hlist.
  { rewrite !(runEmailSync_nothing_listed w db) by eauto. reflexivity. }
  pose proof (runEmailSync_final w db t res Hfind Htok Hlist) as Hrun. cbv zeta in Hrun.
  set (d := final (processBatch w (messages res) 0 0 db)) in *.
  set (c := the (historyId res)) in *.
  set (write := if (length (messages res) =? 0)%nat
                then truthy_opt (historyId res)
                     && strict_neq (historyId res) (lastHistoryId t)
                else truthy_opt (historyId res)) in *.
  set (tok := if write
              then match store_fault w (OpUpdateCursor c) with
                   | None => Some (Prisma.set_lastHistoryId c t)
                   | Some _ => Some t
                   end
              else Some t) in *.
  (* the token row has not changed *)
  assert (Htok1 : tok = Some t).
  { rewrite Hrun in Hcur. unfold cursor in Hcur. rewrite Htok in Hcur. cbn [oAuthToken] in Hcur.
    subst tok. destruct write; [|reflexivity].
    destruct (store_fault w (OpUpdateCursor c)); [reflexivity|].
    cbn [Prisma.set_lastHistoryId lastHistoryId] in Hcur.
    rewrite (set_lastHistoryId_same c t (eq_sym Hcur)). reflexivity. }
  set (db1 := final (runEmailSync w db)) in *.
  assert (Ht1 : oAuthToken db1 = Some t) by (rewrite Hrun; exact Htok1).
  assert (Hlist1 : listing w db1 = inr res).
  { rewrite (listing_token_only w db db1), Hlist; [reflexivity|congruence]. }
  pose proof (runEmailSync_final w db1 t res Hfind Ht1 Hlist1) as Hrun1. cbv zeta in Hrun1.
  fold c write tok in Hrun1.
  assert (Hbatch : final (processBatch w (messages res) 0 0 db1) = db1).
  { apply (processBatch_rerun w (messages res) 0 0 0 0 db db1); [congruence|].
    fold d. rewrite Hrun. cbn [emails]. apply incl_refl. }
  rewrite Hbatch in Hrun1. rewrite Hrun1, Htok1. symmetry. apply db_eta. exact Ht1.
Qed.

Lemma unmoved_cursor_cycle_is_idempotent_witness :
  run_cycles [Sample.two_pages; Sample.two_pages] (Sample.db None)
  = run_cycles [Sample.two_pages] (Sample.db None).
Proof.
  apply (unmoved_cursor_cycle_is_idempotent Sample.two_pages (Sample.db None)).
  reflexivity.
Defined.

(** The cursor write is refused, and the next cycle lists the same batch:
    m1 is not stored a second time. *)
Example refused_write_then_retry :
  map gmailId
    (emails (run_cycles [Scenario.cursor_write_fails; Scenario.cursor_write_fails]
               (Sample.db (Some "H100")))) = ["m1"].
Proof. vm_compute. reflexivity. Qed.

(** ** What the batch asks of Gmail, and what it counts *)

Lemma downloadAttachment_no_get w mid aid : emits_only not_get (downloadAttachment w mid aid).
Proof. unfold downloadAttachment. quiet. Qed.

Lemma uploadToDrive_no_get w fn mt data : emits_only not_get (uploadToDrive w fn mt data).
Proof. unfold uploadToDrive. quiet. Qed.

Section Silent.

Variable p : Event -> bool.

Lemma email_create_silent w d : emits_only p (Prisma.email_create w d).
Proof. unfold Prisma.email_create, Prisma.faulty. quiet. Qed.

Lemma attachment_create_silent w i fn mt did durl :
  emits_only p (Prisma.attachment_create w i fn mt did durl).
Proof. unfold Prisma.attachment_create, Prisma.faulty. quiet. Qed.

Lemma update_silent w c : emits_only p (Prisma.oAuthToken_update_lastHistoryId w c).
Proof. unfold Prisma.oAuthToken_update_lastHistoryId, Prisma.faulty. quiet. Qed.

Lemma parseEmailContent_silent w raw : emits_only p (parseEmailContent w raw).
Proof. unfold parseEmailContent. quiet. Qed.

End Silent.

#[export] Hint Resolve email_create_silent attachment_create_silent update_silent
  parseEmailContent_silent : frame.
#[export] Hint Resolve downloadAttachment_no_get uploadToDrive_no_get : frame.

Lemma processAndSaveEmail_no_get w raw : emits_only not_get (processAndSaveEmail w raw).
Proof.
  assert (Hatt : forall rawId e p, emits_only not_get (processAttachment w rawId e p)).
  { intros rawId e p. unfold processAttachment. quiet. }
  assert (Hatts : forall rawId e ps, emits_only not_get (processAttachments w rawId e ps)).
  { intros rawId e ps. induction ps as [|q ps IH]; simpl; quiet. }
  unfold processAndSaveEmail, processStoredEmail, saveEmail. quiet.
Qed.

(** The loop body on an authenticated client asks for the header's message
    once, when the header has an id, and reports it fetched or not. *)
Lemma processHeader_fetch w h db :
  outcome (getAuthenticatedClient w db) = inr tt ->
  fetched (trace (processHeader w h db))
  = (if truthy_opt (msg_id h) then [the (msg_id h)] else [])
  /\ outcome (processHeader w h db) = inr (fetchable w h).
Proof.
  intros Hauth. rewrite processHeader_run. unfold fetchable.
  destruct (truthy_opt (msg_id h)) eqn:Hid; [|split; reflexivity].
  destruct (truthy_opt_Some _ Hid) as (id & Hh & Hne). rewrite Hh. cbn [negb the andb].
  cbv zeta. rewrite (getEmailContent_run w db id Hne Hauth).
  destruct (gmail_messages_get w id) as [raw|e].
  - unfold outcome at 1. cbn [fst]. rewrite !trace_run. split; [|reflexivity].
    cbn [app]. change (fetched (?a :: ?b :: ?c :: ?t)) with (id :: fetched t).
    rewrite (fetched_none _ (processAndSaveEmail_no_get w raw db)). reflexivity.
  - destruct (is_not_found e); unfold outcome at 1; cbn [fst]; rewrite !trace_run;
      split; reflexivity.
Qed.

Lemma processBatch_fetch w : forall hs s f db,
  outcome (getAuthenticatedClient w db) = inr tt ->
  fetched (trace (processBatch w hs s f db)) = listed_ids hs
  /\ outcome (processBatch w hs s f db)
     = inr (s + length (filter (fetchable w) hs),
            f + length (filter (fun h => negb (fetchable w h)) hs)).
Proof.
  induction hs as [|h rest IH]; intros s f db Hauth.
  - simpl. rewrite !Nat.add_0_r. split; reflexivity.
  - destruct (processHeader_fetch w h db Hauth) as [Hf Ho].
    destruct (processHeader w h db) as [[o dbh] t1] eqn:E1.
    unfold outcome in Ho. simpl in Ho. subst o. rewrite trace_run in Hf.
    assert (Htokh : oAuthToken dbh = oAuthToken db)
      by exact (@preserves_run _ _ _ _ _ _ _ _ (processHeader_token w h) E1).
    assert (Hauth' := auth_same_token w db dbh Htokh Hauth).
    rewrite (processBatch_cons w h rest s f db _ dbh t1 E1). cbv zeta.
    rewrite trace_run. unfold outcome at 1. cbn [fst].
    rewrite fetched_app, Hf. cbn [listed_ids flat_map filter].
    destruct (fetchable w h); cbn [negb length].
    + destruct (IH (S s) f dbh Hauth') as [IH1 IH2].
      rewrite IH1, IH2. split; [reflexivity|]. f_equal. f_equal; lia.
    + destruct (IH s (S f) dbh Hauth') as [IH1 IH2].
      rewrite IH1, IH2. split; [reflexivity|]. f_equal. f_equal; lia.
Qed.

(** X13.  On an authenticated client, the batch asks Gmail for the message
    of every listed header that has an id, once each and in the order
    listed, whatever happens to the items before it. *)
Theorem batch_fetches_each_listed_id_once (w : World) (hs : list Message)
    (s f : nat) (db : DB) :
  outcome (getAuthenticatedClient w db) = inr tt ->
  fetched (trace (processBatch w hs s f db)) = listed_ids hs.
Proof. intros Hauth. exact (proj1 (processBatch_fetch w hs s f db Hauth)). Qed.

Lemma batch_fetches_each_listed_id_once_witness :
  fetched (trace (processBatch Sample.m1_ok_m2_throws
                    [Sample.stub "m1"; Sample.stub "m2"] 0 0 (Sample.db (Some "H100"))))
  = listed_ids [Sample.stub "m1"; Sample.stub "m2"].
Proof.
  apply (batch_fetches_each_listed_id_once Sample.m1_ok_m2_throws
           [Sample.stub "m1"; Sample.stub "m2"] 0 0 (Sample.db (Some "H100"))).
  reflexivity.
Defined.

(** X14.  What the summary of a batch counts as succeeded is the headers
    whose message Gmail returned, and as failed all the others: once a
    message has been fetched the item counts as succeeded, whether it was
    stored, was a duplicate, could not be parsed or could not be
    inserted. *)
Theorem summary_counts_fetched_messages (w : World) (hs : list Message)
    (s f : nat) (db : DB) :
  outcome (getAuthenticatedClient w db) = inr tt ->
  outcome (processBatch w hs s f db)
  = inr (s + length (filter (fetchable w) hs),
         f + length (filter (fun h => negb (fetchable w h)) hs)).
Proof. intros Hauth. exact (proj2 (processBatch_fetch w hs s f db Hauth)). Qed.

Lemma summary_counts_fetched_messages_witness :
  outcome (processBatch Sample.insert_fails [Sample.stub "m1"] 0 0 (Sample.db (Some "H100")))
  = inr (0 + length (filter (fetchable Sample.insert_fails) [Sample.stub "m1"]),
         0 + length (filter (fun h => negb (fetchable Sample.insert_fails h))
                            [Sample.stub "m1"])).
Proof.
  apply (summary_counts_fetched_messages Sample.insert_fails [Sample.stub "m1"] 0 0
           (Sample.db (Some "H100"))).
  reflexivity.
Defined.

(** A message that comes back without payload cannot be parsed: nothing is
    stored, and the summary reads one succeeded. *)
Example unparsable_message_reported_as_success :
  let w := Sample.world ["m1"] "H101" (fun _ => Resolved (Sample.stub "m1")) in
  let r := runEmailSync w (Sample.db (Some "H100")) in
  emails (final r) = [] /\
  In (Console LLog (SyncSummary 1 0)) (trace r).
Proof. vm_compute. split; auto 30. Qed.

(** ** Branches that are never taken *)

Lemma auth_not_defensive w : emits_only not_defensive (getAuthenticatedClient w).
Proof. intros db. destruct (auth_trace w db) as [-> | ->]; reflexivity. Qed.
#[export] Hint Resolve auth_not_defensive : frame.

Lemma fallback_pages_not_defensive w budget : forall page token msgs,
  emits_only not_defensive (fallback_pages w budget page token msgs).
Proof. induction budget as [|b IH]; intros page token msgs; simpl; quiet. Qed.
#[export] Hint Resolve fallback_pages_not_defensive : frame.

Lemma listNewEmailMessages_not_defensive w start :
  emits_only not_defensive (listNewEmailMessages w start).
Proof. unfold listNewEmailMessages. quiet. Qed.

Lemma getEmailContent_not_defensive w id :
  truthy id = true -> emits_only not_defensive (getEmailContent w id).
Proof. intros H. unfold getEmailContent. rewrite H. cbn [negb]. quiet. Qed.

Lemma downloadAttachment_not_defensive w mid aid :
  truthy mid = true -> truthy aid = true ->
  emits_only not_defensive (downloadAttachment w mid aid).
Proof. intros H1 H2. unfold downloadAttachment. rewrite H1, H2. cbn [negb orb]. quiet. Qed.

Lemma uploadToDrive_not_defensive w fn mt data :
  emits_only not_defensive (uploadToDrive w fn mt data).
Proof. unfold uploadToDrive. quiet. Qed.

Lemma saveEmail_not_defensive w d : emits_only not_defensive (saveEmail w d).
Proof. unfold saveEmail. quiet. Qed.

Lemma truthy_opt_the o : truthy_opt o = true -> truthy (the o) = true.
Proof. destruct o; [trivial|discriminate]. Qed.

(** The loop over the attachments of a message that has an id: the upload
    either throws or returns a complete file, so the check that follows it
    never fails. *)
Lemma processAttachment_not_defensive w rawId e part :
  truthy rawId = true -> emits_only not_defensive (processAttachment w rawId e part).
Proof.
  intros Hraw. unfold processAttachment.
  destruct (truthy_opt (part_attachmentId part)) eqn:Haid; cbn [negb orb]; [|quiet].
  destruct (negb (truthy_opt (part_filename part)) || negb (truthy_opt (part_mimeType part)));
    [quiet|].
  apply emits_try_catch; [|quiet].
  apply emits_bind; [quiet|]. intros _.
  apply emits_bind;
    [apply downloadAttachment_not_defensive; [exact Hraw|apply truthy_opt_the; exact Haid]|].
  intros base64data.
  destruct (negb (truthy_opt base64data)); [quiet|].
  apply emits_bind; [quiet|]. intros _.
  apply emits_bind_outcome; [apply uploadToDrive_not_defensive|].
  intros db file Hfile.
  destruct (uploadToDrive_file w _ _ _ db file Hfile) as [Hi Hl].
  rewrite Hi, Hl. cbn [negb orb].
  assert (H : emits_only not_defensive
                (Prisma.attachment_create w (email_id e) (the (part_filename part))
                   (the (part_mimeType part)) (the (file_id file)) (the (webViewLink file)) ;;
                 console LLog (ProcAttachmentDone (the (part_filename part))))) by quiet.
  apply H.
Qed.

Lemma processAttachments_not_defensive w rawId e parts :
  truthy rawId = true -> emits_only not_defensive (processAttachments w rawId e parts).
Proof.
  intros Hraw. pose proof (fun p => processAttachment_not_defensive w rawId e p Hraw).
  induction parts as [|p ps IH]; simpl; quiet.
Qed.

Lemma processStoredEmail_not_defensive w raw e :
  truthy_opt (msg_id raw) = true ->
  msg_payload raw <> None ->
  emits_only not_defensive (processStoredEmail w raw e).
Proof.
  intros Hid Hp. unfold processStoredEmail.
  pose proof (fun ps => processAttachments_not_defensive w (the (msg_id raw)) e ps
                          (truthy_opt_the _ Hid)).
  destruct (msg_payload raw) as [payload|]; [|congruence]. quiet.
Qed.

Lemma processAndSaveEmail_not_defensive w raw :
  emits_only not_defensive (processAndSaveEmail w raw).
Proof.
  intros db.
  destruct (truthy_opt (msg_id raw)) eqn:Hid.
  - destruct (msg_payload raw) as [payload|] eqn:Hp.
    + rewrite processAndSaveEmail_run, Hid. cbn [negb].
      destruct (outcome (parseEmailContent w raw db)) as [x|d]; [reflexivity|].
      destruct (outcome (Prisma.email_create w d db)) as [x|e].
      * rewrite trace_run. unfold save_error_line.
        destruct (is_unique_violation x); reflexivity.
      * apply processStoredEmail_not_defensive; [exact Hid|congruence].
    + rewrite processAndSaveEmail_run, Hid. cbn [negb].
      unfold parseEmailContent. rewrite Hp. reflexivity.
  - rewrite processAndSaveEmail_run, Hid. reflexivity.
Qed.

Lemma processHeader_not_defensive w h : emits_only not_defensive (processHeader w h).
Proof.
  pose proof (processAndSaveEmail_not_defensive w).
  unfold processHeader.
  destruct (truthy_opt (msg_id h)) eqn:Hid; cbn [negb]; [|quiet].
  apply emits_try_catch; [|quiet].
  apply emits_bind; [quiet|]. intros _.
  apply emits_bind; [apply getEmailContent_not_defensive, truthy_opt_the; exact Hid|].
  quiet.
Qed.

Lemma processBatch_not_defensive w hs : forall s f,
  emits_only not_defensive (processBatch w hs s f).
Proof.
  pose proof (processHeader_not_defensive w).
  induction hs as [|h rest IH]; intros s f; simpl; quiet.
Qed.

Lemma runEmailSync_not_defensive w : emits_only not_defensive (runEmailSync w).
Proof.
  pose proof (processBatch_not_defensive w).
  pose proof (listNewEmailMessages_not_defensive w).
  unfold runEmailSync, Prisma.oAuthToken_findUnique, Prisma.faulty. quiet.
Qed.

(** X15.  Five defensive branches of the pipeline are never taken in a
    cycle, whatever the world does: [getEmailContent] and
    [downloadAttachment] are never called without an id (their callers have
    checked it); the handler around [saveEmail] never runs ([saveEmail]
    catches everything itself); a stored message always has a payload (the
    parser has thrown otherwise); and an upload that returns has an id and a
    link ([uploadToDrive] has thrown otherwise).  None of their console
    lines is in the trace of a cycle. *)
Theorem defensive_branches_are_never_taken (w : World) (db : DB) :
  Forall (fun ev => defensive_line ev = false) (trace (runEmailSync w db)).
Proof.
  apply Forall_forall. intros ev Hin.
  pose proof (runEmailSync_not_defensive w db) as H.
  rewrite forallb_forall in H. specialize (H ev Hin).
  unfold not_defensive in H. destruct (defensive_line ev); [discriminate H|reflexivity].
Qed.

(** ** An attachment whose row cannot be inserted *)

Lemma uploadToDrive_called w fn mt data db file :
  outcome (uploadToDrive w fn mt data db) = inr file ->
  In (Remote (DriveFilesCreate fn mt)) (trace (uploadToDrive w fn mt data db))
  /\ drive_files_create w fn mt data = Resolved (Some file).
Proof.
  unfold uploadToDrive, getAuthenticatedClient, Prisma.oAuthToken_findUnique, Prisma.faulty.
  unfold_M. unfold outcome, trace.
  run; simpl; intros H; try discriminate H.
  inversion H; subst. split; [left; reflexivity|reflexivity].
Qed.

(** X16.  When the download and the upload of an attachment have succeeded
    and the database server then refuses the insert of the row, the loop
    body ends normally with the error logged and the database unchanged:
    the file has been created on Drive, and no row points to it. *)
Theorem attachment_insert_fault_orphans_upload (w : World) (db : DB) (rawId : string)
    (saved : Email) (part : MessagePart) (e : Exn) (data : string) (file : DriveFile) :
  truthy_opt (part_attachmentId part) = true ->
  truthy_opt (part_filename part) = true ->
  truthy_opt (part_mimeType part) = true ->
  let fn := the (part_filename part) in
  let mt := the (part_mimeType part) in
  store_fault w (OpCreateAttachment (email_id saved) fn) = Some e ->
  outcome (downloadAttachment w rawId (the (part_attachmentId part)) db) = inr (Some data) ->
  outcome (uploadToDrive w fn mt data db) = inr file ->
  let r := processAttachment w rawId saved part db in
  outcome r = inr tt
  /\ final r = db
  /\ drive_files_create w fn mt data = Resolved (Some file)
  /\ In (Remote (DriveFilesCreate fn mt)) (trace r)
  /\ exists before, trace r = before ++ [Console LError (ProcAttachmentError fn e)].
Proof.
  intros Haid Hfn Hmt fn mt Hfault Hdl Hup r.
  destruct (uploadToDrive_called w fn mt data db file Hup) as [Hcall Hcreate].
  assert (Hrun : r = (inr tt, db,
                      Console LLog (ProcDownloading fn)
                        :: trace (downloadAttachment w rawId (the (part_attachmentId part)) db)
                        ++ Console LLog (ProcUploading fn)
                        :: trace (uploadToDrive w fn mt data db)
                        ++ [Console LError (ProcAttachmentError fn e)])).
  { subst r. unfold processAttachment. rewrite Haid, Hfn, Hmt. simpl.
    fold fn. fold mt.
    pose proof (downloadAttachment_data w rawId (the (part_attachmentId part)) db) as Hdata.
    pose proof (downloadAttachment_reads w rawId (the (part_attachmentId part)) db) as Hd.
    unfold whole in Hd.
    unfold try_catch, bind. unfold console at 1. unfold emit at 1.
    set (dl := downloadAttachment w rawId (the (part_attachmentId part)) db) in *.
    clearbody dl.
    destruct dl as [[o d] t]. unfold outcome, final, trace in *. simpl in *. subst d.
    inversion Hdl; subst o. simpl.
    rewrite (Hdata data eq_refl). simpl.
    pose proof (uploadToDrive_file w fn mt data db) as Hfile.
    pose proof (uploadToDrive_reads w fn mt data db) as Hu.
    unfold whole in Hu.
    set (up := uploadToDrive w fn mt data db) in *. clearbody up.
    destruct up as [[o d] t']. unfold outcome, final, trace in *. simpl in *. subst d.
    inversion Hup; subst o. simpl.
    destruct (Hfile file eq_refl) as [Hi Hl]. rewrite Hi, Hl. simpl.
    unfold Prisma.attachment_create, Prisma.faulty. rewrite Hfault.
    unfold throw. simpl. rewrite <- ?app_assoc. simpl. rewrite <- ?app_assoc. reflexivity. }
  rewrite Hrun. unfold outcome, final. rewrite trace_run. cbn [fst snd].
  split; [reflexivity|]. split; [reflexivity|]. split; [exact Hcreate|]. split.
  - right. apply in_or_app. right. right. apply in_or_app. left. exact Hcall.
  - exists (Console LLog (ProcDownloading fn)
              :: trace (downloadAttachment w rawId (the (part_attachmentId part)) db)
              ++ Console LLog (ProcUploading fn)
              :: trace (uploadToDrive w fn mt data db)).
    cbn [app]. rewrite <- app_assoc. reflexivity.
Qed.

Lemma attachment_insert_fault_orphans_upload_witness :
  let w := Scenario.attachment_insert_fails in
  let db := mkDB (Some (Sample.token (Some "H100")))
                 [mkEmail 1 (Sample.parsed "m1" "<1@x>")] [] in
  let saved := mkEmail 1 (Sample.parsed "m1" "<1@x>") in
  let part := Sample.file_part "a.pdf" "application/pdf" "att-a" in
  let e := Sample.server_down in
  let file := mkDriveFile (Some "F1") (Some "https://drive.example/F1") in
  let fn := the (part_filename part) in
  let mt := the (part_mimeType part) in
  let r := processAttachment w "m1" saved part db in
  outcome r = inr tt
  /\ final r = db
  /\ drive_files_create w fn mt "QUJD" = Resolved (Some file)
  /\ In (Remote (DriveFilesCreate fn mt)) (trace r)
  /\ exists before, trace r = before ++ [Console LError (ProcAttachmentError fn e)].
Proof.
  apply (attachment_insert_fault_orphans_upload Scenario.attachment_insert_fails
           (mkDB (Some (Sample.token (Some "H100")))
                 [mkEmail 1 (Sample.parsed "m1" "<1@x>")] [])
           "m1" (mkEmail 1 (Sample.parsed "m1" "<1@x>"))
           (Sample.file_part "a.pdf" "application/pdf" "att-a")
           Sample.server_down "QUJD"
           (mkDriveFile (Some "F1") (Some "https://drive.example/F1")));
    reflexivity.
Defined.

(** ** The parser *)

Lemma find_none_all (f : MessagePart -> bool) (l : list MessagePart) :
  Forall (fun p => f p = false) l -> find f l = None.
Proof.
  induction 1 as [|p ps Hp _ IH]; [reflexivity|]. simpl. rewrite Hp. exact IH.
Qed.

Lemma find_first (f : MessagePart -> bool) (before : list MessagePart) p after :
  Forall (fun q => f q = false) before -> f p = true ->
  find f (before ++ p :: after) = Some p.
Proof.
  intros Hb Hp. induction Hb as [|q qs Hq _ IH]; simpl; [rewrite Hp; reflexivity|].
  rewrite Hq. exact IH.
Qed.

(** X17.  Parsing a message writes nothing and logs nothing, whether it
    returns or throws.  The body of a parsed message is the decoded data of
    the first part of the top level of the payload that is [text/html] or
    [text/plain] (empty when that part has no data), and comes from nowhere
    else: when no top-level part is one (the message is not multipart, or its
    text is nested deeper), the message parses with an empty body, whatever
    its other parts hold. *)
Theorem body_taken_from_top_level_text_part_only (w : World) (raw : Message) (db : DB) :
  final (parseEmailContent w raw db) = db
  /\ trace (parseEmailContent w raw db) = []
  /\ forall payload d,
       msg_payload raw = Some payload ->
       outcome (parseEmailContent w raw db) = inr d ->
       let parts := match part_parts payload with Some ps => ps | None => [] end in
       in_gmailId d = the (msg_id raw)
       /\ (Forall (fun p => is_text_part p = false) parts -> in_body d = "")
       /\ (forall before p after,
             parts = before ++ p :: after ->
             Forall (fun q => is_text_part q = false) before ->
             is_text_part p = true ->
             in_body d = decoded_data w p).
Proof.
  rewrite parseEmailContent_run. unfold final. rewrite trace_run. cbn [fst snd].
  split; [reflexivity|]. split; [reflexivity|].
  intros payload d Hp. unfold parseEmailContent. rewrite Hp.
  destruct (part_headers payload) as [headers|]; [|unfold outcome; simpl; discriminate].
  set (parts := match part_parts payload with Some ps => ps | None => [] end).
  unfold outcome, ret. cbn [fst]. intros H. cbv zeta.
  assert (Hd : in_gmailId d = the (msg_id raw)
               /\ in_body d =
                  (if truthy match find is_text_part parts with
                             | Some p =>
                                 match part_body p with
                                 | Some b => the (or_undefined (body_data b))
                                 | None => ""
                                 end
                             | None => ""
                             end
                   then decode_body w match find is_text_part parts with
                                      | Some p =>
                                          match part_body p with
                                          | Some b => the (or_undefined (body_data b))
                                          | None => ""
                                          end
                                      | None => ""
                                      end
                   else match find is_text_part parts with
                        | Some p =>
                            match part_body p with
                            | Some b => the (or_undefined (body_data b))
                            | None => ""
                            end
                        | None => ""
                        end)).
  { assert (Heq : d = mkEmailInput (in_gmailId d) (in_threadId d) (in_subject d) (in_from d)
                        (in_to d) (in_cc d) (in_bcc d) (in_messageId d) (in_inReplyTo d)
                        (in_references d) (in_internalDate d) (in_body d))
      by (destruct d; reflexivity).
    rewrite Heq in H. injection H as H1 _ _ _ _ _ _ _ _ _ _ H12.
    split; [symmetry; exact H1|symmetry; exact H12]. }
  clear H. destruct Hd as [Hid Hbody].
  split; [exact Hid|]. split.
  - intros Hnone.
    rewrite (find_none_all _ _ Hnone) in Hbody. exact Hbody.
  - intros before p after Hparts Hbefore Hp'.
    rewrite Hparts, (find_first _ _ _ _ Hbefore Hp') in Hbody.
    rewrite Hbody. unfold decoded_data.
    destruct (part_body p) as [b|]; [|reflexivity].
    unfold or_undefined. destruct (truthy_opt (body_data b)) eqn:Ht.
    + destruct (truthy_opt_Some _ Ht) as (s0 & Hs & Hne). rewrite Hs. cbn [the].
      rewrite (truthy_nonempty _ Hne). reflexivity.
    + reflexivity.
Qed.

Lemma body_taken_from_top_level_text_part_only_witness :
  let raw := Scenario.with_text in
  let db := Sample.db (Some "H100") in
  let d := Scenario.parsed_with_text in
  in_gmailId d = the (msg_id raw)
  /\ (Forall (fun p => is_text_part p = false) Scenario.with_text_parts -> in_body d = "")
  /\ (forall before p after,
        Scenario.with_text_parts = before ++ p :: after ->
        Forall (fun q => is_text_part q = false) before ->
        is_text_part p = true ->
        in_body d = decoded_data Sample.all_fail p).
Proof.
  destruct (body_taken_from_top_level_text_part_only Sample.all_fail Scenario.with_text
              (Sample.db (Some "H100"))) as (_ & _ & H).
  apply (H (Part None (Some "multipart/mixed")
                 (Some [mkHeader "Subject" (Some "hello");
                        mkHeader "Message-Id" (Some "<1@x>")])
                 None (Some Scenario.with_text_parts))
           Scenario.parsed_with_text).
  - reflexivity.
  - reflexivity.
Defined.

(** The sample message: the nested text is passed over, the first top-level
    text part gives the body, the second is not looked at. *)
Example body_of_the_sample_message :
  outcome (parseEmailContent Sample.all_fail Scenario.with_text (Sample.db (Some "H100")))
  = inr Scenario.parsed_with_text
  /\ in_body Scenario.parsed_with_text
     = decoded_data Sample.all_fail (Sample.inline_part "note.txt").
Proof. vm_compute. split; reflexivity. Qed.

(** X18.  A header is looked up by name without regard to (ASCII) case, and
    when several headers bear the name the first one decides: its value is
    the result, a later one is never consulted. *)
Theorem getHeader_first_match (headers : list MessagePartHeader) (name : string)
    (v : string) :
  (getHeader headers name = Some v <->
   exists before h after,
     headers = before ++ h :: after /\
     Forall (fun h' => toLowerCase (h_name h') <> toLowerCase name) before /\
     toLowerCase (h_name h) = toLowerCase name /\
     h_value h = Some v)
  /\ (forall name', toLowerCase name' = toLowerCase name ->
        getHeader headers name' = getHeader headers name).
Proof.
  split.
  - unfold getHeader. induction headers as [|h0 rest IH]; simpl.
    + split; [discriminate|]. intros (before & h & after & H & _).
      destruct before; discriminate H.
    + destruct (String.eqb_spec (toLowerCase (h_name h0)) (toLowerCase name)) as [Heq|Hne].
      * split.
        -- intros Hv. exists [], h0, rest. repeat split; auto.
        -- intros (before & h & after & H & Hbefore & Hname & Hv).
           destruct before as [|b before]; simpl in H; inversion H; subst.
           ++ exact Hv.
           ++ inversion Hbefore; subst. contradiction.
      * split.
        -- intros Hv. apply IH in Hv. destruct Hv as (before & h & after & H & Hb & Hn & Hv).
           exists (h0 :: before), h, after. subst rest. repeat split; auto.
        -- intros (before & h & after & H & Hbefore & Hname & Hv).
           destruct before as [|b before]; simpl in H; inversion H; subst.
           ++ contradiction.
           ++ apply IH. exists before, h, after. inversion Hbefore; subst.
              repeat split; auto.
  - intros name' Hn. unfold getHeader. rewrite Hn. reflexivity.
Qed.

(** "Message-Id" answers to "Message-ID", and of two subjects the first is
    kept. *)
Example header_lookup_sample :
  let headers := [mkHeader "SUBJECT" (Some "first"); mkHeader "Message-Id" (Some "<1@x>");
                  mkHeader "Subject" (Some "second")] in
  getHeader headers "Subject" = Some "first"
  /\ getHeader headers "Message-ID" = Some "<1@x>"
  /\ getHeader headers "Cc" = None.
Proof. vm_compute. repeat split. Qed.

(** ** The authorization callback and the rotation of credentials *)

Module OAuthFacts.
Import OAuth.

(** [handleOAuthCallback], case by case. *)
Lemma handleOAuthCallback_run deps code db :
  handleOAuthCallback deps code db =
  if negb (truthy_opt code) then (inr MissingCode, db, [])
  else
    match getTokensFromCode deps (the code) with
    | Rejected e => (inr (Failed e), db, [])
    | Resolved tokens =>
        if negb (truthy_opt (access_token tokens)) then (inr NoAccessToken, db, [])
        else
          match (if truthy_opt (refresh_token tokens)
                 then match encrypt deps (the (refresh_token tokens)) with
                      | inr c => inr (Some c)
                      | inl e => inl e
                      end
                 else inr None) with
          | inl e => (inr (Failed e), db, [])
          | inr secret =>
              match token_fault deps OpFind with
              | Some e => (inr (Failed e), db, [])
              | None =>
                  match oAuthToken db with
                  | Some t =>
                      match new_Date (expiry_date tokens) with
                      | None => (inr (Failed invalid_date), db, [])
                      | Some z =>
                          match token_fault deps OpUpdate with
                          | Some e => (inr (Failed e), db, [])
                          | None =>
                              (inr Authenticated,
                               mkDB (Some (mkOAuthToken
                                             (the (access_token tokens))
                                             (match or_undefined secret with
                                              | Some r => r
                                              | None => refresh t
                                              end)
                                             z (lastHistoryId t)))
                                    (emails db) (attachments db),
                               [])
                          end
                      end
                  | None =>
                      if negb (truthy_opt secret) then (inr NoRefreshToken, db, [])
                      else
                        match new_Date (expiry_date tokens) with
                        | None => (inr (Failed invalid_date), db, [])
                        | Some z =>
                            match token_fault deps OpCreate with
                            | Some e => (inr (Failed e), db, [])
                            | None =>
                                (inr Authenticated,
                                 mkDB (Some (mkOAuthToken (the (access_token tokens))
                                                          (the secret) z None))
                                      (emails db) (attachments db),
                                 [])
                            end
                        end
                  end
              end
          end
    end.
Proof.
  unfold handleOAuthCallback, oAuthToken_findUnique, oAuthToken_update, oAuthToken_create,
    apply_update, call, result.
  unfold_M.
  destruct (negb (truthy_opt code)); [reflexivity|].
  destruct (getTokensFromCode deps (the code)) as [tokens|e]; [|reflexivity].
  simpl.
  destruct (negb (truthy_opt (access_token tokens))); [reflexivity|].
  destruct (truthy_opt (refresh_token tokens)).
  - destruct (encrypt deps (the (refresh_token tokens))) as [e|c]; [reflexivity|]. simpl.
    destruct (token_fault deps OpFind); [reflexivity|]. simpl.
    destruct (oAuthToken db) as [t|] eqn:Ht; simpl.
    + destruct (new_Date (expiry_date tokens)); [|reflexivity].
      destruct (token_fault deps OpUpdate); [reflexivity|]. simpl. rewrite Ht.
      simpl. destruct (or_undefined (Some c)); reflexivity.
    + destruct (negb (truthy c)); [reflexivity|].
      destruct (new_Date (expiry_date tokens)); [|reflexivity].
      destruct (token_fault deps OpCreate); [reflexivity|]. simpl. rewrite Ht.
      reflexivity.
  - simpl.
    destruct (token_fault deps OpFind); [reflexivity|]. simpl.
    destruct (oAuthToken db) as [t|] eqn:Ht; simpl; [|reflexivity].
    destruct (new_Date (expiry_date tokens)); [|reflexivity].
    destruct (token_fault deps OpUpdate); [reflexivity|]. simpl. rewrite Ht.
    reflexivity.
Qed.

(** The listener, case by case. *)
Lemma onTokens_run deps tokens db :
  let with_access := truthy_opt (access_token tokens) && truthy_num (expiry_date tokens) in
  onTokens deps tokens db =
  match (if truthy_opt (refresh_token tokens)
         then match encrypt deps (the (refresh_token tokens)) with
              | inr c => inr (Some c)
              | inl e => inl e
              end
         else inr None) with
  | inl e => (inr tt, db, [])
  | inr secret =>
      if with_access || truthy_opt (refresh_token tokens)
      then
        match (if with_access then new_Date (expiry_date tokens) else Some 0%Z),
              token_fault deps OpRotate,
              oAuthToken db with
        | Some z, None, Some t =>
            (inr tt,
             mkDB (Some (mkOAuthToken
                           (if with_access then the (access_token tokens) else access t)
                           (match secret with Some r => r | None => refresh t end)
                           (if with_access then z else expiry t)
                           (lastHistoryId t)))
                  (emails db) (attachments db),
             [])
        | _, _, _ => (inr tt, db, [])
        end
      else (inr tt, db, [])
  end.
Proof.
  intros with_access. unfold onTokens, oAuthToken_update, apply_update, result.
  fold with_access. unfold_M.
  destruct (truthy_opt (refresh_token tokens)).
  - destruct (encrypt deps (the (refresh_token tokens))) as [e|c]; [reflexivity|]. simpl.
    rewrite orb_true_r.
    destruct with_access eqn:Hw; simpl.
    + destruct (new_Date (expiry_date tokens)); [|reflexivity].
      destruct (token_fault deps OpRotate); [reflexivity|]. simpl.
      destruct (oAuthToken db) as [t|] eqn:Ht; simpl; [|reflexivity].
      destruct (truthy_opt_Some (access_token tokens)) as (a & -> & _).
      { subst with_access. apply andb_prop in Hw. tauto. }
      reflexivity.
    + destruct (token_fault deps OpRotate); [reflexivity|]. simpl.
      destruct (oAuthToken db) as [t|] eqn:Ht; simpl; reflexivity.
  - simpl. rewrite orb_false_r.
    destruct with_access eqn:Hw; simpl; [|reflexivity].
    destruct (new_Date (expiry_date tokens)); [|reflexivity].
    destruct (token_fault deps OpRotate); [reflexivity|]. simpl.
    destruct (oAuthToken db) as [t|] eqn:Ht; simpl; [|reflexivity].
    destruct (truthy_opt_Some (access_token tokens)) as (a & -> & _).
    { subst with_access. apply andb_prop in Hw. tauto. }
    reflexivity.
Qed.

End OAuthFacts.

(** ** The shape of a ciphertext, and keys that are not hexadecimal *)

Module CipherFacts.
Import Encryption.

Lemma hex_of_bytes_length (bs : bytes) : String.length (hex_of_bytes bs) = 2 * length bs.
Proof. induction bs as [|b bs IH]; simpl; [reflexivity|]. rewrite IH. lia. Qed.

Lemma hex_byte_is_hex (b : ascii) (rest : string) :
  all_hex (String (hex_char (nat_of_ascii b / 16))
             (String (hex_char (nat_of_ascii b mod 16)) rest)) = all_hex rest.
Proof. destruct b as [[] [] [] [] [] [] [] []]; reflexivity. Qed.

Lemma hex_of_bytes_all_hex (bs : bytes) : all_hex (hex_of_bytes bs) = true.
Proof.
  induction bs as [|b bs IH]; [reflexivity|].
  cbn [hex_of_bytes]. rewrite hex_byte_is_hex. exact IH.
Qed.

Lemma utf8_encode_length (s : string) : length (utf8_encode s) = String.length s.
Proof. unfold utf8_encode. induction s; simpl; congruence. Qed.

(** [Buffer.from(s, "hex")] on a string that is not all hexadecimal digits
    yields less than half as many bytes as the string has characters. *)
Lemma bytes_of_hex_short : forall n s,
  String.length s <= n -> all_hex s = false ->
  2 * length (bytes_of_hex s) < String.length s.
Proof.
  induction n as [|n IH]; intros s Hn Hhex.
  - destruct s; [discriminate Hhex|simpl in Hn; lia].
  - destruct s as [|a [|b rest]].
    + discriminate Hhex.
    + simpl. lia.
    + cbn [bytes_of_hex all_hex] in *.
      destruct (hex_digit a); [|simpl; lia].
      destruct (hex_digit b); [|simpl; lia].
      cbn [length String.length] in *.
      assert (2 * length (bytes_of_hex rest) < String.length rest)
        by (apply IH; [lia|exact Hhex]).
      lia.
Qed.

Section Shape.

Variable E : bytes -> bytes -> bytes.
Hypothesis Elen :
  forall k b, length k = KEY_LENGTH -> length b = BLOCK -> length (E k b) = BLOCK.

Lemma encrypt_shape (m : Keys) (p c : string) :
  encrypt E m p = inr c ->
  String.length c = 32 * (String.length p / 16 + 1) /\ all_hex c = true.
Proof.
  unfold encrypt.
  destruct (createCipheriv m) as [x|[]] eqn:Hc; [discriminate|].
  assert (Hk : length (key m) = KEY_LENGTH).
  { unfold createCipheriv in Hc.
    destruct (length (key m) =? KEY_LENGTH)%nat eqn:Hk; [|discriminate Hc].
    apply Nat.eqb_eq. exact Hk. }
  assert (Hi : length (iv m) = BLOCK).
  { unfold createCipheriv in Hc.
    destruct (length (key m) =? KEY_LENGTH)%nat; [|discriminate Hc].
    destruct (length (iv m) =? BLOCK)%nat eqn:Hi; [|discriminate Hc].
    apply Nat.eqb_eq. exact Hi. }
  cbv zeta.
  set (ct := hex_of_bytes _). intros H.
  assert (Hct : c = ct) by congruence. subst c. subst ct.
  split; [|apply hex_of_bytes_all_hex].
  rewrite hex_of_bytes_length.
  set (padded := pkcs7_pad (utf8_encode p)).
  set (n := length (utf8_encode p) / BLOCK + 1).
  assert (Hpad : length padded = BLOCK * n) by apply EncryptionFacts.pkcs7_pad_length.
  assert (Hblocks : length padded / BLOCK = n).
  { rewrite Hpad, Nat.mul_comm. apply Nat.div_mul. unfold BLOCK. lia. }
  rewrite Hblocks.
  rewrite (EncryptionFacts.cbc_encrypt_length E (key m) (fun b => Elen (key m) b Hk)
             n (iv m) padded Hpad Hi).
  subst n. rewrite utf8_encode_length. unfold BLOCK. lia.
Qed.

Lemma encrypt_nonempty (m : Keys) (p c : string) : encrypt E m p = inr c -> c <> "".
Proof.
  intros H. destruct (encrypt_shape m p c H) as [Hlen _].
  intros ->. simpl in Hlen. lia.
Qed.

End Shape.

End CipherFacts.

(** X19.  A ciphertext is a string of hexadecimal digits, two per byte of
    whole 16-byte blocks: 32 characters for every 16 bytes the plaintext has
    in full, and 32 more for the last block, which the padding completes (or
    makes up entirely).  So it is never empty and never the plaintext
    itself. *)
Theorem ciphertext_shape
    (E : Encryption.bytes -> Encryption.bytes -> Encryption.bytes)
    (m : Encryption.Keys) (p c : string) :
  (forall key b, length key = Encryption.KEY_LENGTH -> length b = Encryption.BLOCK ->
                 length (E key b) = Encryption.BLOCK) ->
  Encryption.encrypt E m p = inr c ->
  String.length c = 32 * (String.length p / 16 + 1)
  /\ Encryption.all_hex c = true
  /\ c <> ""
  /\ c <> p.
Proof.
  intros Elen H.
  destruct (CipherFacts.encrypt_shape E Elen m p c H) as [Hlen Hhex].
  split; [exact Hlen|]. split; [exact Hhex|]. split.
  - exact (CipherFacts.encrypt_nonempty E Elen m p c H).
  - intros ->.
    pose proof (Nat.div_mod_eq (String.length p) 16) as Hd.
    pose proof (Nat.mod_upper_bound (String.length p) 16 ltac:(lia)) as Hm.
    lia.
Qed.

Lemma ciphertext_shape_witness :
  String.length "6665646362613938373635343332313020212223242526272829717273747576"
  = 32 * (String.length "0123456789abcdef" / 16 + 1)
  /\ Encryption.all_hex "6665646362613938373635343332313020212223242526272829717273747576"
     = true
  /\ "6665646362613938373635343332313020212223242526272829717273747576" <> ""
  /\ "6665646362613938373635343332313020212223242526272829717273747576"
     <> "0123456789abcdef".
Proof.
  apply (ciphertext_shape Sample.toy_block Sample.keys "0123456789abcdef"
           "6665646362613938373635343332313020212223242526272829717273747576").
  - intros key b _ Hb. unfold Sample.toy_block. rewrite length_rev. exact Hb.
  - reflexivity.
Defined.

(** X20.  The check made when the module is loaded looks at the length of
    the key only.  A key of 64 characters that are not all hexadecimal digits
    passes it, and the module then loads with a key buffer of less than 32
    bytes: every later [encrypt] throws "Invalid key length" and every
    [decrypt] fails. *)
Theorem key_that_is_not_hex_fails_at_first_use
    (E D : Encryption.bytes -> Encryption.bytes -> Encryption.bytes)
    (env : Encryption.Env) (k : string) (m : Encryption.Keys) :
  Encryption.ENCRYPTION_KEY env = Some k ->
  Encryption.all_hex k = false ->
  Encryption.load env = inr m ->
  length (Encryption.key m) < Encryption.KEY_LENGTH
  /\ (forall text, Encryption.encrypt E m text = inl (OtherError "Invalid key length"))
  /\ (forall encryptedText,
        Encryption.decrypt D m encryptedText = inl Encryption.decrypt_failed).
Proof.
  intros Hk Hhex. unfold Encryption.load. rewrite Hk.
  destruct (truthy k && (String.length k =? 64)%nat) eqn:Ek; [|discriminate].
  destruct (Encryption.ENCRYPTION_IV env) as [i|]; [|discriminate].
  destruct (truthy i && (String.length i =? 32)%nat); [|discriminate].
  intros H. inversion H; subst m. clear H. cbn [Encryption.key].
  apply andb_prop in Ek. destruct Ek as [_ Ek]. apply Nat.eqb_eq in Ek.
  pose proof (CipherFacts.bytes_of_hex_short (String.length k) k (le_n _) Hhex) as Hshort.
  assert (Hlt : length (Encryption.bytes_of_hex k) < Encryption.KEY_LENGTH)
    by (unfold Encryption.KEY_LENGTH; lia).
  assert (Hneq : (length (Encryption.bytes_of_hex k) =? Encryption.KEY_LENGTH)%nat = false)
    by (apply Nat.eqb_neq; lia).
  split; [exact Hlt|]. split.
  - intros text. unfold Encryption.encrypt, Encryption.createCipheriv.
    cbn [Encryption.key]. rewrite Hneq. reflexivity.
  - intros c. unfold Encryption.decrypt, Encryption.createCipheriv.
    cbn [Encryption.key]. rewrite Hneq. reflexivity.
Qed.

Lemma key_that_is_not_hex_fails_at_first_use_witness :
  let m := Encryption.mkKeys [] (repeat zero 16) in
  length (Encryption.key m) < Encryption.KEY_LENGTH
  /\ (forall text,
        Encryption.encrypt Sample.toy_block m text = inl (OtherError "Invalid key length"))
  /\ (forall encryptedText,
        Encryption.decrypt Sample.toy_block m encryptedText = inl Encryption.decrypt_failed).
Proof.
  apply (key_that_is_not_hex_fails_at_first_use Sample.toy_block Sample.toy_block
           Scenario.bad_env Scenario.bad_key_hex
           (Encryption.mkKeys [] (repeat zero 16)));
    reflexivity.
Defined.

Lemma callback_summary (deps : OAuth.Deps)
    (code : option string) (db : DB) :
  let r := OAuth.handleOAuthCallback deps code db in
  exists reply,
    outcome r = inr reply
    /\ emails (final r) = emails db
    /\ attachments (final r) = attachments db
    /\ cursor (final r) = cursor db
    /\ (OAuth.status reply <> 200 -> final r = db).
Proof.
  intros r. subst r. rewrite OAuthFacts.handleOAuthCallback_run.
  assert (Hsame : forall reply,
            let r : (Exn + OAuth.Reply) * DB * list Event := (inr reply, db, []) in
            exists reply',
              outcome r = inr reply'
              /\ emails (final r) = emails db
              /\ attachments (final r) = attachments db
              /\ cursor (final r) = cursor db
              /\ (OAuth.status reply' <> 200 -> final r = db)).
  { intros reply r. exists reply. subst r. unfold outcome, final. cbn [fst snd].
    repeat split; auto. }
  destruct (negb (truthy_opt code)); [apply Hsame|].
  destruct (OAuth.getTokensFromCode deps (the code)) as [tokens|e]; [|apply Hsame].
  destruct (negb (truthy_opt (OAuth.access_token tokens))); [apply Hsame|].
  destruct (if truthy_opt (OAuth.refresh_token tokens)
            then match OAuth.encrypt deps (the (OAuth.refresh_token tokens)) with
                 | inl e => inl e
                 | inr c => inr (Some c)
                 end
            else inr None) as [e|secret]; [apply Hsame|].
  destruct (OAuth.token_fault deps OAuth.OpFind); [apply Hsame|].
  destruct (oAuthToken db) as [t|] eqn:Ht.
  - destruct (OAuth.new_Date (OAuth.expiry_date tokens)) as [z|]; [|apply Hsame].
    destruct (OAuth.token_fault deps OAuth.OpUpdate); [apply Hsame|].
    exists OAuth.Authenticated. unfold outcome, final, cursor.
    cbn [fst snd emails attachments oAuthToken lastHistoryId]. rewrite Ht.
    repeat split; auto. intros H. exfalso. apply H. reflexivity.
  - destruct (negb (truthy_opt secret)); [apply Hsame|].
    destruct (OAuth.new_Date (OAuth.expiry_date tokens)) as [z|]; [|apply Hsame].
    destruct (OAuth.token_fault deps OAuth.OpCreate); [apply Hsame|].
    exists OAuth.Authenticated. unfold outcome, final, cursor.
    cbn [fst snd emails attachments oAuthToken lastHistoryId]. rewrite Ht.
    repeat split; auto. intros H. exfalso. apply H. reflexivity.
Qed.

(** X21.  The authorization callback always answers, and writes nothing
    unless it answers 200: whatever Google returns, whatever the cipher and
    the database server do, the handler ends normally with one of its five
    replies; the two tables and the cursor are as before in every case, and
    after any reply other than the 200 one the whole database is. *)
Theorem callback_answers_and_failure_writes_nothing (deps : OAuth.Deps)
    (code : option string) (db : DB) :
  let r := OAuth.handleOAuthCallback deps code db in
  exists reply,
    outcome r = inr reply
    /\ emails (final r) = emails db
    /\ attachments (final r) = attachments db
    /\ cursor (final r) = cursor db
    /\ (OAuth.status reply <> 200 -> final r = db).
Proof. exact (callback_summary deps code db). Qed.

Lemma callback_success (deps : OAuth.Deps)
    (code : option string) (db : DB) :
  let r := OAuth.handleOAuthCallback deps code db in
  outcome r = inr OAuth.Authenticated ->
  exists tokens a z t',
    OAuth.getTokensFromCode deps (the code) = Resolved tokens
    /\ OAuth.access_token tokens = Some a /\ a <> ""
    /\ OAuth.new_Date (OAuth.expiry_date tokens) = Some z
    /\ oAuthToken (final r) = Some t'
    /\ access t' = a /\ expiry t' = z
    /\ lastHistoryId t' = cursor db
    /\ ((exists s c,
           OAuth.refresh_token tokens = Some s /\ s <> ""
           /\ OAuth.encrypt deps s = inr c /\ c <> "" /\ refresh t' = c)
        \/ (exists t,
              oAuthToken db = Some t /\ refresh t' = refresh t
              /\ (truthy_opt (OAuth.refresh_token tokens) = false
                  \/ OAuth.encrypt deps (the (OAuth.refresh_token tokens)) = inr ""))).
Proof.
  intros r. subst r. rewrite OAuthFacts.handleOAuthCallback_run. unfold cursor.
  destruct (negb (truthy_opt code)); [unfold outcome; simpl; discriminate|].
  destruct (OAuth.getTokensFromCode deps (the code)) as [tokens|e];
    [|unfold outcome; simpl; discriminate].
  destruct (truthy_opt (OAuth.access_token tokens)) eqn:Ha;
    [|unfold outcome; simpl; discriminate].
  destruct (truthy_opt_Some _ Ha) as (a & Ha1 & Ha2). cbn [negb].
  destruct (truthy_opt (OAuth.refresh_token tokens)) eqn:Hr.
  - destruct (truthy_opt_Some _ Hr) as (s & Hs1 & Hs2). rewrite Hs1. cbn [the].
    destruct (OAuth.encrypt deps s) as [e|c] eqn:Hc; [unfold outcome; simpl; discriminate|].
    destruct (OAuth.token_fault deps OAuth.OpFind); [unfold outcome; simpl; discriminate|].
    destruct (oAuthToken db) as [t|] eqn:Ht.
    + destruct (OAuth.new_Date (OAuth.expiry_date tokens)) as [z|] eqn:Hz;
        [|unfold outcome; simpl; discriminate].
      destruct (OAuth.token_fault deps OAuth.OpUpdate); [unfold outcome; simpl; discriminate|].
      intros _. exists tokens, a, z. eexists. unfold final. cbn [fst snd oAuthToken].
      rewrite Ha1, Hs1. cbn [the access expiry lastHistoryId refresh].
      repeat (split; [reflexivity || assumption|]).
      unfold or_undefined. cbn [truthy_opt].
      destruct (truthy c) eqn:Htc.
      * left. exists s, c. repeat split; auto. intros ->. discriminate Htc.
      * right. exists t. repeat split; auto. right. cbn [the].
        unfold truthy in Htc. apply negb_false_iff in Htc. apply String.eqb_eq in Htc.
        subst c. exact Hc.
    + cbn [truthy_opt].
      destruct (truthy c) eqn:Htc; [|unfold outcome; simpl; discriminate]. cbn [negb].
      destruct (OAuth.new_Date (OAuth.expiry_date tokens)) as [z|] eqn:Hz;
        [|unfold outcome; simpl; discriminate].
      destruct (OAuth.token_fault deps OAuth.OpCreate); [unfold outcome; simpl; discriminate|].
      intros _. exists tokens, a, z. eexists. unfold final. cbn [fst snd oAuthToken].
      rewrite Ha1, Hs1. cbn [the access expiry lastHistoryId refresh].
      repeat (split; [reflexivity || assumption|]).
      left. exists s, c. repeat split; auto. intros ->. discriminate Htc.
  - destruct (OAuth.token_fault deps OAuth.OpFind); [unfold outcome; simpl; discriminate|].
    destruct (oAuthToken db) as [t|] eqn:Ht; [|unfold outcome; simpl; discriminate].
    destruct (OAuth.new_Date (OAuth.expiry_date tokens)) as [z|] eqn:Hz;
      [|unfold outcome; simpl; discriminate].
    destruct (OAuth.token_fault deps OAuth.OpUpdate); [unfold outcome; simpl; discriminate|].
    intros _. exists tokens, a, z. eexists. unfold final. cbn [fst snd oAuthToken].
    rewrite Ha1. cbn [the access expiry lastHistoryId refresh or_undefined truthy_opt].
    repeat (split; [reflexivity || assumption|]).
    right. exists t. repeat split; auto.
Qed.

(** X22.  When the callback answers 200, the token row holds the access
    token Google has just issued with its expiry date, the cursor it had (none
    for a new row), and a refresh secret that is either the non-empty
    encryption of a refresh token issued with it, or the secret the row held
    before, which is kept when no new one is to be had. *)
Theorem callback_success_stores_credentials (deps : OAuth.Deps)
    (code : option string) (db : DB) :
  let r := OAuth.handleOAuthCallback deps code db in
  outcome r = inr OAuth.Authenticated ->
  exists tokens a z t',
    OAuth.getTokensFromCode deps (the code) = Resolved tokens
    /\ OAuth.access_token tokens = Some a /\ a <> ""
    /\ OAuth.new_Date (OAuth.expiry_date tokens) = Some z
    /\ oAuthToken (final r) = Some t'
    /\ access t' = a /\ expiry t' = z
    /\ lastHistoryId t' = cursor db
    /\ ((exists s c,
           OAuth.refresh_token tokens = Some s /\ s <> ""
           /\ OAuth.encrypt deps s = inr c /\ c <> "" /\ refresh t' = c)
        \/ (exists t,
              oAuthToken db = Some t /\ refresh t' = refresh t
              /\ (truthy_opt (OAuth.refresh_token tokens) = false
                  \/ OAuth.encrypt deps (the (OAuth.refresh_token tokens)) = inr ""))).
Proof. exact (callback_success deps code db). Qed.

Lemma callback_success_stores_credentials_witness :
  let deps := Scenario.deps true in
  let r := OAuth.handleOAuthCallback deps (Some "4/code") Scenario.fresh in
  exists tokens a z t',
    OAuth.getTokensFromCode deps (the (Some "4/code")) = Resolved tokens
    /\ OAuth.access_token tokens = Some a /\ a <> ""
    /\ OAuth.new_Date (OAuth.expiry_date tokens) = Some z
    /\ oAuthToken (final r) = Some t'
    /\ access t' = a /\ expiry t' = z
    /\ lastHistoryId t' = cursor Scenario.fresh
    /\ ((exists s c,
           OAuth.refresh_token tokens = Some s /\ s <> ""
           /\ OAuth.encrypt deps s = inr c /\ c <> "" /\ refresh t' = c)
        \/ (exists t,
              oAuthToken Scenario.fresh = Some t /\ refresh t' = refresh t
              /\ (truthy_opt (OAuth.refresh_token tokens) = false
                  \/ OAuth.encrypt deps (the (OAuth.refresh_token tokens)) = inr ""))).
Proof.
  apply (callback_success_stores_credentials (Scenario.deps true) (Some "4/code")
           Scenario.fresh).
  reflexivity.
Defined.

(** The first consent without a refresh token is refused with a 400 and
    nothing is stored; a later consent that issues none keeps the stored
    secret and the cursor. *)
Example consent_without_refresh_token :
  outcome (OAuth.handleOAuthCallback (Scenario.deps false) (Some "4/code") Scenario.fresh)
  = inr OAuth.NoRefreshToken
  /\ final (OAuth.handleOAuthCallback (Scenario.deps false) (Some "4/code") Scenario.fresh)
     = Scenario.fresh
  /\ oAuthToken (final (OAuth.handleOAuthCallback (Scenario.deps false) (Some "4/code")
                          (Sample.db (Some "H100"))))
     = Some (mkOAuthToken "ya29.access" "0a1b2c" 1700003600000%Z (Some "H100")).
Proof. vm_compute. repeat split. Qed.

Lemma rotation_summary (deps : OAuth.Deps) (tokens : OAuth.Credentials) (db : DB) :
  let r := OAuth.onTokens deps tokens db in
  outcome r = inr tt
  /\ emails (final r) = emails db
  /\ attachments (final r) = attachments db
  /\ cursor (final r) = cursor db
  /\ (oAuthToken db = None -> final r = db)
  /\ (forall t, oAuthToken db = Some t ->
        exists t',
          oAuthToken (final r) = Some t'
          /\ lastHistoryId t' = lastHistoryId t
          /\ ((access t' = access t /\ expiry t' = expiry t)
              \/ (OAuth.access_token tokens = Some (access t')
                  /\ OAuth.truthy_num (OAuth.expiry_date tokens) = true
                  /\ OAuth.new_Date (OAuth.expiry_date tokens) = Some (expiry t')))
          /\ (refresh t' = refresh t
              \/ exists s, OAuth.refresh_token tokens = Some s /\ s <> ""
                           /\ OAuth.encrypt deps s = inr (refresh t'))).
Proof.
  intros r. subst r.
  set (P := fun r : (Exn + unit) * DB * list Event =>
    outcome r = inr tt
    /\ emails (final r) = emails db
    /\ attachments (final r) = attachments db
    /\ cursor (final r) = cursor db
    /\ (oAuthToken db = None -> final r = db)
    /\ (forall t, oAuthToken db = Some t ->
          exists t',
            oAuthToken (final r) = Some t'
            /\ lastHistoryId t' = lastHistoryId t
            /\ ((access t' = access t /\ expiry t' = expiry t)
                \/ (OAuth.access_token tokens = Some (access t')
                    /\ OAuth.truthy_num (OAuth.expiry_date tokens) = true
                    /\ OAuth.new_Date (OAuth.expiry_date tokens) = Some (expiry t')))
            /\ (refresh t' = refresh t
                \/ exists s, OAuth.refresh_token tokens = Some s /\ s <> ""
                             /\ OAuth.encrypt deps s = inr (refresh t')))).
  change (P (OAuth.onTokens deps tokens db)).
  assert (Hsame : P (inr tt, db, [])).
  { unfold P, outcome, final. cbn [fst snd].
    repeat split; auto. intros t Ht. exists t. repeat split; auto. }
  assert (Hnew : forall t a z c,
            oAuthToken db = Some t ->
            (a = access t /\ z = expiry t
             \/ OAuth.access_token tokens = Some a
                /\ OAuth.truthy_num (OAuth.expiry_date tokens) = true
                /\ OAuth.new_Date (OAuth.expiry_date tokens) = Some z) ->
            (c = refresh t
             \/ exists s, OAuth.refresh_token tokens = Some s /\ s <> ""
                          /\ OAuth.encrypt deps s = inr c) ->
            P (inr tt,
               mkDB (Some (mkOAuthToken a c z (lastHistoryId t))) (emails db) (attachments db),
               [])).
  { intros t a z c Ht Ha Hc. unfold P, outcome, final, cursor.
    cbn [fst snd emails attachments oAuthToken lastHistoryId]. rewrite Ht.
    split; [reflexivity|]. split; [reflexivity|]. split; [reflexivity|].
    split; [reflexivity|]. split; [discriminate|].
    intros t0 Ht0. injection Ht0 as <-. eexists. split; [reflexivity|].
    cbn [access refresh expiry lastHistoryId]. split; [reflexivity|]. split.
    - destruct Ha as [[-> ->]|Ha]; [left; auto|right; exact Ha].
    - exact Hc. }
  rewrite OAuthFacts.onTokens_run. cbv zeta.
  destruct (truthy_opt (OAuth.refresh_token tokens)) eqn:Hr.
  - destruct (truthy_opt_Some _ Hr) as (s & Hs1 & Hs2). rewrite Hs1. cbn [the].
    destruct (OAuth.encrypt deps s) as [e|c] eqn:Hc; [exact Hsame|].
    rewrite orb_true_r.
    destruct (truthy_opt (OAuth.access_token tokens)
              && OAuth.truthy_num (OAuth.expiry_date tokens)) eqn:Hw.
    + apply andb_prop in Hw. destruct Hw as [Ha Hn].
      destruct (truthy_opt_Some _ Ha) as (a & Ha1 & _). rewrite Ha1. cbn [the].
      destruct (OAuth.new_Date (OAuth.expiry_date tokens)) as [z|] eqn:Hz; [|exact Hsame].
      destruct (OAuth.token_fault deps OAuth.OpRotate); [exact Hsame|].
      destruct (oAuthToken db) as [t|] eqn:Ht; [|exact Hsame].
      apply (Hnew t a z c eq_refl); [right; auto|right; exists s; auto].
    + destruct (OAuth.token_fault deps OAuth.OpRotate); [exact Hsame|].
      destruct (oAuthToken db) as [t|] eqn:Ht; [|exact Hsame].
      apply (Hnew t (access t) (expiry t) c eq_refl); [left; auto|right; exists s; auto].
  - rewrite orb_false_r.
    destruct (truthy_opt (OAuth.access_token tokens)
              && OAuth.truthy_num (OAuth.expiry_date tokens)) eqn:Hw; [|exact Hsame].
    apply andb_prop in Hw. destruct Hw as [Ha Hn].
    destruct (truthy_opt_Some _ Ha) as (a & Ha1 & _). rewrite Ha1. cbn [the].
    destruct (OAuth.new_Date (OAuth.expiry_date tokens)) as [z|] eqn:Hz; [|exact Hsame].
    destruct (OAuth.token_fault deps OAuth.OpRotate); [exact Hsame|].
    destruct (oAuthToken db) as [t|] eqn:Ht; [|exact Hsame].
    apply (Hnew t a z (refresh t) eq_refl); [right; auto|left; reflexivity].
Qed.


(** An access token that comes without an expiry date is not stored. *)
Example rotation_without_expiry_is_ignored :
  final (OAuth.onTokens (Scenario.deps true)
           (OAuth.mkCredentials (Some "ya29.new") None OAuth.Undefined)
           (Sample.db (Some "H100")))
  = Sample.db (Some "H100").
Proof. vm_compute. reflexivity. Qed.

(** ** Cycles, callbacks and rotations in any order *)

Lemma steps_app ss1 ss2 db :
  OAuth.steps (ss1 ++ ss2) db = OAuth.steps ss2 (OAuth.steps ss1 db).
Proof. revert db. induction ss1 as [|s ss1 IH]; intros db; simpl; [reflexivity|apply IH]. Qed.

(** X24.  The cursor belongs to the cycles: neither the authorization
    callback nor the rotation of credentials ever changes it.  After any
    sequence of cycles, callbacks and rotations, in any order, the cursor is
    the initial one or the [historyId] that the listing call of one of the
    cycles returned. *)
Theorem cursor_moves_only_in_cycles (ss : list OAuth.Step) (db : DB) :
  cursor (OAuth.steps ss db) = cursor db \/
  exists ss1 w ss2 res c,
    ss = ss1 ++ OAuth.Cycle w :: ss2 /\
    listing w (OAuth.steps ss1 db) = inr res /\
    historyId res = Some c /\
    cursor (OAuth.steps ss db) = Some c.
Proof.
  induction ss as [|s ss IH] using rev_ind; [left; reflexivity|].
  rewrite steps_app. simpl.
  assert (Hkeep : cursor (OAuth.step s (OAuth.steps ss db)) = cursor (OAuth.steps ss db) ->
                  cursor (OAuth.step s (OAuth.steps ss db)) = cursor db \/
                  exists ss1 w ss2 res c,
                    ss ++ [s] = ss1 ++ OAuth.Cycle w :: ss2 /\
                    listing w (OAuth.steps ss1 db) = inr res /\
                    historyId res = Some c /\
                    cursor (OAuth.step s (OAuth.steps ss db)) = Some c).
  { intros Hsame. rewrite Hsame.
    destruct IH as [IH|(ss1 & w' & ss2 & res & c & -> & Hl & Hc & Hcur)].
    - left. exact IH.
    - right. exists ss1, w', (ss2 ++ [s]), res, c.
      rewrite <- app_assoc. simpl. auto. }
  destruct s as [w|deps code|deps tokens]; simpl in *.
  - destruct (runEmailSync_cursor_step w (OAuth.steps ss db)) as [[Hsame|Hnew] _].
    + apply Hkeep. exact Hsame.
    + destruct Hnew as (res & c & Hl & Hc & Hcur).
      right. exists ss, w, [], res, c. auto.
  - apply Hkeep.
    destruct (callback_summary deps code (OAuth.steps ss db)) as (reply & _ & _ & _ & H & _).
    exact H.
  - apply Hkeep.
    destruct (rotation_summary deps tokens (OAuth.steps ss db)) as (_ & _ & _ & H & _).
    exact H.
Qed.

Lemma callback_keeps_refresh deps code db :
  has_refresh db -> has_refresh (final (OAuth.handleOAuthCallback deps code db)).
Proof.
  intros Hdb.
  destruct (callback_summary deps code db) as (reply & Ho & _ & _ & _ & Hfail).
  destruct reply; try (rewrite Hfail; [exact Hdb|simpl; lia]).
  destruct (callback_success deps code db Ho)
    as (tokens & a & z & t' & _ & _ & _ & _ & Ht' & _ & _ & _ & Hr).
  exists t'. split; [exact Ht'|].
  destruct Hr as [(s & c & _ & _ & _ & Hc & ->)|(t & Ht & -> & _)]; [exact Hc|].
  destruct Hdb as (t0 & Ht0 & Hr0). congruence.
Qed.

Lemma rotation_keeps_refresh deps tokens db :
  cipher_nonempty deps ->
  has_refresh db -> has_refresh (final (OAuth.onTokens deps tokens db)).
Proof.
  intros Hne (t & Ht & Hr).
  destruct (rotation_summary deps tokens db) as (_ & _ & _ & _ & _ & H).
  destruct (H t Ht) as (t' & Ht' & _ & _ & Hr').
  exists t'. split; [exact Ht'|].
  destruct Hr' as [->|(s & _ & _ & Hc)]; [exact Hr|].
  exact (Hne s _ Hc).
Qed.

Lemma cycle_keeps_refresh w db :
  has_refresh db -> has_refresh (final (runEmailSync w db)).
Proof.
  intros (t & Ht & Hr).
  destruct (runEmailSync_token w db) as [H|(t0 & res & c & Ht0 & _ & _ & _ & H)].
  - exists t. split; [congruence|exact Hr].
  - exists (Prisma.set_lastHistoryId c t0). split; [exact H|].
    simpl. congruence.
Qed.

(** X25.  Once the token row holds a refresh secret it holds one for good:
    no sequence of cycles, authorization callbacks and rotations (whose
    cipher yields ciphertexts, which are never empty) removes the row or
    blanks the secret.  A callback that brings no new refresh token keeps the
    stored one. *)
Theorem refresh_secret_is_never_lost (ss : list OAuth.Step) (db : DB) :
  Forall sane ss ->
  has_refresh db ->
  has_refresh (OAuth.steps ss db).
Proof.
  intros Hss. revert db.
  induction Hss as [|s ss Hs _ IH]; intros db Hdb; [exact Hdb|].
  simpl. apply IH.
  destruct s as [w|deps code|deps tokens]; simpl in *.
  - apply cycle_keeps_refresh. exact Hdb.
  - apply callback_keeps_refresh. exact Hdb.
  - apply rotation_keeps_refresh; assumption.
Qed.

Lemma refresh_secret_is_never_lost_witness :
  has_refresh
    (OAuth.steps [OAuth.Callback (Scenario.deps false) (Some "4/code");
                  OAuth.Cycle Sample.m1_ok_m2_throws;
                  OAuth.Rotation
                    (OAuth.mkDeps (fun _ => Rejected Sample.backend_down)
                                  (fun s => inr (String "x" s))
                                  (fun _ => None))
                    (Scenario.issued true)]
                 (Sample.db (Some "H100"))).
Proof.
  apply (refresh_secret_is_never_lost
           [OAuth.Callback (Scenario.deps false) (Some "4/code");
            OAuth.Cycle Sample.m1_ok_m2_throws;
            OAuth.Rotation
              (OAuth.mkDeps (fun _ => Rejected Sample.backend_down)
                            (fun s => inr (String "x" s))
                            (fun _ => None))
              (Scenario.issued true)]
           (Sample.db (Some "H100"))).
  - repeat constructor. intros s c H. simpl in H. injection H as <-. discriminate.
  - exists (Sample.token (Some "H100")). split; [reflexivity|discriminate].
Defined.

(** X26.  What the callback stores can be read back: with the cipher of
    utils/encryption on both sides (AES a block cipher, a 32-byte key and a
    16-byte IV), after a callback that answered 200 for a consent that issued
    a refresh token, the stored secret decrypts to that very token, and
    [getAuthenticatedClient] succeeds on the resulting database. *)
Theorem stored_secret_decrypts_to_issued_token
    (E D : Encryption.bytes -> Encryption.bytes -> Encryption.bytes)
    (m : Encryption.Keys) (deps : OAuth.Deps) (w : World)
    (code : option string) (db : DB) (tokens : OAuth.Credentials) (s : string) :
  (forall key b, length key = Encryption.KEY_LENGTH -> length b = Encryption.BLOCK ->
                 D key (E key b) = b) ->
  (forall key b, length key = Encryption.KEY_LENGTH -> length b = Encryption.BLOCK ->
                 length (E key b) = Encryption.BLOCK) ->
  length (Encryption.key m) = Encryption.KEY_LENGTH ->
  length (Encryption.iv m) = Encryption.BLOCK ->
  (forall p, OAuth.encrypt deps p = Encryption.encrypt E m p) ->
  decrypts w (Encryption.decrypt D m) ->
  store_fault w OpFindTokenAuth = None ->
  OAuth.getTokensFromCode deps (the code) = Resolved tokens ->
  OAuth.refresh_token tokens = Some s ->
  s <> "" ->
  outcome (OAuth.handleOAuthCallback deps code db) = inr OAuth.Authenticated ->
  let db' := final (OAuth.handleOAuthCallback deps code db) in
  (exists t', oAuthToken db' = Some t' /\ Encryption.decrypt D m (refresh t') = inr s)
  /\ getAuthenticatedClient w db' = (inr tt, db', []).
Proof.
  intros DE Elen Hkey Hiv Henc Hdec Hfault Hget Hs Hs' Hok db'.
  subst db'.
  destruct (callback_success deps code db Hok)
    as (tokens' & a & z & t' & Hget' & _ & _ & _ & Ht' & _ & _ & _ & Hr).
  rewrite Hget in Hget'. injection Hget' as <-.
  destruct (EncryptionFacts.decrypt_encrypt E D DE Elen m s Hkey Hiv) as (c & Hc1 & Hc2).
  assert (Href : refresh t' = c /\ c <> "").
  { destruct Hr as [(s0 & c0 & Hs0 & _ & Hc0 & Hne & ->)|(t & _ & _ & [Hf|Hf])].
    - rewrite Hs in Hs0. injection Hs0 as <-. rewrite Henc, Hc1 in Hc0.
      injection Hc0 as <-. auto.
    - rewrite Hs in Hf. simpl in Hf. rewrite (truthy_nonempty _ Hs') in Hf. discriminate Hf.
    - rewrite Hs in Hf. simpl in Hf. rewrite Henc in Hf.
      exfalso. exact (CipherFacts.encrypt_nonempty E Elen m s "" Hf eq_refl). }
  destruct Href as [Href Hne].
  split.
  - exists t'. split; [exact Ht'|]. rewrite Href. exact Hc2.
  - unfold getAuthenticatedClient, Prisma.oAuthToken_findUnique, Prisma.faulty.
    rewrite Hfault. unfold_M. rewrite Ht'. simpl.
    rewrite Href, (truthy_nonempty _ Hne). simpl.
    rewrite (Hdec c), Hc2. reflexivity.
Qed.

Lemma stored_secret_decrypts_to_issued_token_witness :
  let cb := OAuth.handleOAuthCallback (Scenario.deps true) (Some "4/code") Scenario.fresh in
  (exists t', oAuthToken (final cb) = Some t'
              /\ Encryption.decrypt Sample.toy_block Sample.keys (refresh t')
                 = inr "1//refresh-secret"%string)
  /\ getAuthenticatedClient Scenario.after_consent (final cb) = (inr tt, final cb, []).
Proof.
  apply (stored_secret_decrypts_to_issued_token Sample.toy_block Sample.toy_block
           Sample.keys (Scenario.deps true) Scenario.after_consent
           (Some "4/code") Scenario.fresh (Scenario.issued true) "1//refresh-secret").
  - intros key b _ _. apply rev_involutive.
  - intros key b _ Hb. unfold Sample.toy_block. rewrite length_rev. exact Hb.
  - reflexivity.
  - reflexivity.
  - intros p. reflexivity.
  - intros c. reflexivity.
  - reflexivity.
  - reflexivity.
  - reflexivity.
  - discriminate.
  - reflexivity.
Defined.

(** First consent, then a cycle of the process that shares the cipher: the
    token row is created, the cycle authenticates with it, stores m1 and
    sets the cursor. *)
Example consent_then_first_cycle :
  let db' := OAuth.steps [OAuth.Callback (Scenario.deps true) (Some "4/code");
                          OAuth.Cycle Scenario.after_consent] Scenario.fresh in
  map gmailId (emails db') = ["m1"] /\ cursor db' = None.
Proof. vm_compute. split; reflexivity. Qed.
